(** * programacionLineal: the simplex engine, the sensitivity analysis and
      the two-variable graphical solver

    A shallow embedding of [src/lib/simplex-solver.ts],
    [src/lib/sensitivity-analysis.ts] and of [computeGraphData] in
    [src/components/problem-solver.tsx].

    Numbers.  A TypeScript [number] is an IEEE 754 binary64 value, and so is
    Rocq's primitive [float]: [+], [-], [*], [/], [<], [<=], [==] and
    [Math.abs] are the same correctly rounded operations on both sides, so
    the definitions below compute on a concrete input exactly what the
    TypeScript computes.  Reading a numeric array past its end yields
    [undefined] in JavaScript; the modelled code uses such a value in
    arithmetic and in comparisons, where [undefined] converts to NaN, or
    stores it as it is ([rhsVector[i]] for a right-hand-side vector that is
    too short, [objectiveRow[i]] for an objective row that is too short):
    an out-of-range read is modelled as [nan] throughout.

    Objects.  [solve] keeps assigning to fields of tableau objects that are
    already stored in [iterations] and in [steps]; tableaus therefore live in
    an explicit store and are named by reference.

    Arrays.  The only assignments to array elements are those of
    [pivotOperation], to arrays it has copied just before; arrays are
    therefore lists.  [RowHeap] below has the rows as objects and the loops
    of [pivotOperation] as assignments in place, and [pivotRows_refines]
    relates the two readings. *)

From Stdlib Require Import String Ascii List Bool Arith ZArith Lia.
From Stdlib Require Import Floats DecimalString Permutation.
Import ListNotations.

(** ** JavaScript helpers *)

Module JS.

(** [a[i]] on a [number[]]. *)
Definition get (a : list float) (i : nat) : float := nth i a nan.

(** [a.map((x, i) => f(i, x))]. *)
Fixpoint mapi_from {A B : Type} (f : nat -> A -> B) (k : nat) (l : list A) : list B :=
  match l with
  | [] => []
  | x :: l' => f k x :: mapi_from f (S k) l'
  end.

Definition mapi {A B : Type} (f : nat -> A -> B) (l : list A) : list B :=
  mapi_from f 0 l.

(** [a[i] = v] for an index inside the array.  Outside it JavaScript would
    grow the array; [solve] never does that (the rows and columns it pivots
    on are in range, see [way_of_pivot]), and the model leaves the list as
    it is. *)
Fixpoint set {A : Type} (i : nat) (v : A) (l : list A) : list A :=
  match l, i with
  | [], _ => []
  | _ :: l', O => v :: l'
  | x :: l', S i' => x :: set i' v l'
  end.

(** The decimal text of a small non-negative integer, as in a template
    literal. *)
Definition of_nat (n : nat) : string :=
  NilEmpty.string_of_uint (Nat.to_uint n).

(** A [string | undefined] inside a template literal. *)
Definition show (s : option string) : string :=
  match s with
  | Some s => s
  | None => "undefined"
  end.

(** [x || y] on strings: the empty string and [undefined] are falsy. *)
Definition or_else (x : option string) (y : string) : string :=
  match x with
  | Some EmptyString | None => y
  | Some s => s
  end.

(** [x > y] and [x >= y]. *)
Definition gtb (x y : float) : bool := PrimFloat.ltb y x.
Definition geb (x y : float) : bool := PrimFloat.leb y x.

End JS.

(** ** The interfaces of [simplex-solver.ts] *)

(** A reference to a tableau object in the store. *)
Definition ref := nat.

Module SimplexTableau.
Record t : Type := make {
  tableau : list (list float);
  basicVariables : list string;
  nonBasicVariables : list string;
  objectiveRow : list float;
  rhsColumn : list float;
  iteration : nat;
  isOptimal : bool;
  isUnbounded : bool;
  pivotRow : option nat;
  pivotColumn : option nat;
  enteringVariable : option string;
  leavingVariable : option string
}.

Definition set_iteration (n : nat) (x : t) : t :=
  make (tableau x) (basicVariables x) (nonBasicVariables x) (objectiveRow x)
    (rhsColumn x) n (isOptimal x) (isUnbounded x) (pivotRow x)
    (pivotColumn x) (enteringVariable x) (leavingVariable x).

Definition set_isOptimal (b : bool) (x : t) : t :=
  make (tableau x) (basicVariables x) (nonBasicVariables x) (objectiveRow x)
    (rhsColumn x) (iteration x) b (isUnbounded x) (pivotRow x)
    (pivotColumn x) (enteringVariable x) (leavingVariable x).

Definition set_isUnbounded (b : bool) (x : t) : t :=
  make (tableau x) (basicVariables x) (nonBasicVariables x) (objectiveRow x)
    (rhsColumn x) (iteration x) (isOptimal x) b (pivotRow x)
    (pivotColumn x) (enteringVariable x) (leavingVariable x).

Definition set_pivotRow (v : option nat) (x : t) : t :=
  make (tableau x) (basicVariables x) (nonBasicVariables x) (objectiveRow x)
    (rhsColumn x) (iteration x) (isOptimal x) (isUnbounded x) v
    (pivotColumn x) (enteringVariable x) (leavingVariable x).

Definition set_pivotColumn (v : option nat) (x : t) : t :=
  make (tableau x) (basicVariables x) (nonBasicVariables x) (objectiveRow x)
    (rhsColumn x) (iteration x) (isOptimal x) (isUnbounded x) (pivotRow x)
    v (enteringVariable x) (leavingVariable x).

Definition set_enteringVariable (v : option string) (x : t) : t :=
  make (tableau x) (basicVariables x) (nonBasicVariables x) (objectiveRow x)
    (rhsColumn x) (iteration x) (isOptimal x) (isUnbounded x) (pivotRow x)
    (pivotColumn x) v (leavingVariable x).

Definition set_leavingVariable (v : option string) (x : t) : t :=
  make (tableau x) (basicVariables x) (nonBasicVariables x) (objectiveRow x)
    (rhsColumn x) (iteration x) (isOptimal x) (isUnbounded x) (pivotRow x)
    (pivotColumn x) (enteringVariable x) v.

(** What [undefined] stands for when a reference is dangling; the solver
    never dereferences one. *)
Definition dummy : t :=
  make [] [] [] [] [] 0 false false None None None None.
End SimplexTableau.

Module SimplexStep.
Record t : Type := make {
  iteration : nat;
  description : string;
  action : string;
  details : string;
  tableau : option ref
}.
End SimplexStep.

Module SimplexSolution.
Record t : Type := make {
  isOptimal : bool;
  isUnbounded : bool;
  isFeasible : bool;
  optimalValue : float;
  optimalSolution : list (string * float);
  iterations : list ref;
  steps : list SimplexStep.t
}.
End SimplexSolution.

Module StandardForm.
Record t : Type := make {
  objectiveCoefficients : list float;
  constraintMatrix : list (list float);
  rhsVector : list float;
  variables : list string;
  originalVariables : list string;
  slackVariables : list string;
  numOriginalVars : nat;
  numConstraints : nat
}.
End StandardForm.

Module ExtractedSolution.
Record t : Type := make {
  optimalValue : float;
  optimalSolution : list (string * float)
}.
End ExtractedSolution.

(** ** The store of tableau objects *)

Module Store.
Definition t := list SimplexTableau.t.

Definition deref (h : t) (r : ref) : SimplexTableau.t :=
  nth r h SimplexTableau.dummy.

(** A new object; its reference is the next free address. *)
Definition alloc (x : SimplexTableau.t) (h : t) : ref * t :=
  (length h, h ++ [x]).

(** An assignment to fields of the object behind [r]. *)
Fixpoint update (r : ref) (f : SimplexTableau.t -> SimplexTableau.t) (h : t) : t :=
  match h, r with
  | [], _ => []
  | x :: h', O => f x :: h'
  | x :: h', S r' => x :: update r' f h'
  end.
End Store.

(** ** [class SimplexSolver] *)

Module SimplexSolver.

Import SimplexTableau.

Local Open Scope float_scope.

(** [-1e-10], the tolerance of [isOptimal]: the binary64 value nearest to
    the decimal literal. *)
Definition minus_1e_10 : float := Eval cbv in (- 0x1.b7cdfd9d7bdbbp-34)%float.

Definition maxIterations : nat := 50.

Definition convertToStandardForm
    (objectiveCoefficients : list float) (constraintMatrix : list (list float))
    (rhsVector : list float) (isMaximization : bool) (variables : list string)
    : StandardForm.t :=
  let objCoeffs :=
    if isMaximization then objectiveCoefficients
    else map (fun c => - c) objectiveCoefficients in
  let numConstraints := length constraintMatrix in
  let numOriginalVars := length objectiveCoefficients in
  let extendedMatrix :=
    JS.mapi (fun i row =>
               (row ++ map (fun j => if Nat.eqb i j then 1 else 0)
                           (seq 0 numConstraints))%list)
            constraintMatrix in
  let extendedObjCoeffs := (objCoeffs ++ repeat 0 numConstraints)%list in
  let slackVariables :=
    map (fun i => ("s" ++ JS.of_nat (i + 1))%string) (seq 0 numConstraints) in
  let allVariables := (variables ++ slackVariables)%list in
  StandardForm.make extendedObjCoeffs extendedMatrix rhsVector allVariables
    variables slackVariables numOriginalVars numConstraints.

Definition createInitialTableau (standardForm : StandardForm.t) : SimplexTableau.t :=
  let constraintMatrix := StandardForm.constraintMatrix standardForm in
  let rhsVector := StandardForm.rhsVector standardForm in
  let objectiveCoefficients := StandardForm.objectiveCoefficients standardForm in
  let variables := StandardForm.variables standardForm in
  let slackVariables := StandardForm.slackVariables standardForm in
  let numOriginalVars := StandardForm.numOriginalVars standardForm in
  let tableau :=
    (JS.mapi (fun i row => row ++ [JS.get rhsVector i]) constraintMatrix
     ++ [map (fun c => - c) objectiveCoefficients ++ [0]])%list in
  let basicVariables := slackVariables in
  let nonBasicVariables := firstn numOriginalVars variables in
  let objectiveRow := nth (length tableau - 1) tableau [] in
  let rhsColumn := map (fun row => JS.get row (length row - 1)) tableau in
  SimplexTableau.make tableau basicVariables nonBasicVariables objectiveRow
    rhsColumn 0 false false None None None None.

(** The [for] loop of [findEnteringVariable], from column [0] on: the state
    is [(minValue, enteringColumn)]. *)
Definition enteringStep (objectiveRow : list float) (acc : float * Z) (j : nat)
    : float * Z :=
  let '(minValue, enteringColumn) := acc in
  if JS.get objectiveRow j <? minValue
  then (JS.get objectiveRow j, Z.of_nat j)
  else (minValue, enteringColumn).

Definition findEnteringVariable (tableau : SimplexTableau.t) : Z :=
  let objectiveRow := objectiveRow tableau in
  let searchColumns := length (nonBasicVariables tableau) in
  snd (fold_left (enteringStep objectiveRow) (seq 0 searchColumns) (0, (-1)%Z)).

(** The [for] loop of [findLeavingVariable]: the state is
    [(minRatio, leavingRow)].  [tableau.tableau[i]] exists for every [i] the
    loop visits, [rhsColumn] having one entry per row. *)
Definition leavingStep (tableau : SimplexTableau.t) (enteringColumn : nat)
    (acc : float * Z) (i : nat) : float * Z :=
  let '(minRatio, leavingRow) := acc in
  let pivotElement := JS.get (nth i (SimplexTableau.tableau tableau) []) enteringColumn in
  if JS.gtb pivotElement 0 then
    let ratio := JS.get (rhsColumn tableau) i / pivotElement in
    if ratio <? minRatio then (ratio, Z.of_nat i) else (minRatio, leavingRow)
  else (minRatio, leavingRow).

Definition findLeavingVariable (tableau : SimplexTableau.t) (enteringColumn : nat) : Z :=
  snd (fold_left (leavingStep tableau enteringColumn)
         (seq 0 (length (rhsColumn tableau) - 1)) (infinity, (-1)%Z)).

(** [pivotOperation], for [pivotRow] a row of the matrix (the only way
    [solve] calls it; with no such row the TypeScript throws on
    [newTableau[pivotRow][pivotColumn]]).  The two loops assign in place to
    the copy [newTableau]; on lists they are a [map] over the pivot row and
    a [map] over the entries of every other row. *)
Definition pivotOperation (tableau : SimplexTableau.t) (pivotRow pivotColumn : nat)
    : SimplexTableau.t :=
  let newTableau := SimplexTableau.tableau tableau in
  let pivotElement := JS.get (nth pivotRow newTableau []) pivotColumn in
  (* Normalize pivot row *)
  let newTableau :=
    JS.set pivotRow (map (fun x => x / pivotElement) (nth pivotRow newTableau []))
      newTableau in
  (* Eliminate other rows in pivot column *)
  let newTableau :=
    JS.mapi (fun i row =>
               if Nat.eqb i pivotRow then row
               else
                 let multiplier := JS.get row pivotColumn in
                 JS.mapi (fun j x =>
                            x - multiplier * JS.get (nth pivotRow newTableau []) j)
                         row)
            newTableau in
  (* Update basic/non-basic variables (swap) *)
  let newBasicVariables := basicVariables tableau in
  let newNonBasicVariables := nonBasicVariables tableau in
  let tmp := nth pivotRow newBasicVariables ""%string in
  let newBasicVariables :=
    JS.set pivotRow (nth pivotColumn newNonBasicVariables ""%string) newBasicVariables in
  let newNonBasicVariables := JS.set pivotColumn tmp newNonBasicVariables in
  let objectiveRow := nth (length newTableau - 1) newTableau [] in
  let rhsColumn := map (fun row => JS.get row (length row - 1)) newTableau in
  SimplexTableau.make newTableau newBasicVariables newNonBasicVariables
    objectiveRow rhsColumn (iteration tableau + 1) false false
    (Some pivotRow) (Some pivotColumn) None None.

Definition isOptimal (tableau : SimplexTableau.t) : bool :=
  let objectiveRow := objectiveRow tableau in
  forallb (fun j => negb (JS.get objectiveRow j <? minus_1e_10))
          (seq 0 (length objectiveRow - 1)).

(** [solution[k] = v] on the object used as a map. *)
Fixpoint assign (k : string) (v : float) (o : list (string * float))
    : list (string * float) :=
  match o with
  | [] => [(k, v)]
  | (k', v') :: o' =>
      if String.eqb k k' then (k, v) :: o' else (k', v') :: assign k v o'
  end.

(** [originalVariables.includes(variable)]. *)
Definition includes (l : list string) (s : string) : bool :=
  existsb (String.eqb s) l.

Definition extractSolution (tableau : SimplexTableau.t)
    (originalVariables : list string) (isMaximization : bool)
    : ExtractedSolution.t :=
  let solution := fold_left (fun o v => assign v 0 o) originalVariables [] in
  let solution :=
    fold_left (fun o iv =>
                 let '(i, variable) := iv in
                 if includes originalVariables variable
                 then assign variable (JS.get (rhsColumn tableau) i) o
                 else o)
              (combine (seq 0 (length (basicVariables tableau)))
                       (basicVariables tableau))
              solution in
  let raw := JS.get (rhsColumn tableau) (length (rhsColumn tableau) - 1) in
  let optimalValue := if isMaximization then raw else - raw in
  ExtractedSolution.make optimalValue solution.

End SimplexSolver.

(** ** [SimplexSolver.solve] *)

(** The local variables of [solve] that the [while] loop reads and writes,
    with the store of the tableau objects they refer to. *)
Module Loop.
Record state : Type := make {
  store : Store.t;
  iterations : list ref;
  steps : list SimplexStep.t;
  currentTableau : ref;
  iterationCount : nat
}.
End Loop.

Module Solve.

Import SimplexTableau.

(** The guard of the [while] loop. *)
Definition guard (st : Loop.state) : bool :=
  let currentTableau := Store.deref (Loop.store st) (Loop.currentTableau st) in
  negb (isOptimal currentTableau) && negb (isUnbounded currentTableau)
  && (Loop.iterationCount st <? SimplexSolver.maxIterations).

(** One run of the loop body; the boolean tells whether it left through
    [break]. *)
Definition body (st : Loop.state) : Loop.state * bool :=
  let h := Loop.store st in
  let iterations := Loop.iterations st in
  let steps := Loop.steps st in
  let cur := Loop.currentTableau st in
  let iterationCount := Loop.iterationCount st + 1 in
  (* Find entering variable (most negative in objective row) *)
  let enteringColumn := SimplexSolver.findEnteringVariable (Store.deref h cur) in
  if (enteringColumn =? -1)%Z then
    let h := Store.update cur (set_isOptimal true) h in
    (Loop.make h iterations steps cur iterationCount, true)
  else
    let enteringColumn := Z.to_nat enteringColumn in
    let h :=
      Store.update cur
        (fun x => set_enteringVariable
                    (nth_error (nonBasicVariables x) enteringColumn) x) h in
    let h := Store.update cur (set_pivotColumn (Some enteringColumn)) h in
    let steps :=
      steps ++
      [SimplexStep.make iterationCount "Selección de Variable de Entrada"
         "entering_variable"
         ("Variable de entrada: "
          ++ JS.show (enteringVariable (Store.deref h cur))
          ++ " (columna " ++ JS.of_nat (enteringColumn + 1)
          ++ "). Criterio: coeficiente más negativo en fila objetivo.")%string
         None] in
    (* Find leaving variable (minimum ratio test) *)
    let leavingRow :=
      SimplexSolver.findLeavingVariable (Store.deref h cur) enteringColumn in
    if (leavingRow =? -1)%Z then
      let h := Store.update cur (set_isUnbounded true) h in
      let steps :=
        steps ++
        [SimplexStep.make iterationCount "Problema No Acotado" "unbounded"
           "No se encontró variable de salida válida. El problema es no acotado (solución infinita)."
           None] in
      (Loop.make h iterations steps cur iterationCount, true)
    else
      let leavingRow := Z.to_nat leavingRow in
      let h :=
        Store.update cur
          (fun x => set_leavingVariable
                      (nth_error (basicVariables x) leavingRow) x) h in
      let h := Store.update cur (set_pivotRow (Some leavingRow)) h in
      let steps :=
        steps ++
        [SimplexStep.make iterationCount "Selección de Variable de Salida"
           "leaving_variable"
           ("Variable de salida: "
            ++ JS.show (leavingVariable (Store.deref h cur))
            ++ " (fila " ++ JS.of_nat (leavingRow + 1)
            ++ "). Criterio: prueba de razón mínima.")%string
           None] in
      (* Perform pivot operation *)
      let '(newTableau, h) :=
        Store.alloc
          (SimplexSolver.pivotOperation (Store.deref h cur) leavingRow enteringColumn)
          h in
      let h := Store.update newTableau (set_iteration iterationCount) h in
      let iterations := iterations ++ [newTableau] in
      let steps :=
        steps ++
        [SimplexStep.make iterationCount "Operación de Pivote" "pivot"
           ("Pivote en elemento (" ++ JS.of_nat (leavingRow + 1) ++ ", "
            ++ JS.of_nat (enteringColumn + 1) ++ "). "
            ++ JS.show (leavingVariable (Store.deref h cur)) ++ " sale, "
            ++ JS.show (enteringVariable (Store.deref h cur)) ++ " entra.")%string
           (Some newTableau)] in
      (* Check optimality *)
      if SimplexSolver.isOptimal (Store.deref h newTableau) then
        let h := Store.update newTableau (set_isOptimal true) h in
        let steps :=
          steps ++
          [SimplexStep.make iterationCount "Solución Óptima Encontrada" "optimal"
             "Todos los coeficientes en la fila objetivo son no negativos. Se alcanzó la solución óptima."
             None] in
        (Loop.make h iterations steps newTableau iterationCount, false)
      else
        (Loop.make h iterations steps newTableau iterationCount, false).

(** The [while] loop.  [fuel] only makes the recursion structural: the guard
    itself stops the loop once [iterationCount] reaches [maxIterations], and
    [loop_fuel_enough] shows that [maxIterations] units are never used up. *)
Fixpoint loop (fuel : nat) (st : Loop.state) : Loop.state :=
  match fuel with
  | O => st
  | S fuel' =>
      if guard st then
        let '(st', break) := body st in
        if break then st' else loop fuel' st'
      else st
  end.

(** The state of [solve] when it enters the loop. *)
Definition init
    (objectiveCoefficients : list float) (constraintMatrix : list (list float))
    (rhsVector : list float) (isMaximization : bool) (variables : list string)
    : Loop.state :=
  (* Step 1: Convert to standard form *)
  let standardForm :=
    SimplexSolver.convertToStandardForm objectiveCoefficients constraintMatrix
      rhsVector isMaximization variables in
  let steps :=
    [SimplexStep.make 0 "Conversión a Forma Estándar" "convert_standard"
       ("Problema convertido a forma estándar. "
        ++ (if isMaximization then "Maximización" else "Minimización")
        ++ " convertida a maximización.")%string
       None] in
  (* Step 2: Create initial tableau *)
  let '(currentTableau, h) :=
    Store.alloc (SimplexSolver.createInitialTableau standardForm) [] in
  let iterations := [currentTableau] in
  let steps :=
    steps ++
    [SimplexStep.make 0 "Tabla Simplex Inicial" "initial_tableau"
       "Tabla inicial creada con variables de holgura. Variables básicas iniciales identificadas."
       (Some currentTableau)] in
  Loop.make h iterations steps currentTableau 0.

(** What [solve] returns, read off the state in which the loop ended. *)
Definition finish (originalVariables : list string) (isMaximization : bool)
    (st : Loop.state) : SimplexSolution.t :=
  let currentTableau := Store.deref (Loop.store st) (Loop.currentTableau st) in
  let solution :=
    SimplexSolver.extractSolution currentTableau originalVariables isMaximization in
  SimplexSolution.make
    (isOptimal currentTableau)
    (isUnbounded currentTableau)
    true (* Asumimos factible en esta version *)
    (ExtractedSolution.optimalValue solution)
    (ExtractedSolution.optimalSolution solution)
    (Loop.iterations st)
    (Loop.steps st).

(** The state in which the loop of [solve] ends. *)
Definition final
    (objectiveCoefficients : list float) (constraintMatrix : list (list float))
    (rhsVector : list float) (isMaximization : bool) (variables : list string)
    : Loop.state :=
  loop SimplexSolver.maxIterations
    (init objectiveCoefficients constraintMatrix rhsVector isMaximization variables).

End Solve.

(** [solve] returns the solution object; the store it leaves behind holds
    the tableaus the solution's [iterations] and [steps] refer to. *)
Definition solve
    (objectiveCoefficients : list float) (constraintMatrix : list (list float))
    (rhsVector : list float) (isMaximization : bool) (variables : list string)
    : SimplexSolution.t * Store.t :=
  let st :=
    Solve.final objectiveCoefficients constraintMatrix rhsVector isMaximization
      variables in
  (Solve.finish variables isMaximization st, Loop.store st).

(** The tableaus of a solution's iteration history, as the store has them. *)
Definition history (s : SimplexSolution.t) (h : Store.t) : list SimplexTableau.t :=
  map (Store.deref h) (SimplexSolution.iterations s).

(** ** [performSensitivityAnalysis] *)

Module SensitivityResult.
Record shadowPrice : Type := makePrice { constraint : string; price : float }.
Record reducedCost : Type := makeCost { variable : string; cost : float }.
Record t : Type := make {
  shadowPrices : list shadowPrice;
  reducedCosts : list reducedCost
}.
End SensitivityResult.

(** The function reads the first and the last tableau of the history
    through the store and returns the store with its result; [None] is the
    [TypeError] of [initialTableau.nonBasicVariables] on an empty history. *)
Definition performSensitivityAnalysis (solution : SimplexSolution.t) (h : Store.t)
    : option SensitivityResult.t * Store.t :=
  let iterations := SimplexSolution.iterations solution in
  match iterations with
  | [] => (None, h)
  | first :: _ =>
      let finalTableau := Store.deref h (nth (length iterations - 1) iterations 0) in
      let initialTableau := Store.deref h first in
      let numOriginalVars := length (SimplexTableau.nonBasicVariables initialTableau) in
      let numConstraints := length (SimplexTableau.basicVariables initialTableau) in
      let shadowPrices :=
        map (fun i =>
               let column := numOriginalVars + i in
               let price :=
                 (- JS.get (SimplexTableau.objectiveRow finalTableau) column)%float in
               SensitivityResult.makePrice
                 (JS.or_else (nth_error (SimplexTableau.basicVariables initialTableau) i)
                             ("s" ++ JS.of_nat (i + 1))%string)
                 price)
            (seq 0 numConstraints) in
      let reducedCosts :=
        map (fun i =>
               SensitivityResult.makeCost
                 (nth i (SimplexTableau.nonBasicVariables initialTableau) ""%string)
                 (JS.get (SimplexTableau.objectiveRow finalTableau) i))
            (seq 0 numOriginalVars) in
      (Some (SensitivityResult.make shadowPrices reducedCosts), h)
  end.

(** ** The graphical method: [computeGraphData] *)

Module Graph.

Local Open Scope float_scope.

(** The operators ["≤"], ["≥"] and ["="]. *)
Inductive operator : Type := Leq | Geq | Equal.

Inductive sense : Type := maximize | minimize.

Record constraint : Type := makeConstraint {
  coefficients : list float;
  op : operator;
  rhs : float
}.

(** The fields of [LinearProgrammingProblem] that [computeGraphData] reads. *)
Record problem : Type := makeProblem {
  type : sense;
  objective : list float;
  constraints : list constraint
}.

Record Point : Type := makePoint { x : float; y : float }.

(** The decimal literals [1e-8] and [1e-6], as the binary64 values they
    denote. *)
Definition tol_1e_8 : float := 0x1.5798ee2308c3ap-27.
Definition tol_1e_6 : float := 0x1.0c6f7a0b5ed8dp-20.

Definition intersection (c1 c2 : constraint) : option Point :=
  let a1 := JS.get (coefficients c1) 0 in
  let b1 := JS.get (coefficients c1) 1 in
  let a2 := JS.get (coefficients c2) 0 in
  let b2 := JS.get (coefficients c2) 1 in
  let det := a1 * b2 - a2 * b1 in
  if abs det <? tol_1e_8 then None
  else
    let x := (rhs c1 * b2 - rhs c2 * b1) / det in
    let y := (a1 * rhs c2 - a2 * rhs c1) / det in
    Some (makePoint x y).

(** [seen.some(s => ...)] of [dedupe]. *)
Definition close (s p : Point) : bool :=
  (abs (x s - x p) <? tol_1e_6) && (abs (y s - y p) <? tol_1e_6).

Definition dedupe (points : list Point) : list Point :=
  fold_left (fun seen p => if existsb (fun s => close s p) seen then seen
                           else (seen ++ [p])%list)
            points [].

(** The axis intercepts pushed by the [forEach] over the constraints. *)
Definition intercepts (c : constraint) : list Point :=
  let a := JS.get (coefficients c) 0 in
  let b := JS.get (coefficients c) 1 in
  ((if negb (a =? 0) then [makePoint (rhs c / a) 0] else [])
   ++ (if negb (b =? 0) then [makePoint 0 (rhs c / b)] else []))%list.

(** The intersections pushed by the double [for] loop, [i < j]. *)
Fixpoint pairwise (cs : list constraint) : list Point :=
  match cs with
  | [] => []
  | c :: cs' =>
      (flat_map (fun c' => match intersection c c' with
                           | Some p => [p]
                           | None => []
                           end) cs'
       ++ pairwise cs')%list
  end.

Definition candidates (cs : list constraint) : list Point :=
  (makePoint 0 0 :: flat_map intercepts cs ++ pairwise cs)%list.

(** The callback of [constraints.every]. *)
Definition satisfies (p : Point) (c : constraint) : bool :=
  let a := JS.get (coefficients c) 0 in
  let b := JS.get (coefficients c) 1 in
  let lhs := a * x p + b * y p in
  match op c with
  | Leq => lhs <=? rhs c + tol_1e_8
  | Geq => JS.geb lhs (rhs c - tol_1e_8)
  | Equal => abs (lhs - rhs c) <=? tol_1e_8
  end.

(** The callback of [candidates.filter]. *)
Definition feasible (cs : list constraint) (p : Point) : bool :=
  forallb (satisfies p) cs && JS.geb (x p) 0 && JS.geb (y p) 0.

(** The [forEach] that looks for the optimum: the state is
    [(optimalPoint, optimalValue)]. *)
Definition optimumStep (objA objB : float) (isMax : bool)
    (acc : option Point * float) (p : Point) : option Point * float :=
  let '(optimalPoint, optimalValue) := acc in
  let value := objA * x p + objB * y p in
  match optimalPoint with
  | None => (Some p, value)
  | Some _ =>
      if (if isMax then JS.gtb value optimalValue else value <? optimalValue)
      then (Some p, value)
      else (optimalPoint, optimalValue)
  end.

(** What [computeGraphData] computes before it turns to the drawing
    ([sortPolygon], the constraint lines and the plot bounds, which do not
    feed back into these three). *)
Record GraphData : Type := makeGraphData {
  feasiblePoints : list Point;
  optimalPoint : option Point;
  optimalValue : float
}.

Definition computeGraphData (pr : problem) : GraphData :=
  let constraints := constraints pr in
  let objA := JS.get (objective pr) 0 in
  let objB := JS.get (objective pr) 1 in
  let isMax := match type pr with maximize => true | minimize => false end in
  let feasiblePoints := dedupe (filter (feasible constraints) (candidates constraints)) in
  let '(optimalPoint, optimalValue) :=
    fold_left (optimumStep objA objB isMax) feasiblePoints (None, 0) in
  makeGraphData feasiblePoints optimalPoint optimalValue.

End Graph.

Import SimplexTableau.

(** ** Notions used in the statements *)

(** What a scan that keeps the least value below [init] has found among the
    indices below [n] that pass [ok]: nothing, or the first index that holds
    the least value. *)
Definition scanned (ok : nat -> bool) (val : nat -> float) (init : float)
    (n : nat) (acc : float * Z) : Prop :=
  (snd acc = (-1)%Z /\ fst acc = init /\
   forall j, j < n -> ok j = true -> (val j <? init)%float = false)
  \/
  (exists k, snd acc = Z.of_nat k /\ fst acc = val k /\ k < n /\ ok k = true /\
     (val k <? init)%float = true /\
     (forall j, j < n -> ok j = true -> (val j <? val k)%float = false) /\
     (forall j, j < k -> ok j = true -> (val j =? val k)%float = false)).

(** The entry of a row in the entering column, and the ratio of the row. *)
Definition entry (t : SimplexTableau.t) (col i : nat) : float :=
  JS.get (nth i (tableau t) []) col.

Definition ratio (t : SimplexTableau.t) (col i : nat) : float :=
  (JS.get (rhsColumn t) i / entry t col i)%float.


(** ** The three ways through the loop body *)

Inductive way : Type :=
| Stop_optimal
| Stop_unbounded (enteringColumn : nat)
| Pivot (enteringColumn leavingRow : nat).

Definition way_of (t : SimplexTableau.t) : way :=
  let e := SimplexSolver.findEnteringVariable t in
  if (e =? -1)%Z then Stop_optimal
  else
    let l := SimplexSolver.findLeavingVariable t (Z.to_nat e) in
    if (l =? -1)%Z then Stop_unbounded (Z.to_nat e)
    else Pivot (Z.to_nat e) (Z.to_nat l).

(** The assignments to the current tableau before the ratio test and before
    the pivot. *)
Definition noteEntering (col : nat) (x : SimplexTableau.t) : SimplexTableau.t :=
  set_pivotColumn (Some col)
    (set_enteringVariable (nth_error (nonBasicVariables x) col) x).

Definition noteLeaving (row : nat) (x : SimplexTableau.t) : SimplexTableau.t :=
  set_pivotRow (Some row)
    (set_leavingVariable (nth_error (basicVariables x) row) x).

(** The assignments to the new tableau after [pivotOperation] returned it. *)
Definition finishNew (n : nat) (x : SimplexTableau.t) : SimplexTableau.t :=
  if SimplexSolver.isOptimal (set_iteration n x)
  then set_isOptimal true (set_iteration n x)
  else set_iteration n x.

Definition current (st : Loop.state) : SimplexTableau.t :=
  Store.deref (Loop.store st) (Loop.currentTableau st).


(** One right-hand side per row, one basic variable per constraint row. *)
Definition shape (x : SimplexTableau.t) : Prop :=
  length (rhsColumn x) = length (tableau x) /\
  length (basicVariables x) + 1 = length (tableau x).


(** ** What the loop of [solve] maintains *)

Definition flags_clear (x : SimplexTableau.t) : Prop :=
  isOptimal x = false /\ isUnbounded x = false.

Record wf (st : Loop.state) : Prop := {
  wf_cur : Loop.currentTableau st + 1 = length (Loop.store st);
  wf_iterations : Loop.iterations st = seq 0 (length (Loop.store st));
  wf_shape : Forall shape (Loop.store st);
  wf_old : forall r, r < Loop.currentTableau st ->
                     flags_clear (Store.deref (Loop.store st) r)
}.

(** Whenever the guard is about to be evaluated. *)
Definition at_head (st : Loop.state) : Prop :=
  wf st /\
  length (Loop.store st) = Loop.iterationCount st + 1 /\
  Loop.iterationCount st <= SimplexSolver.maxIterations /\
  isUnbounded (current st) = false /\
  iteration (current st) = Loop.iterationCount st.

(** When the loop has been left. *)
Definition at_exit (st : Loop.state) : Prop :=
  wf st /\
  length (Loop.store st) <= Loop.iterationCount st + 1 /\
  Loop.iterationCount st <= SimplexSolver.maxIterations /\
  (isOptimal (current st) = true -> isUnbounded (current st) = true -> False) /\
  (flags_clear (current st) ->
   Loop.iterationCount st = SimplexSolver.maxIterations /\
   length (Loop.store st) = SimplexSolver.maxIterations + 1).


(** ** The tableaus of the history over time *)

(** [reaches st st']: the loop, started in [st], is in [st'] after some
    number of rounds (a round that ends in [break] being the last one). *)
Inductive reaches : Loop.state -> Loop.state -> Prop :=
| reaches_here st : reaches st st
| reaches_break st :
    Solve.guard st = true -> snd (Solve.body st) = true ->
    reaches st (fst (Solve.body st))
| reaches_next st st' :
    Solve.guard st = true -> snd (Solve.body st) = false ->
    reaches (fst (Solve.body st)) st' -> reaches st st'.

(** The claim as the specification words it: a tableau of the history is
    the same object value at every later time. *)
Definition never_mutated (st0 : Loop.state) : Prop :=
  forall st st', reaches st0 st -> reaches st st' ->
  forall r, In r (Loop.iterations st) ->
    Store.deref (Loop.store st') r = Store.deref (Loop.store st) r.

(** The fields that hold the matrix and the basis. *)
Definition same_matrix_and_basis (x y : SimplexTableau.t) : Prop :=
  tableau x = tableau y /\
  basicVariables x = basicVariables y /\
  nonBasicVariables x = nonBasicVariables y /\
  objectiveRow x = objectiveRow y /\
  rhsColumn x = rhsColumn y /\
  iteration x = iteration y.


(** The problem of [examples/simplex-example.ts]: maximize 3 x1 + 5 x2
    subject to x1 <= 4, 2 x2 <= 12 and 3 x1 + 2 x2 <= 18. *)
Definition example_objective : list float := [3; 5]%float.
Definition example_matrix : list (list float) := [[1; 0]; [0; 2]; [3; 2]]%float.
Definition example_rhs : list float := [4; 12; 18]%float.
Definition example_variables : list string := ["x1"; "x2"]%string.


(** ** The entering variable *)

Module Spec.

(** The columns that are non-basic in a tableau: column [j] of the matrix
    belongs to the [j]-th of all variables (the original ones, then the
    slacks), and is non-basic when that variable is in [nonBasicVariables]. *)
Definition nonBasicColumns (allVariables : list string) (t : SimplexTableau.t)
    : list nat :=
  filter (fun j => SimplexSolver.includes (nonBasicVariables t)
                     (nth j allVariables ""%string))
         (seq 0 (length allVariables)).

(** The entering-variable rule in the words of the specification: the same
    scan as [SimplexSolver.findEnteringVariable], over the non-basic
    columns. *)
Definition findEnteringVariable (allVariables : list string)
    (t : SimplexTableau.t) : Z :=
  snd (fold_left (SimplexSolver.enteringStep (objectiveRow t))
         (nonBasicColumns allVariables t) (0%float, (-1)%Z)).

End Spec.

(** maximize 3x + 2y subject to x <= 3 and 2x + y <= 8. *)
Definition slack_objective : list float := [3; 2]%float.
Definition slack_matrix : list (list float) := [[1; 0]; [2; 1]]%float.
Definition slack_rhs : list float := [3; 8]%float.
Definition slack_variables : list string := ["x"; "y"]%string.


(** The minimum-ratio rule in the words of the specification: whenever some
    constraint row has a strictly positive entry in the entering column, a
    row is picked; it has a positive entry, no such row has a smaller ratio
    and no earlier such row has the same ratio. *)
Definition picks_min_ratio_row (t : SimplexTableau.t) (col : nat) : Prop :=
  let m := length (rhsColumn t) - 1 in
  (exists i, i < m /\ JS.gtb (entry t col i) 0 = true) ->
  exists k, SimplexSolver.findLeavingVariable t col = Z.of_nat k /\ k < m /\
    JS.gtb (entry t col k) 0 = true /\
    (forall i, i < m -> JS.gtb (entry t col i) 0 = true ->
       (ratio t col i <? ratio t col k)%float = false) /\
    (forall i, i < k -> JS.gtb (entry t col i) 0 = true ->
       (ratio t col i =? ratio t col k)%float = false).

(** maximize x subject to 0.25 x <= 2^1023: the ratio 2^1023 / 0.25
    overflows to +Infinity. *)
Definition overflow_tableau : SimplexTableau.t :=
  SimplexSolver.createInitialTableau
    (SimplexSolver.convertToStandardForm [1]%float [[0.25]]%float
       [0x1p1023]%float true ["x"]%string).

(** ** Notions used in the statements about the graphical method *)

(** The objective value of a point. *)
Definition objectiveValue (pr : Graph.problem) (p : Graph.Point) : float :=
  (JS.get (Graph.objective pr) 0 * Graph.x p
   + JS.get (Graph.objective pr) 1 * Graph.y p)%float.

(** [v] is strictly better than [w]: greater when maximizing, lesser when
    minimizing. *)
Definition strictlyBetter (pr : Graph.problem) (v w : float) : bool :=
  match Graph.type pr with
  | Graph.maximize => JS.gtb v w
  | Graph.minimize => (v <? w)%float
  end.

(** The step of the scan for the optimum, with the arguments
    [computeGraphData] gives it. *)
Definition optimumStepOf (pr : Graph.problem)
    : option Graph.Point * float -> Graph.Point -> option Graph.Point * float :=
  Graph.optimumStep (JS.get (Graph.objective pr) 0) (JS.get (Graph.objective pr) 1)
    (match Graph.type pr with Graph.maximize => true | Graph.minimize => false end).

(** [f] is the number a decimal literal of value [num / den], below 1,
    denotes in the source: the positive normal binary64 number nearest to
    it, [m * 2^e] less than half a unit in the last place away. *)
Definition denotes (f : float) (num den : Z) : Prop :=
  exists m e,
    Prim2SF f = S754_finite false m e /\
    (2 ^ 52 <= Z.pos m < 2 ^ 53)%Z /\ (e < 0)%Z /\
    (2 * Z.abs (Z.pos m * den - num * 2 ^ (- e)) < den)%Z.

(** A point satisfies a constraint within the tolerance [tol], in the
    words of the specification: the left-hand side is at most [rhs + tol]
    for ["≤"], at least [rhs - tol] for ["≥"], and at most [tol] away from
    [rhs] for ["="]. *)
Definition satisfiesWithin (tol : float) (p : Graph.Point) (c : Graph.constraint)
    : Prop :=
  let lhs := (JS.get (Graph.coefficients c) 0 * Graph.x p
              + JS.get (Graph.coefficients c) 1 * Graph.y p)%float in
  match Graph.op c with
  | Graph.Leq => (lhs <=? Graph.rhs c + tol)%float = true
  | Graph.Geq => (Graph.rhs c - tol <=? lhs)%float = true
  | Graph.Equal => (abs (lhs - Graph.rhs c) <=? tol)%float = true
  end.

(** [s] and [p] differ by less than [tol] in each coordinate. *)
Definition nearBy (tol : float) (s p : Graph.Point) : bool :=
  (abs (Graph.x s - Graph.x p) <? tol)%float
  && (abs (Graph.y s - Graph.y p) <? tol)%float.

(** No point of the list is within the tolerance [1e-6], coordinate by
    coordinate, of a point that comes before it. *)
Definition separated (l : list Graph.Point) : Prop :=
  forall l1 p l2, l = l1 ++ p :: l2 ->
  forall s, In s l1 -> Graph.close s p = false.

(** ** Notions used in the statements about degenerate problems *)

(** Zero of either sign, or NaN. *)
Definition zeroOrNaN (x : float) : bool := is_zero x || is_nan x.




(** ** The arrays [pivotOperation] writes to *)

(** [pivotOperation] assigns to array elements in place.  Here the rows are
    objects in a heap of their own and a matrix is a list of row addresses,
    so that an assignment to the row of one matrix would show in every
    matrix that shares the row. *)
Module RowHeap.

Definition heap := list (list float).

Definition read (H : heap) (r : nat) : list float := nth r H [].

(** [row[j] = v], for [j] inside the row. *)
Definition write (H : heap) (r j : nat) (v : float) : heap :=
  JS.set r (JS.set j v (read H r)) H.

(** [rows.map((row) => [...row])]: a new row object per row. *)
Fixpoint copyRows (H : heap) (rows : list nat) : heap * list nat :=
  match rows with
  | [] => (H, [])
  | r :: rows' =>
      let '(H', copies) := copyRows (H ++ [read H r]) rows' in
      (H', length H :: copies)
  end.

(** The first loop: [newTableau[pivotRow][j] /= pivotElement]. *)
Definition normalize (H : heap) (pivot : nat) (pivotElement : float) : heap :=
  fold_left (fun H j => write H pivot j (JS.get (read H pivot) j / pivotElement)%float)
            (seq 0 (length (read H pivot))) H.

(** The inner loop of the second one:
    [newTableau[i][j] -= multiplier * newTableau[pivotRow][j]]. *)
Definition eliminateRow (H : heap) (pivot r : nat) (multiplier : float) : heap :=
  fold_left (fun H j =>
               write H r j (JS.get (read H r) j - multiplier * JS.get (read H pivot) j)%float)
            (seq 0 (length (read H r))) H.

(** The matrix part of [pivotOperation]: the new heap and the addresses of
    the rows of [newTableau]. *)
Definition pivotRows (H : heap) (rows : list nat) (pivotRow pivotColumn : nat)
    : heap * list nat :=
  let '(H, newTableau) := copyRows H rows in
  let pivot := nth pivotRow newTableau 0 in
  let pivotElement := JS.get (read H pivot) pivotColumn in
  let H := normalize H pivot pivotElement in
  let H :=
    fold_left (fun H i =>
                 if Nat.eqb i pivotRow then H
                 else
                   let r := nth i newTableau 0 in
                   let multiplier := JS.get (read H r) pivotColumn in
                   eliminateRow H pivot r multiplier)
              (seq 0 (length newTableau)) H in
  (H, newTableau).

End RowHeap.

(** A loop [for (j = 0; j < row.length; j++) row[j] = F(j, row[j])] on the
    [i]-th of a list of rows. *)
Definition rowLoop (F : nat -> float -> float) (i : nat) (R : list (list float))
    (k : nat) : list (list float) :=
  fold_left (fun R j => JS.set i (JS.set j (F j (JS.get (nth i R []) j)) (nth i R [])) R)
            (seq 0 k) R.

(** What the second loop makes of row [i]. *)
Definition eliminated (pr pc : nat) (P : list float) (i : nat) (row : list float)
    : list float :=
  if Nat.eqb i pr then row
  else JS.mapi (fun j x => x - JS.get row pc * JS.get P j)%float row.

(** [pivotOperation] works on copies: run on rows that live in a heap, it
    leaves every row that was there as it was, and the rows of the new
    matrix are at new addresses and hold the matrix that
    [SimplexSolver.pivotOperation] computes. *)
Definition pivot_writes_own_copies (pivotRow pivotColumn : nat) : Prop :=
  forall (H : RowHeap.heap) (rows : list nat) (t : SimplexTableau.t),
    (forall r, In r rows -> r < length H) ->
    tableau t = map (RowHeap.read H) rows ->
    pivotRow < length rows ->
    let H' := fst (RowHeap.pivotRows H rows pivotRow pivotColumn) in
    let rows' := snd (RowHeap.pivotRows H rows pivotRow pivotColumn) in
    (forall r, r < length H -> RowHeap.read H' r = RowHeap.read H r) /\
    (forall r, In r rows' -> length H <= r) /\
    map (RowHeap.read H') rows' =
    tableau (SimplexSolver.pivotOperation t pivotRow pivotColumn).

(** ** The pivot, in the words of the specification *)

(** What the specification says of the pivot on a row and a column of the
    tableau: the pivot row is divided by the pivot element, every other row
    has its entry in the pivot column times the normalized pivot row
    subtracted, the pivot column is a unit vector afterwards (1 in the
    pivot row, 0 in every other row, either zero counting), the two names
    change places and the iteration counter is one more. *)
Definition pivots_as_described (t : SimplexTableau.t) (pivotRow pivotColumn : nat)
    : Prop :=
  pivotRow < length (tableau t) ->
  pivotRow < length (basicVariables t) ->
  pivotColumn < length (nonBasicVariables t) ->
  let t' := SimplexSolver.pivotOperation t pivotRow pivotColumn in
  let row i := nth i (tableau t) [] in
  let row' i := nth i (tableau t') [] in
  let pivotElement := JS.get (row pivotRow) pivotColumn in
  row' pivotRow = map (fun x => x / pivotElement)%float (row pivotRow) /\
  (forall i, i < length (tableau t) -> i <> pivotRow ->
     forall j, j < length (row i) ->
       JS.get (row' i) j =
       (JS.get (row i) j - JS.get (row i) pivotColumn * JS.get (row' pivotRow) j)%float) /\
  (forall i, i < length (tableau t) ->
     (JS.get (row' i) pivotColumn =? (if Nat.eqb i pivotRow then 1 else 0))%float = true) /\
  nth_error (basicVariables t') pivotRow = nth_error (nonBasicVariables t) pivotColumn /\
  nth_error (nonBasicVariables t') pivotColumn = nth_error (basicVariables t) pivotRow /\
  (forall i, i <> pivotRow ->
     nth_error (basicVariables t') i = nth_error (basicVariables t) i) /\
  (forall j, j <> pivotColumn ->
     nth_error (nonBasicVariables t') j = nth_error (nonBasicVariables t) j) /\
  iteration t' = iteration t + 1.

(** A problem with finite numbers only whose first pivot overflows:
    maximize [2 x1 + 1.5 x2] subject to [- a x1 + a x2 <= 0] and
    [x1 + 0.5 x2 <= 1], with [a] = 1.875 * 2^1023 (about 1.685e308). *)
Definition overflowing_objective : list float := [2; 1.5]%float.
Definition overflowing_matrix : list (list float) :=
  [[-0x1.ep1023; 0x1.ep1023]; [1; 0.5]]%float.
Definition overflowing_rhs : list float := [0; 1]%float.
Definition overflowing_variables : list string := ["x1"; "x2"]%string.

(** The second tableau of its history, on which [solve] pivots again. *)
Definition overflowed_tableau : SimplexTableau.t :=
  let r := solve overflowing_objective overflowing_matrix overflowing_rhs true
             overflowing_variables in
  nth 1 (history (fst r) (snd r)) SimplexTableau.dummy.

(** ** Notions used in the statements about a whole run of [solve] *)

(** The tableau [solve] starts from. *)
Definition initialTableau
    (o : list float) (A : list (list float)) (b : list float) (mx : bool)
    (vars : list string) : SimplexTableau.t :=
  SimplexSolver.createInitialTableau
    (SimplexSolver.convertToStandardForm o A b mx vars).

(** The names [s1], ..., [sm]. *)
Definition slackNames (m : nat) : list string :=
  map (fun i => ("s" ++ JS.of_nat (i + 1))%string) (seq 0 m).

(** The [i]-th unit vector of length [m]. *)
Definition unitRow (m i : nat) : list float :=
  map (fun j => if Nat.eqb i j then 1%float else 0%float) (seq 0 m).

(** The last entry of a row, [row[row.length - 1]]. *)
Definition lastEntry (row : list float) : float := JS.get row (length row - 1).

(** The value the object [extractSolution] fills has under its own key
    [k], as [Object.entries] lists it; [None] when it has no such key. *)
Fixpoint lookup (o : list (string * float)) (k : string) : option float :=
  match o with
  | [] => None
  | (k', v) :: o' => if String.eqb k k' then Some v else lookup o' k
  end.

(** [x] has been pivoted on and [y] is what came of it: [x] records the
    column and the row the rules choose on it, with the names of the two
    variables, and [y] has the matrix and the basis of the pivot of [x],
    numbered one more than [x]. *)
Definition pivots_to (x y : SimplexTableau.t) : Prop :=
  exists col row,
    way_of x = Pivot col row /\
    pivotColumn x = Some col /\
    pivotRow x = Some row /\
    enteringVariable x = nth_error (nonBasicVariables x) col /\
    leavingVariable x = nth_error (basicVariables x) row /\
    same_matrix_and_basis y
      (set_iteration (iteration x + 1) (SimplexSolver.pivotOperation x row col)).

(** What [solve] has found out about a tableau it flags. *)
Definition flags_justified (x : SimplexTableau.t) : Prop :=
  (isOptimal x = true ->
   SimplexSolver.findEnteringVariable x = (-1)%Z \/
   SimplexSolver.isOptimal x = true) /\
  (isUnbounded x = true ->
   exists col,
     SimplexSolver.findEnteringVariable x = Z.of_nat col /\
     SimplexSolver.findLeavingVariable x col = (-1)%Z).

(** The tableaus in the store form one chain of pivots from [t0]. *)
Record chained (t0 : SimplexTableau.t) (st : Loop.state) : Prop := {
  ch_first : same_matrix_and_basis (Store.deref (Loop.store st) 0) t0;
  ch_links : forall r, r < Loop.currentTableau st ->
               pivots_to (Store.deref (Loop.store st) r)
                         (Store.deref (Loop.store st) (r + 1));
  ch_flags : flags_justified (current st)
}.

(** The one name an assignment does not store as a key: on a plain object
    [solution["__proto__"] = 0] does nothing. *)
Definition notAKey : string := "__proto__".

(** A state with its log emptied. *)
Definition unlogged (st : Loop.state) : Loop.state :=
  Loop.make (Loop.store st) (Loop.iterations st) [] (Loop.currentTableau st)
    (Loop.iterationCount st).

(** The steps one round of the loop appends to the log. *)
Definition logged (st : Loop.state) : list SimplexStep.t :=
  Loop.steps (fst (Solve.body (unlogged st))).

(** The steps of a log that carry a tableau, as [(action, tableau)]. *)
Definition carried (steps : list SimplexStep.t) : list (string * ref) :=
  flat_map (fun s => match SimplexStep.tableau s with
                     | Some r => [(SimplexStep.action s, r)]
                     | None => []
                     end) steps.

(** The steps that carry a tableau, while the loop runs. *)
Definition log_carries (st : Loop.state) : Prop :=
  map snd (carried (Loop.steps st)) = Loop.iterations st /\
  map fst (carried (Loop.steps st))
  = "initial_tableau"%string
    :: repeat "pivot"%string (length (Loop.iterations st) - 1).

(** The dimensions of a tableau and the fields that repeat parts of the
    matrix: [objectiveRow] is the last row, [rhsColumn] the last column. *)
Definition consistent (m : nat) (widths : list nat) (nNonBasic : nat)
    (x : SimplexTableau.t) : Prop :=
  length (tableau x) = m + 1 /\
  map (@length float) (tableau x) = widths /\
  objectiveRow x = nth m (tableau x) [] /\
  rhsColumn x = map lastEntry (tableau x) /\
  length (basicVariables x) = m /\
  length (nonBasicVariables x) = nNonBasic.

(** A tableau that records a pivot the rules allow: a column among those
    the entering rule scans, with a negative entry of the objective row,
    and a constraint row with a strictly positive entry in that column and
    a ratio below [+Infinity]. *)
Definition sound_pivot (x : SimplexTableau.t) : Prop :=
  exists col row,
    pivotColumn x = Some col /\
    pivotRow x = Some row /\
    col < length (nonBasicVariables x) /\
    row < length (basicVariables x) /\
    (JS.get (objectiveRow x) col <? 0)%float = true /\
    JS.gtb (entry x col row) 0 = true /\
    (ratio x col row <? infinity)%float = true.

(** The actions of the steps one pivot logs, and the ways a log can end. *)
Definition pivotActions : list string :=
  ["entering_variable"; "leaving_variable"; "pivot"]%string.

Definition openingActions : list string :=
  ["convert_standard"; "initial_tableau"]%string.

Definition unboundedActions : list string :=
  ["entering_variable"; "unbounded"]%string.

(** The log of a run that has made [pivots] pivots, with what it ends on. *)
Definition logOf (pivots : nat) (ending : list string) : list string :=
  openingActions ++ concat (repeat pivotActions pivots) ++ ending.

(** While the loop runs the log ends on [optimal] exactly when the current
    tableau is flagged so. *)
Definition log_grammar (st : Loop.state) : Prop :=
  map SimplexStep.action (Loop.steps st)
  = logOf (length (Loop.iterations st) - 1)
      (if isOptimal (current st) then ["optimal"%string] else []).

(** The pivot a tableau records when [pivotOperation] has made it from
    [prev], or when it is the initial one. *)
Definition inherited (prev : option SimplexTableau.t) : option nat * option nat :=
  match prev with
  | None => (None, None)
  | Some p => (pivotRow p, pivotColumn p)
  end.

(** The tableau before the last in a list. *)
Definition beforeLast (l : list SimplexTableau.t) : option SimplexTableau.t :=
  match length l with
  | S (S k) => nth_error l k
  | _ => None
  end.

(** The tableau before the current one in the store. *)
Definition previous (st : Loop.state) : option SimplexTableau.t :=
  match Loop.currentTableau st with
  | O => None
  | S r => Some (Store.deref (Loop.store st) r)
  end.

(** What the current tableau records while nothing has been chosen on it. *)
Definition untouched (st : Loop.state) : Prop :=
  enteringVariable (current st) = None /\
  leavingVariable (current st) = None /\
  (pivotRow (current st), pivotColumn (current st))
  = inherited (previous st).

(** ** Order facts on binary64 *)

Ltac sf_cases :=
  repeat match goal with s : bool |- _ => destruct s end;
  simpl; try discriminate; try reflexivity.

Ltac sf_compare :=
  repeat match goal with
         | |- context [Z.compare ?a ?b] => destruct (Z.compare_spec a b)
         | H : context [Z.compare ?a ?b] |- _ => destruct (Z.compare_spec a b)
         | |- context [Pos.compare_cont Eq ?a ?b] =>
             change (Pos.compare_cont Eq a b) with (Pos.compare a b);
             destruct (Pos.compare_spec a b)
         | H : context [Pos.compare_cont Eq ?a ?b] |- _ =>
             change (Pos.compare_cont Eq a b) with (Pos.compare a b) in H;
             destruct (Pos.compare_spec a b)
         end;
  simpl in *; try discriminate; try reflexivity; try lia.

Lemma SFltb_trans (a b c : spec_float) :
  SFltb a b = true -> SFltb b c = true -> SFltb a c = true.
Proof.
  unfold SFltb.
  destruct a as [sa|sa| |sa ma ea], b as [sb|sb| |sb mb eb], c as [sc|sc| |sc mc ec];
    simpl; try discriminate; try reflexivity; sf_cases.
  all: intros H1 H2; sf_compare.
Qed.

Lemma SFltb_irrefl (a : spec_float) : SFltb a a = false.
Proof.
  unfold SFltb. destruct a as [s|s| |s m e]; simpl; sf_cases.
  all: rewrite Z.compare_refl; change (Pos.compare_cont Eq m m) with (Pos.compare m m);
    rewrite Pos.compare_refl; reflexivity.
Qed.

Lemma SFeqb_ltb (a b c : spec_float) :
  SFeqb a b = true -> SFltb b c = true -> SFltb a c = true.
Proof.
  unfold SFltb, SFeqb.
  destruct a as [sa|sa| |sa ma ea], b as [sb|sb| |sb mb eb], c as [sc|sc| |sc mc ec];
    simpl; try discriminate; try reflexivity; sf_cases.
  all: intros H1 H2; sf_compare.
Qed.

Lemma ltb_trans (a b c : float) :
  (a <? b)%float = true -> (b <? c)%float = true -> (a <? c)%float = true.
Proof. rewrite !ltb_spec. apply SFltb_trans. Qed.

Lemma ltb_irrefl (a : float) : (a <? a)%float = false.
Proof. rewrite ltb_spec. apply SFltb_irrefl. Qed.

Lemma eqb_ltb (a b c : float) :
  (a =? b)%float = true -> (b <? c)%float = true -> (a <? c)%float = true.
Proof. rewrite eqb_spec, !ltb_spec. apply SFeqb_ltb. Qed.

(** ** Exact binary64 identities *)

Lemma Prim2SF_finite (x : float) :
  is_finite x = true ->
  (exists s, Prim2SF x = S754_zero s) \/
  (exists s m e, Prim2SF x = S754_finite s m e /\ bounded prec emax m e = true).
Proof.
  unfold is_finite, is_nan, is_infinity.
  rewrite !eqb_spec, abs_spec.
  pose proof (Prim2SF_valid x) as Hv.
  destruct (Prim2SF x) as [s|s| |s m e]; simpl in *; eauto; try discriminate.
  - destruct s; discriminate.
  - right. eauto.
Qed.

Lemma sub_self (x : float) : is_finite x = true -> (x - x)%float = 0%float.
Proof.
  intros H. apply Prim2SF_inj. rewrite sub_spec.
  destruct (Prim2SF_finite x H) as [(s & ->) | (s & m & e & -> & _)].
  - destruct s; reflexivity.
  - unfold SF64sub, SFsub. rewrite Z.sub_diag. reflexivity.
Qed.

Lemma div_self (x : float) :
  is_finite x = true -> is_zero x = false -> (x / x)%float = 1%float.
Proof.
  intros H Hz. apply Prim2SF_inj. rewrite div_spec.
  destruct (Prim2SF_finite x H) as [(s & E) | (s & m & e & E & _)].
  - unfold is_zero in Hz. rewrite eqb_spec, E in Hz. destruct s; discriminate.
  - rewrite E. unfold SF64div, SFdiv, SFdiv_core_binary.
    rewrite !Z.sub_diag.
    change (fexp prec emax 0) with (-53)%Z.
    change (Z.min (-53) 0) with (-53)%Z.
    change (0 - -53)%Z with 53%Z.
    cbv beta iota zeta.
    assert (Hd : Z.div_eucl (Z.shiftl (Z.pos m) 53) (Z.pos m) = ((2 ^ 53)%Z, 0%Z)).
    { rewrite Z.shiftl_mul_pow2 by lia.
      pose proof (Z.div_eucl_eq (Z.pos m * 2 ^ 53) (Z.pos m) ltac:(lia)) as Heq.
      pose proof (Z.mod_pos_bound (Z.pos m * 2 ^ 53) (Z.pos m) ltac:(lia)) as Hb.
      unfold Z.modulo in Hb.
      destruct (Z.div_eucl (Z.pos m * 2 ^ 53) (Z.pos m)) as [q r].
      assert (q = 2 ^ 53)%Z by nia. subst q.
      f_equal. lia. }
    rewrite Hd.
    assert (Hl : new_location (Z.pos m) 0 = loc_Exact).
    { unfold new_location. destruct (Z.even (Z.pos m)); reflexivity. }
    rewrite Hl. destruct s; reflexivity.
Qed.

Lemma digits2_pos_xO p : digits2_pos (xO p) = Pos.succ (digits2_pos p).
Proof. reflexivity. Qed.

Lemma mul_one (x : float) : (x * 1)%float = x.
Proof.
  apply Prim2SF_inj. rewrite mul_spec.
  pose proof (Prim2SF_valid x) as Hv.
  change (Prim2SF 1) with (S754_finite false 4503599627370496 (-52)).
  destruct (Prim2SF x) as [s|s| |s m e]; simpl in Hv; try reflexivity.
  - destruct s; reflexivity.
  - destruct s; reflexivity.
  - unfold SF64mul, SFmul.
    rewrite Pos.mul_comm. 
    apply andb_prop in Hv as [Hc Hb]. unfold canonical_mantissa in Hc.
    apply Z.eqb_eq in Hc. apply Z.leb_le in Hb.
    cbn [Pos.mul].
    unfold binary_round_aux, shr_fexp at 1.
    cbn [Zdigits2 digits2_pos].
    rewrite !Pos2Z.inj_succ.
    match type of Hc with fexp _ _ ?t = _ =>
      match goal with |- context [fexp prec emax ?a] =>
        replace a with t by lia end end.
    rewrite Hc.
    replace (e - (e + -52))%Z with 52%Z by lia.
    cbn [shr iter_pos shr_1 shr_record_of_loc orb].
    cbn [shr_m loc_of_shr_record shr_r shr_s round_nearest_even].
    unfold shr_fexp. cbn [Zdigits2 shr_record_of_loc].
    replace (e + -52 + 52)%Z with e by lia.
    rewrite Hc, Z.sub_diag. cbn [shr shr_m].
    change (emax - prec)%Z with 971%Z in Hb |- *.
    apply Z.leb_le in Hb. rewrite Hb. rewrite xorb_false_r. reflexivity.
Qed.

(** ** Scans that keep the least value seen and where it was seen *)

Section Scan.

Variable ok : nat -> bool.
Variable val : nat -> float.
Variable step : float * Z -> nat -> float * Z.
Variable init : float.

Hypothesis step_eq : forall m r j,
  step (m, r) j =
  if ok j && (val j <? m)%float then (val j, Z.of_nat j) else (m, r).

Lemma scanned_step n acc :
  scanned ok val init n acc -> scanned ok val init (S n) (step acc n).
Proof.
  destruct acc as [m r]. rewrite step_eq.
  intros [(Hr & Hm & Hnone) | (k & Hr & Hm & Hk & Hok & Hlt & Hmin & Hfirst)];
    simpl in *; subst m.
  - destruct (ok n) eqn:On; simpl.
    + destruct (val n <? init)%float eqn:L.
      * right. exists n. simpl. repeat split; auto.
        -- intros j Hj Oj. apply Nat.lt_succ_r, Nat.le_lteq in Hj as [Hj | ->].
           ++ destruct (val j <? val n)%float eqn:E; auto.
              rewrite <- (Hnone j Hj Oj). symmetry. eapply ltb_trans; eauto.
           ++ apply ltb_irrefl.
        -- intros j Hj Oj. destruct (val j =? val n)%float eqn:E; auto.
           rewrite <- (Hnone j Hj Oj). symmetry. eapply eqb_ltb; eauto.
      * left. simpl. repeat split; auto.
        intros j Hj Oj. apply Nat.lt_succ_r, Nat.le_lteq in Hj as [Hj | ->]; auto.
    + left. simpl. repeat split; auto.
      intros j Hj Oj. apply Nat.lt_succ_r, Nat.le_lteq in Hj as [Hj | ->]; auto.
      congruence.
  - destruct (ok n) eqn:On; simpl.
    + destruct (val n <? val k)%float eqn:L.
      * right. exists n. simpl. repeat split; auto.
        -- eapply ltb_trans; eauto.
        -- intros j Hj Oj. apply Nat.lt_succ_r, Nat.le_lteq in Hj as [Hj | ->].
           ++ destruct (val j <? val n)%float eqn:E; auto.
              rewrite <- (Hmin j Hj Oj). symmetry. eapply ltb_trans; eauto.
           ++ apply ltb_irrefl.
        -- intros j Hj Oj. destruct (val j =? val n)%float eqn:E; auto.
           rewrite <- (Hmin j Hj Oj). symmetry. eapply eqb_ltb; eauto.
      * right. exists k. simpl. repeat split; auto.
        intros j Hj Oj. apply Nat.lt_succ_r, Nat.le_lteq in Hj as [Hj | ->]; auto.
    + right. exists k. simpl. repeat split; auto.
      intros j Hj Oj. apply Nat.lt_succ_r, Nat.le_lteq in Hj as [Hj | ->]; auto.
      congruence.
Qed.

Lemma scanned_fold n :
  scanned ok val init n (fold_left step (seq 0 n) (init, (-1)%Z)).
Proof.
  induction n as [|n IH].
  - left. simpl. repeat split; auto. intros j Hj. lia.
  - rewrite seq_S, fold_left_app. simpl. apply scanned_step, IH.
Qed.

End Scan.


(** The entries of the objective row that [findEnteringVariable] looks at,
    and the rows and ratios that [findLeavingVariable] looks at. *)
Lemma findEnteringVariable_scanned (t : SimplexTableau.t) :
  exists m,
    scanned (fun _ => true) (JS.get (objectiveRow t)) 0%float
      (length (nonBasicVariables t)) (m, SimplexSolver.findEnteringVariable t).
Proof.
  unfold SimplexSolver.findEnteringVariable.
  pose proof (scanned_fold (fun _ => true) (JS.get (objectiveRow t))
                (SimplexSolver.enteringStep (objectiveRow t)) 0%float
                (fun m r j => eq_refl) (length (nonBasicVariables t))) as H.
  destruct (fold_left _ _ _) as [m r]. exists m. exact H.
Qed.

Lemma findLeavingVariable_scanned (t : SimplexTableau.t) (col : nat) :
  exists m,
    scanned (fun i => JS.gtb (entry t col i) 0) (ratio t col) infinity
      (length (rhsColumn t) - 1) (m, SimplexSolver.findLeavingVariable t col).
Proof.
  unfold SimplexSolver.findLeavingVariable.
  assert (Hstep : forall m r j,
            SimplexSolver.leavingStep t col (m, r) j =
            if JS.gtb (entry t col j) 0 && (ratio t col j <? m)%float
            then (ratio t col j, Z.of_nat j) else (m, r)).
  { intros m r j. unfold SimplexSolver.leavingStep, ratio, entry.
    destruct (JS.gtb _ 0); simpl; reflexivity. }
  pose proof (scanned_fold _ _ _ infinity Hstep (length (rhsColumn t) - 1)) as H.
  destruct (fold_left _ _ _) as [m r]. exists m. exact H.
Qed.

Lemma findEnteringVariable_range (t : SimplexTableau.t) :
  SimplexSolver.findEnteringVariable t = (-1)%Z \/
  exists k, SimplexSolver.findEnteringVariable t = Z.of_nat k /\
            k < length (nonBasicVariables t).
Proof.
  destruct (findEnteringVariable_scanned t) as (m & [(H & _) | (k & H & _ & Hk & _)]);
    simpl in H; eauto.
Qed.

Lemma findLeavingVariable_range (t : SimplexTableau.t) (col : nat) :
  SimplexSolver.findLeavingVariable t col = (-1)%Z \/
  exists k, SimplexSolver.findLeavingVariable t col = Z.of_nat k /\
            k < length (rhsColumn t) - 1.
Proof.
  destruct (findLeavingVariable_scanned t col) as (m & [(H & _) | (k & H & _ & Hk & _)]);
    simpl in H; eauto.
Qed.

(** ** The store *)

Lemma update_length r f (h : Store.t) : length (Store.update r f h) = length h.
Proof.
  revert r; induction h as [|x h IH]; intros [|r]; simpl; auto.
Qed.

Lemma deref_update_eq r f (h : Store.t) :
  r < length h -> Store.deref (Store.update r f h) r = f (Store.deref h r).
Proof.
  unfold Store.deref.
  revert r; induction h as [|x h IH]; intros [|r]; simpl; intros; auto; try lia.
  apply IH; lia.
Qed.

Lemma deref_update_neq r r' f (h : Store.t) :
  r <> r' -> Store.deref (Store.update r f h) r' = Store.deref h r'.
Proof.
  unfold Store.deref.
  revert r r'; induction h as [|x h IH]; intros [|r] [|r']; simpl; intros; auto; try lia.
Qed.

Lemma update_app_l r f (h h' : Store.t) :
  r < length h -> Store.update r f (h ++ h') = Store.update r f h ++ h'.
Proof.
  revert r; induction h as [|x h IH]; intros [|r]; simpl; intros; auto; try lia.
  f_equal. apply IH. lia.
Qed.

Lemma update_app_last f (h : Store.t) x :
  Store.update (length h) f (h ++ [x]) = h ++ [f x].
Proof. induction h as [|y h IH]; simpl; auto. f_equal; auto. Qed.

Lemma deref_app_l (h h' : Store.t) r :
  r < length h -> Store.deref (h ++ h') r = Store.deref h r.
Proof. intros. unfold Store.deref. apply app_nth1. auto. Qed.

Lemma deref_app_last (h : Store.t) x : Store.deref (h ++ [x]) (length h) = x.
Proof. unfold Store.deref. rewrite app_nth2, Nat.sub_diag; auto. Qed.


Lemma update_update r f g (h : Store.t) :
  Store.update r f (Store.update r g h) = Store.update r (fun x => f (g x)) h.
Proof.
  revert r; induction h as [|x h IH]; intros [|r]; simpl; auto. f_equal; auto.
Qed.

Lemma body_store st :
  Loop.currentTableau st < length (Loop.store st) ->
  Loop.store (fst (Solve.body st)) =
  match way_of (current st) with
  | Stop_optimal =>
      Store.update (Loop.currentTableau st) (set_isOptimal true) (Loop.store st)
  | Stop_unbounded col =>
      Store.update (Loop.currentTableau st)
        (fun x => set_isUnbounded true (noteEntering col x)) (Loop.store st)
  | Pivot col row =>
      Store.update (Loop.currentTableau st)
        (fun x => noteLeaving row (noteEntering col x)) (Loop.store st)
      ++ [finishNew (Loop.iterationCount st + 1)
            (SimplexSolver.pivotOperation (current st) row col)]
  end.
Proof.
  intros Hcur. unfold Solve.body, way_of, current. cbv zeta.
  set (t := Store.deref (Loop.store st) (Loop.currentTableau st)).
  set (e := SimplexSolver.findEnteringVariable t).
  destruct (e =? -1)%Z eqn:E; [reflexivity|].
  rewrite !update_update.
  rewrite !deref_update_eq by (rewrite ?update_length; auto).
  fold t.
  change (SimplexSolver.findLeavingVariable
            (set_pivotColumn (Some (Z.to_nat e))
               (set_enteringVariable (nth_error (nonBasicVariables t) (Z.to_nat e)) t))
            (Z.to_nat e))
    with (SimplexSolver.findLeavingVariable t (Z.to_nat e)).
  set (l := SimplexSolver.findLeavingVariable t (Z.to_nat e)).
  destruct (l =? -1)%Z eqn:L; [reflexivity|].
  unfold Store.alloc. rewrite !update_length.
  set (h1 := Store.update _ _ (Loop.store st)).
  assert (Hl : length h1 = length (Loop.store st)) by apply update_length.
  rewrite <- Hl, update_app_last, deref_app_last.
  unfold finishNew.
  change (SimplexSolver.pivotOperation _ (Z.to_nat l) (Z.to_nat e))
    with (SimplexSolver.pivotOperation t (Z.to_nat l) (Z.to_nat e)).
  destruct (SimplexSolver.isOptimal _); simpl; [|reflexivity].
  rewrite update_app_last. reflexivity.
Qed.

Lemma body_rest st :
  let st' := fst (Solve.body st) in
  Loop.iterationCount st' = Loop.iterationCount st + 1 /\
  match way_of (current st) with
  | Pivot _ _ =>
      Loop.iterations st' = Loop.iterations st ++ [length (Loop.store st)] /\
      Loop.currentTableau st' = length (Loop.store st) /\
      snd (Solve.body st) = false
  | _ =>
      Loop.iterations st' = Loop.iterations st /\
      Loop.currentTableau st' = Loop.currentTableau st /\
      snd (Solve.body st) = true
  end.
Proof.
  unfold Solve.body, way_of, current. cbv zeta.
  set (t := Store.deref (Loop.store st) (Loop.currentTableau st)).
  set (e := SimplexSolver.findEnteringVariable t).
  destruct (e =? -1)%Z eqn:E; [simpl; auto|].
  set (l1 := SimplexSolver.findLeavingVariable _ _).
  assert (Hl : l1 = SimplexSolver.findLeavingVariable t (Z.to_nat e)).
  { subst l1.
    destruct (Nat.lt_ge_cases (Loop.currentTableau st) (length (Loop.store st))).
    - rewrite !deref_update_eq by (rewrite ?update_length; auto). reflexivity.
    - unfold Store.deref. rewrite !nth_overflow by (rewrite ?update_length; auto).
      subst t. unfold Store.deref. rewrite nth_overflow by auto. reflexivity. }
  rewrite Hl. clear Hl.
  set (l := SimplexSolver.findLeavingVariable t (Z.to_nat e)).
  destruct (l =? -1)%Z eqn:L; [simpl; auto|].
  unfold Store.alloc. rewrite !update_length.
  destruct (SimplexSolver.isOptimal _); simpl; auto.
Qed.

(** ** The loop *)

Lemma body_count st :
  Loop.iterationCount (fst (Solve.body st)) = Loop.iterationCount st + 1.
Proof. apply body_rest. Qed.

Lemma guard_count st :
  Solve.guard st = true -> Loop.iterationCount st < SimplexSolver.maxIterations.
Proof.
  unfold Solve.guard. intros H. apply andb_prop in H as [_ H].
  apply Nat.ltb_lt in H. exact H.
Qed.

Lemma guard_flags st :
  Solve.guard st = true ->
  isOptimal (current st) = false /\ isUnbounded (current st) = false.
Proof.
  unfold Solve.guard, current. intros H.
  apply andb_prop in H as [H _]. apply andb_prop in H as [H1 H2].
  apply negb_true_iff in H1, H2. auto.
Qed.

Lemma guard_false st :
  Solve.guard st = false ->
  isOptimal (current st) = true \/ isUnbounded (current st) = true \/
  SimplexSolver.maxIterations <= Loop.iterationCount st.
Proof.
  unfold Solve.guard, current. intros H.
  destruct (isOptimal _); auto. destruct (isUnbounded _); auto.
  simpl in H. apply Nat.ltb_ge in H. auto.
Qed.

Lemma loop_unfold fuel st :
  Solve.loop (S fuel) st =
  if Solve.guard st
  then if snd (Solve.body st) then fst (Solve.body st)
       else Solve.loop fuel (fst (Solve.body st))
  else st.
Proof. simpl. destruct (Solve.guard st); auto. destruct (Solve.body st); auto. Qed.

Lemma loop_rule (I Q : Loop.state -> Prop) :
  (forall st, I st -> Solve.guard st = false -> Q st) ->
  (forall st, I st -> Solve.guard st = true -> snd (Solve.body st) = true ->
              Q (fst (Solve.body st))) ->
  (forall st, I st -> Solve.guard st = true -> snd (Solve.body st) = false ->
              I (fst (Solve.body st))) ->
  forall fuel st, I st ->
    SimplexSolver.maxIterations - Loop.iterationCount st <= fuel ->
    Q (Solve.loop fuel st).
Proof.
  intros Hexit Hbreak Hstep. induction fuel as [|fuel IH]; intros st HI Hfuel.
  - simpl. apply Hexit; auto.
    destruct (Solve.guard st) eqn:G; auto. apply guard_count in G. lia.
  - rewrite loop_unfold. destruct (Solve.guard st) eqn:G; [|auto].
    destruct (snd (Solve.body st)) eqn:B; [auto|].
    apply IH; auto. rewrite body_count. lia.
Qed.


(** ** Shapes *)

Lemma mapi_from_length {A B} (f : nat -> A -> B) k l :
  length (JS.mapi_from f k l) = length l.
Proof. revert k; induction l; simpl; auto. Qed.

Lemma mapi_length {A B} (f : nat -> A -> B) l : length (JS.mapi f l) = length l.
Proof. apply mapi_from_length. Qed.

Lemma set_length {A} i (v : A) l : length (JS.set i v l) = length l.
Proof. revert i; induction l; intros [|i]; simpl; auto. Qed.

Lemma mapi_from_nth {A B} (f : nat -> A -> B) k l i dA dB :
  i < length l -> nth i (JS.mapi_from f k l) dB = f (k + i) (nth i l dA).
Proof.
  revert k i; induction l as [|x l IH]; intros k [|i]; simpl; intros; try lia.
  - f_equal. lia.
  - rewrite IH by lia. f_equal. lia.
Qed.

Lemma mapi_nth {A B} (f : nat -> A -> B) l i dA dB :
  i < length l -> nth i (JS.mapi f l) dB = f i (nth i l dA).
Proof. intros. unfold JS.mapi. rewrite mapi_from_nth with (dA := dA); auto. Qed.

Lemma set_nth_eq {A} i (v : A) l d : i < length l -> nth i (JS.set i v l) d = v.
Proof. revert i; induction l; intros [|i]; simpl; intros; auto; try lia. apply IHl; lia. Qed.

Lemma set_nth_neq {A} i j (v : A) l d : i <> j -> nth j (JS.set i v l) d = nth j l d.
Proof. revert i j; induction l; intros [|i] [|j]; simpl; intros; auto; try lia. Qed.

Lemma createInitialTableau_shape o A b mx vars :
  shape (SimplexSolver.createInitialTableau
           (SimplexSolver.convertToStandardForm o A b mx vars)).
Proof.
  unfold shape. simpl.
  rewrite length_map, !length_app, !mapi_length, length_map, length_seq. simpl. lia.
Qed.

Lemma pivotOperation_shape t r c :
  shape t -> shape (SimplexSolver.pivotOperation t r c).
Proof.
  unfold shape. simpl. intros [H1 H2].
  rewrite length_map, !mapi_length, !set_length. auto.
Qed.

Lemma way_of_pivot t col row :
  way_of t = Pivot col row ->
  SimplexSolver.findEnteringVariable t = Z.of_nat col /\
  SimplexSolver.findLeavingVariable t col = Z.of_nat row /\
  col < length (nonBasicVariables t) /\ row < length (rhsColumn t) - 1.
Proof.
  unfold way_of.
  destruct (findEnteringVariable_range t) as [E | (k & E & Hk)]; rewrite E;
    [discriminate|].
  replace (Z.of_nat k =? -1)%Z with false by (symmetry; apply Z.eqb_neq; lia).
  rewrite Nat2Z.id.
  destruct (findLeavingVariable_range t k) as [L | (k' & L & Hk')]; rewrite L;
    [discriminate|].
  replace (Z.of_nat k' =? -1)%Z with false by (symmetry; apply Z.eqb_neq; lia).
  rewrite Nat2Z.id. intros [= <- <-]. auto.
Qed.

Lemma way_of_optimal t :
  way_of t = Stop_optimal <-> SimplexSolver.findEnteringVariable t = (-1)%Z.
Proof.
  unfold way_of. destruct (_ =? -1)%Z eqn:E.
  - apply Z.eqb_eq in E. tauto.
  - apply Z.eqb_neq in E. split; [|tauto].
    destruct (_ =? -1)%Z; discriminate.
Qed.

Lemma way_of_unbounded t col :
  way_of t = Stop_unbounded col ->
  SimplexSolver.findEnteringVariable t = Z.of_nat col /\
  col < length (nonBasicVariables t) /\
  SimplexSolver.findLeavingVariable t col = (-1)%Z.
Proof.
  unfold way_of.
  destruct (findEnteringVariable_range t) as [E | (k & E & Hk)]; rewrite E;
    [discriminate|].
  replace (Z.of_nat k =? -1)%Z with false by (symmetry; apply Z.eqb_neq; lia).
  rewrite Nat2Z.id.
  destruct (_ =? -1)%Z eqn:L; [|discriminate].
  apply Z.eqb_eq in L. intros [= <-]. auto.
Qed.

(** ** [pivotOperation] writes to its own copies only *)

Lemma set_app_r {A} (l1 l2 : list A) i v :
  JS.set (length l1 + i) v (l1 ++ l2) = l1 ++ JS.set i v l2.
Proof. induction l1 as [|x l1 IH]; simpl; [reflexivity|]. f_equal. exact IH. Qed.

Lemma read_app_l (H R : RowHeap.heap) r :
  r < length H -> RowHeap.read (H ++ R) r = RowHeap.read H r.
Proof. intros. unfold RowHeap.read. apply app_nth1. auto. Qed.

Lemma read_app_r (H R : RowHeap.heap) i :
  RowHeap.read (H ++ R) (length H + i) = nth i R [].
Proof.
  unfold RowHeap.read. rewrite app_nth2 by lia. f_equal. lia.
Qed.

Lemma copyRows_eq (H : RowHeap.heap) rows :
  (forall r, In r rows -> r < length H) ->
  RowHeap.copyRows H rows =
  (H ++ map (RowHeap.read H) rows, seq (length H) (length rows)).
Proof.
  revert H. induction rows as [|r rows IH]; intros H Hv; simpl.
  - rewrite app_nil_r. reflexivity.
  - rewrite IH.
    + rewrite length_app, Nat.add_1_r, <- app_assoc. simpl.
      f_equal. f_equal. f_equal. apply map_ext_in. intros a Ha.
      apply read_app_l. apply Hv. right. exact Ha.
    + intros a Ha. rewrite length_app. simpl. specialize (Hv a (or_intror Ha)). lia.
Qed.

Lemma set_set {A} i (v w : A) l : JS.set i v (JS.set i w l) = JS.set i v l.
Proof. revert i; induction l; intros [|i]; simpl; auto. f_equal; auto. Qed.

Lemma set_middle {A} (l1 l2 : list A) x v :
  JS.set (length l1) v (l1 ++ x :: l2) = l1 ++ v :: l2.
Proof. induction l1; simpl; auto. f_equal; auto. Qed.

Lemma mapi_from_app {A B} (f : nat -> A -> B) k l1 l2 :
  JS.mapi_from f k (l1 ++ l2) =
  JS.mapi_from f k l1 ++ JS.mapi_from f (k + length l1) l2.
Proof.
  revert k. induction l1 as [|x l1 IH]; intros k; simpl.
  - rewrite Nat.add_0_r. reflexivity.
  - f_equal. rewrite IH. f_equal. f_equal. lia.
Qed.

Lemma rowLoop_prefix F i R k :
  i < length R -> k <= length (nth i R []) ->
  rowLoop F i R k =
  JS.set i (JS.mapi F (firstn k (nth i R [])) ++ skipn k (nth i R [])) R.
Proof.
  intros Hi. induction k as [|k IH]; intros Hk.
  - unfold rowLoop. simpl. symmetry.
    clear Hk. revert i Hi. induction R as [|x R IHR]; intros [|i] Hi; simpl in *;
      try lia; auto. f_equal. apply IHR. lia.
  - unfold rowLoop in *. rewrite seq_S, fold_left_app, IH by lia.
    cbn [fold_left Nat.add].
    rewrite set_nth_eq by auto. rewrite set_set.
    set (row := nth i R []) in *.
    assert (Hlen : length (JS.mapi F (firstn k row)) = k).
    { rewrite mapi_length, length_firstn. lia. }
    assert (Hsk : skipn k row = nth k row nan :: skipn (S k) row).
    { clear -Hk. revert k Hk. induction row as [|x row IH]; intros [|k] Hk; simpl in *;
        try lia; auto. apply IH. lia. }
    f_equal. rewrite Hsk.
    unfold JS.get at 1. rewrite app_nth2 by lia. rewrite Hlen, Nat.sub_diag.
    cbn [nth].
    rewrite <- Hlen at 1. rewrite set_middle.
    assert (Hfn : firstn (S k) row = firstn k row ++ [nth k row nan]).
    { clear -Hk. revert k Hk. induction row as [|x row IH]; intros [|k] Hk; simpl in *;
        try lia; auto. f_equal. apply IH. lia. }
    rewrite Hfn. unfold JS.mapi. rewrite mapi_from_app. cbn [JS.mapi_from Nat.add].
    rewrite length_firstn, Nat.min_l by lia.
    rewrite <- app_assoc. reflexivity.
Qed.

Lemma rowLoop_all F i R :
  i < length R ->
  rowLoop F i R (length (nth i R [])) = JS.set i (JS.mapi F (nth i R [])) R.
Proof.
  intros Hi. rewrite rowLoop_prefix by auto.
  rewrite firstn_all, skipn_all, app_nil_r. reflexivity.
Qed.

Lemma fold_lift {X} (stepH : RowHeap.heap -> X -> RowHeap.heap)
    (stepR : list (list float) -> X -> list (list float)) (H : RowHeap.heap) :
  (forall R x, stepH (H ++ R) x = H ++ stepR R x) ->
  forall l R, fold_left stepH l (H ++ R) = H ++ fold_left stepR l R.
Proof.
  intros Hstep l. induction l as [|x l IH]; intros R; simpl; [reflexivity|].
  rewrite Hstep. apply IH.
Qed.

Lemma write_app_r (H R : RowHeap.heap) i j v :
  RowHeap.write (H ++ R) (length H + i) j v =
  H ++ JS.set i (JS.set j v (nth i R [])) R.
Proof. unfold RowHeap.write. rewrite read_app_r. apply set_app_r. Qed.

Lemma mapi_from_map (f : float -> float) k l :
  JS.mapi_from (fun _ x => f x) k l = map f l.
Proof. revert k. induction l; intros k; simpl; auto. f_equal. auto. Qed.

(** The first loop, on the rows after the heap [H]. *)
Lemma normalize_eq (H R : RowHeap.heap) i p :
  i < length R ->
  RowHeap.normalize (H ++ R) (length H + i) p =
  H ++ JS.set i (map (fun x => x / p)%float (nth i R [])) R.
Proof.
  intros Hi. unfold RowHeap.normalize. rewrite read_app_r.
  rewrite fold_lift
    with (stepR := fun R j => JS.set i (JS.set j ((fun _ x => x / p)%float j
                                                   (JS.get (nth i R []) j))
                                          (nth i R [])) R).
  - f_equal. fold (rowLoop (fun _ x => x / p)%float i R (length (nth i R []))).
    rewrite rowLoop_all by auto. unfold JS.mapi. rewrite mapi_from_map. reflexivity.
  - intros R' j. rewrite read_app_r. apply write_app_r.
Qed.

Lemma fold_same_pivot_row (i pr : nat) (m : float) (P : list float) l :
  i <> pr ->
  forall R, nth pr R [] = P ->
  fold_left (fun R j =>
               JS.set i (JS.set j (JS.get (nth i R []) j - m * JS.get (nth pr R []) j)%float
                           (nth i R [])) R) l R =
  fold_left (fun R j =>
               JS.set i (JS.set j ((fun j x => x - m * JS.get P j)%float j
                                     (JS.get (nth i R []) j))
                           (nth i R [])) R) l R.
Proof.
  intros Hne. induction l as [|j l IH]; intros R HP; simpl; [reflexivity|].
  rewrite HP. apply IH. rewrite set_nth_neq by auto. exact HP.
Qed.

(** The inner loop of the second one, on the rows after the heap [H]. *)
Lemma eliminateRow_eq (H R : RowHeap.heap) pr i m :
  i < length R -> i <> pr ->
  RowHeap.eliminateRow (H ++ R) (length H + pr) (length H + i) m =
  H ++ JS.set i (JS.mapi (fun j x => x - m * JS.get (nth pr R []) j)%float
                         (nth i R [])) R.
Proof.
  intros Hi Hne. unfold RowHeap.eliminateRow. rewrite read_app_r.
  rewrite fold_lift
    with (stepR := fun R j =>
            JS.set i (JS.set j (JS.get (nth i R []) j - m * JS.get (nth pr R []) j)%float
                        (nth i R [])) R).
  - f_equal. rewrite fold_same_pivot_row with (P := nth pr R []) by auto.
    fold (rowLoop (fun j x => x - m * JS.get (nth pr R []) j)%float i R
            (length (nth i R []))).
    apply rowLoop_all. exact Hi.
  - intros R' j. rewrite !read_app_r. apply write_app_r.
Qed.

Lemma set_nth_self {A} i (l : list A) d : JS.set i (nth i l d) l = l.
Proof. revert i; induction l; intros [|i]; simpl; auto. f_equal; auto. Qed.

Lemma firstn_S_nth {A} k (l : list A) d :
  k < length l -> firstn (S k) l = firstn k l ++ [nth k l d].
Proof.
  revert k. induction l as [|x l IH]; intros [|k] Hk; simpl in *; try lia; auto.
  f_equal. apply IH. lia.
Qed.

Lemma skipn_nth {A} k (l : list A) d :
  k < length l -> skipn k l = nth k l d :: skipn (S k) l.
Proof.
  revert k. induction l as [|x l IH]; intros [|k] Hk; simpl in *; try lia; auto.
  apply IH. lia.
Qed.

Lemma mapi_snoc {A B} (f : nat -> A -> B) l x :
  JS.mapi f (l ++ [x]) = JS.mapi f l ++ [f (length l) x].
Proof. unfold JS.mapi. rewrite mapi_from_app. reflexivity. Qed.

Lemma outer_prefix (R : list (list float)) pr pc k :
  pr < length R -> k <= length R ->
  fold_left (fun R i =>
               if Nat.eqb i pr then R
               else JS.set i (JS.mapi (fun j x => x - JS.get (nth i R []) pc
                                                      * JS.get (nth pr R []) j)%float
                                      (nth i R [])) R)
            (seq 0 k) R =
  JS.mapi (eliminated pr pc (nth pr R [])) (firstn k R) ++ skipn k R.
Proof.
  intros Hpr. induction k as [|k IH]; intros Hk; [reflexivity|].
  rewrite seq_S, fold_left_app, IH by lia. cbn [fold_left Nat.add].
  set (P := nth pr R []).
  rewrite (firstn_S_nth k R []) by lia.
  rewrite mapi_snoc, length_firstn, Nat.min_l by lia.
  set (done := JS.mapi (eliminated pr pc P) (firstn k R)).
  assert (Hlen : length done = k).
  { subst done. rewrite mapi_length, length_firstn. lia. }
  rewrite (skipn_nth k R []) by lia.
  rewrite <- app_assoc. cbn [app].
  assert (Hk' : nth k (done ++ nth k R [] :: skipn (S k) R) [] = nth k R []).
  { rewrite app_nth2 by lia. rewrite Hlen, Nat.sub_diag. reflexivity. }
  unfold eliminated at 1.
  destruct (Nat.eqb_spec k pr) as [E | E]; [reflexivity|].
  rewrite Hk'.
  assert (HP : nth pr (done ++ nth k R [] :: skipn (S k) R) [] = P).
  { destruct (Nat.lt_ge_cases pr k) as [Hlt | Hge].
    - rewrite app_nth1 by lia. subst done.
      rewrite mapi_nth with (dA := []) by (rewrite length_firstn; lia).
      unfold eliminated. rewrite Nat.eqb_refl.
      rewrite nth_firstn. replace (pr <? k) with true by (symmetry; apply Nat.ltb_lt; lia).
      reflexivity.
    - rewrite app_nth2 by lia. rewrite Hlen.
      destruct (pr - k) as [|d] eqn:Ed; [lia|]. cbn [nth].
      rewrite nth_skipn. subst P. f_equal. lia. }
  rewrite HP. rewrite <- Hlen at 1. apply set_middle.
Qed.

Lemma mapi_from_ext {A B} (f g : nat -> A -> B) k l :
  (forall i x, f i x = g i x) -> JS.mapi_from f k l = JS.mapi_from g k l.
Proof. intros E. revert k. induction l; intros k; simpl; auto. rewrite E. f_equal. auto. Qed.

Lemma fold_lift_in {X} (stepH : RowHeap.heap -> X -> RowHeap.heap)
    (stepR : list (list float) -> X -> list (list float)) (H : RowHeap.heap)
    (n : nat) (l : list X) :
  (forall R x, In x l -> length R = n ->
     stepH (H ++ R) x = H ++ stepR R x /\ length (stepR R x) = n) ->
  forall R, length R = n -> fold_left stepH l (H ++ R) = H ++ fold_left stepR l R.
Proof.
  induction l as [|x l IH]; intros Hstep R HR; simpl; [reflexivity|].
  destruct (Hstep R x (or_introl eq_refl) HR) as (E & HL).
  rewrite E. apply IH; auto. intros R' y Hy. apply Hstep. right. exact Hy.
Qed.

Lemma map_read_seq (H T : RowHeap.heap) :
  map (RowHeap.read (H ++ T)) (seq (length H) (length T)) = T.
Proof.
  revert H. induction T as [|row T IH]; intros H; [reflexivity|].
  simpl. f_equal.
  - replace (length H) with (length H + 0) by lia. apply read_app_r.
  - replace (H ++ row :: T) with ((H ++ [row]) ++ T) by (rewrite <- app_assoc; reflexivity).
    replace (S (length H)) with (length (H ++ [row])) by (rewrite length_app; simpl; lia).
    apply IH.
Qed.

Lemma pivotRows_refines (pivotRow pivotColumn : nat) :
  pivot_writes_own_copies pivotRow pivotColumn.
Proof.
  intros H rows t Hv Ht Hpr H' rows'.
  set (R := map (RowHeap.read H) rows).
  assert (HlenR : length R = length rows) by apply length_map.
  set (T' := tableau (SimplexSolver.pivotOperation t pivotRow pivotColumn)).
  assert (HlenT : length T' = length rows).
  { subst T'. simpl. rewrite mapi_length, set_length, Ht. exact HlenR. }
  assert (Hpiv : RowHeap.pivotRows H rows pivotRow pivotColumn =
                 (H ++ T', seq (length H) (length rows))).
  { unfold RowHeap.pivotRows. rewrite copyRows_eq by auto. fold R.
    rewrite seq_nth by auto.
    rewrite read_app_r, normalize_eq by lia.
    set (R2 := JS.set pivotRow _ R).
    assert (HlenR2 : length R2 = length rows) by (subst R2; rewrite set_length; auto).
    rewrite length_seq. f_equal.
    rewrite fold_lift_in
      with (n := length rows)
           (stepR := fun R' i =>
              if Nat.eqb i pivotRow then R'
              else JS.set i (JS.mapi (fun j x => x - JS.get (nth i R' []) pivotColumn
                                                     * JS.get (nth pivotRow R' []) j)%float
                                     (nth i R' [])) R'); [|
      |exact HlenR2].
    - f_equal. rewrite <- HlenR2, outer_prefix by lia.
      rewrite firstn_all, skipn_all, app_nil_r.
      subst T'. simpl. rewrite Ht. fold R. fold R2.
      apply mapi_from_ext. intros i row. reflexivity.
    - intros R' i Hi HR'. apply in_seq in Hi.
      destruct (Nat.eqb_spec i pivotRow) as [E | E]; [auto|].
      rewrite seq_nth by lia. rewrite read_app_r.
      rewrite eliminateRow_eq by lia. rewrite set_length. auto. }
  subst H' rows'. rewrite Hpiv. simpl. repeat split.
  - intros r Hr. apply read_app_l. exact Hr.
  - intros r Hr. apply in_seq in Hr. lia.
  - rewrite <- HlenT. apply map_read_seq.
Qed.

Lemma Forall_update (P : SimplexTableau.t -> Prop) r f (h : Store.t) :
  (forall x, P x -> P (f x)) -> Forall P h -> Forall P (Store.update r f h).
Proof.
  intros Hf. revert r. induction h as [|x h IH]; intros [|r] H; simpl; auto;
    inversion H; subst; constructor; auto.
Qed.

Lemma Forall_deref (P : SimplexTableau.t -> Prop) (h : Store.t) r :
  Forall P h -> r < length h -> P (Store.deref h r).
Proof.
  intros H Hr. rewrite Forall_forall in H. apply H. apply nth_In. exact Hr.
Qed.

Lemma at_head_init o A b mx vars : at_head (Solve.init o A b mx vars).
Proof.
  unfold at_head, current. simpl. split; [constructor; simpl|]; auto.
  - constructor; [|constructor]. apply (createInitialTableau_shape o A b mx vars).
  - intros r Hr. lia.
  - repeat split; auto. unfold SimplexSolver.maxIterations. lia.
Qed.

Lemma finishNew_shape n x : shape x -> shape (finishNew n x).
Proof. unfold finishNew. destruct (SimplexSolver.isOptimal _); auto. Qed.

Lemma at_head_step st :
  at_head st -> Solve.guard st = true -> snd (Solve.body st) = false ->
  at_head (fst (Solve.body st)).
Proof.
  intros (W & Hlen & Hcnt & Hunb & Hit) G B.
  destruct W as [Wcur Wit Wsh Wold].
  assert (Hc : Loop.currentTableau st < length (Loop.store st)) by lia.
  pose proof (body_store st Hc) as Hs.
  pose proof (body_rest st) as (Hn & Hr).
  destruct (way_of (current st)) as [|col|col row] eqn:Wy;
    try (destruct Hr as (_ & _ & Hr); congruence).
  destruct Hr as (Hi & Hcur' & _).
  pose proof (guard_count _ G) as Hg.
  pose proof (guard_flags _ G) as [Gopt Gunb].
  unfold at_head, current. rewrite Hs, Hn, Hcur'.
  set (h1 := Store.update _ _ (Loop.store st)).
  assert (Hl1 : length h1 = length (Loop.store st)) by apply update_length.
  split; [constructor|].
  - rewrite Hcur', Hs. fold h1. rewrite length_app, Hl1. simpl. lia.
  - rewrite Hi, Hs. fold h1. rewrite length_app, Hl1, Wit. simpl.
    rewrite Nat.add_1_r, seq_S. reflexivity.
  - rewrite Hs. fold h1. apply Forall_app. split.
    + apply Forall_update; auto.
    + constructor; [|constructor]. apply finishNew_shape, pivotOperation_shape.
      unfold current. apply Forall_deref; auto.
  - rewrite Hs, Hcur'. fold h1. intros r Hr.
    rewrite deref_app_l by lia.
    destruct (Nat.eq_dec r (Loop.currentTableau st)) as [->|Hne].
    + subst h1. rewrite deref_update_eq by auto. split; simpl; auto.
    + subst h1. rewrite deref_update_neq by auto. apply Wold. lia.
  - rewrite length_app, Hl1. simpl.
    rewrite <- Hl1, deref_app_last. unfold finishNew.
    repeat split; try lia; destruct (SimplexSolver.isOptimal _); reflexivity.
Qed.

Lemma wf_update st f h' :
  wf st ->
  h' = Store.update (Loop.currentTableau st) f (Loop.store st) ->
  (forall x, shape x -> shape (f x)) ->
  wf (Loop.make h' (Loop.iterations st) (Loop.steps st) (Loop.currentTableau st)
        (Loop.iterationCount st + 1)).
Proof.
  intros [Wcur Wit Wsh Wold] -> Hf. constructor; simpl.
  - rewrite update_length. auto.
  - rewrite update_length. auto.
  - apply Forall_update; auto.
  - intros r Hr. rewrite deref_update_neq by lia. auto.
Qed.

Lemma wf_ext st st' :
  wf st -> Loop.store st' = Loop.store st ->
  Loop.iterations st' = Loop.iterations st ->
  Loop.currentTableau st' = Loop.currentTableau st -> wf st'.
Proof.
  intros [Wcur Wit Wsh Wold] Hs Hi Hc.
  constructor; rewrite ?Hs, ?Hi, ?Hc; auto.
Qed.

Lemma at_exit_break st :
  at_head st -> Solve.guard st = true -> snd (Solve.body st) = true ->
  at_exit (fst (Solve.body st)).
Proof.
  intros (W & Hlen & Hcnt & Hunb & Hit) G B.
  assert (Hc : Loop.currentTableau st < length (Loop.store st))
    by (destruct W; lia).
  pose proof (body_store st Hc) as Hs.
  pose proof (body_rest st) as (Hn & Hr).
  pose proof (guard_flags _ G) as [Gopt Gunb].
  pose proof (guard_count _ G) as Hg.
  destruct (way_of (current st)) as [|col|col row] eqn:Wy;
    try (destruct Hr as (_ & _ & Hr); congruence);
    destruct Hr as (Hi & Hcur' & _).
  - split.
    + eapply wf_ext; [eapply wf_update with (f := set_isOptimal true); eauto| | |];
        simpl; auto.
    + unfold current. rewrite Hs, Hn, Hcur', update_length, deref_update_eq by auto.
      fold (current st). simpl. repeat split; try lia; try congruence;
        match goal with H : flags_clear _ |- _ => destruct H; simpl in *; congruence end.
  - split.
    + eapply wf_ext;
        [eapply wf_update
           with (f := fun x => set_isUnbounded true (noteEntering col x)); eauto| | |];
        simpl; auto.
    + unfold current. rewrite Hs, Hn, Hcur', update_length, deref_update_eq by auto.
      fold (current st). simpl. repeat split; try lia; try congruence;
        match goal with H : flags_clear _ |- _ => destruct H; simpl in *; congruence end.
Qed.

Lemma at_exit_guard st : at_head st -> Solve.guard st = false -> at_exit st.
Proof.
  intros (W & Hlen & Hcnt & Hunb & Hit) G.
  unfold at_exit. split; [auto|]. split; [lia|]. split; [auto|]. split.
  - intros _ H. congruence.
  - intros [H1 H2].
    destruct (guard_false _ G) as [H | [H | H]]; try congruence. lia.
Qed.

Lemma at_exit_final o A b mx vars : at_exit (Solve.final o A b mx vars).
Proof.
  unfold Solve.final.
  apply loop_rule with (I := at_head).
  - apply at_exit_guard.
  - apply at_exit_break.
  - apply at_head_step.
  - apply at_head_init.
  - lia.
Qed.

(** ** Termination and the iteration cap *)

Lemma current_last st :
  wf st ->
  current st = last (map (Store.deref (Loop.store st)) (Loop.iterations st))
                    SimplexTableau.dummy.
Proof.
  intros [Wcur Wit _ _]. unfold current. rewrite Wit.
  replace (length (Loop.store st)) with (S (Loop.currentTableau st)) by lia.
  rewrite seq_S, map_app. simpl. rewrite last_last. reflexivity.
Qed.


(** An input on which the cap is what stops [solve]: a degenerate problem
    on which the pivots cycle.  All 50 rounds pivot and neither flag is
    set. *)
Example solve_cap_reached :
  let r := solve [10; -57; -9; -24; 0; 0]%float
                 [[0.5; -5.5; -2.5; 9; 1; 0]; [0.5; -1.5; -0.5; 1; 0; 1]]%float
                 [0; 0]%float true ["x1"; "x2"; "x3"; "x4"; "x5"; "x6"]%string in
  length (SimplexSolution.iterations (fst r)) = 51 /\
  SimplexSolution.isOptimal (fst r) = false /\
  SimplexSolution.isUnbounded (fst r) = false.
Proof. vm_compute. auto. Qed.

(** ** Feasibility flag *)

(** C4.  Whatever the input, the solution says [isFeasible: true]. *)
Theorem solve_isFeasible_always_true
    (o : list float) (A : list (list float)) (b : list float) (mx : bool)
    (vars : list string) :
  SimplexSolution.isFeasible (fst (solve o A b mx vars)) = true.
Proof. reflexivity. Qed.

(** ** The two terminal flags *)

(** C10.  In the solution and in every tableau of its history, [isOptimal]
    and [isUnbounded] are never both true. *)
Theorem solve_flags_exclusive
    (o : list float) (A : list (list float)) (b : list float) (mx : bool)
    (vars : list string) :
  let s := fst (solve o A b mx vars) in
  let h := snd (solve o A b mx vars) in
  SimplexSolution.isOptimal s && SimplexSolution.isUnbounded s = false /\
  forall x, In x (history s h) -> isOptimal x && isUnbounded x = false.
Proof.
  intros s h.
  destruct (at_exit_final o A b mx vars) as (W & _ & _ & Hboth & _).
  set (st := Solve.final o A b mx vars) in *.
  assert (Hcur : isOptimal (current st) && isUnbounded (current st) = false).
  { destruct (isOptimal (current st)) eqn:E1, (isUnbounded (current st)) eqn:E2;
      auto. exfalso. apply Hboth; auto. }
  split; [exact Hcur|].
  intros x Hx. unfold history in Hx. apply in_map_iff in Hx as (r & <- & Hr).
  subst s h. simpl in Hr |- *. fold st in Hr |- *.
  rewrite (wf_iterations st W) in Hr. apply in_seq in Hr.
  destruct (Nat.eq_dec r (Loop.currentTableau st)) as [->|Hne].
  - exact Hcur.
  - destruct (wf_old st W r) as [H1 H2]; [pose proof (wf_cur st W); lia|].
    rewrite H1. reflexivity.
Qed.

Lemma loop_reaches fuel st : reaches st (Solve.loop fuel st).
Proof.
  revert st. induction fuel as [|fuel IH]; intros st.
  - apply reaches_here.
  - rewrite loop_unfold. destruct (Solve.guard st) eqn:G; [|apply reaches_here].
    destruct (snd (Solve.body st)) eqn:B.
    + apply reaches_break; auto.
    + eapply reaches_next; eauto.
Qed.

Lemma same_matrix_and_basis_refl x : same_matrix_and_basis x x.
Proof. repeat split. Qed.

Lemma same_matrix_and_basis_trans x y z :
  same_matrix_and_basis x y -> same_matrix_and_basis y z ->
  same_matrix_and_basis x z.
Proof.
  unfold same_matrix_and_basis.
  intros (?&?&?&?&?&?) (?&?&?&?&?&?). repeat split; congruence.
Qed.

(** One round: the tableaus already in the store keep their matrix and
    basis, only the current one is touched, and nothing is removed. *)
Lemma body_preserves st :
  Loop.currentTableau st < length (Loop.store st) ->
  let st' := fst (Solve.body st) in
  length (Loop.store st) <= length (Loop.store st') /\
  forall r, r < length (Loop.store st) ->
    same_matrix_and_basis (Store.deref (Loop.store st') r)
                          (Store.deref (Loop.store st) r) /\
    (r <> Loop.currentTableau st ->
     Store.deref (Loop.store st') r = Store.deref (Loop.store st) r).
Proof.
  intros Hc st'. subst st'. rewrite (body_store st Hc).
  destruct (way_of (current st)) as [|col|col row].
  - rewrite update_length. split; [lia|]. intros r Hr.
    split; [|intros Hne; apply deref_update_neq; auto].
    destruct (Nat.eq_dec r (Loop.currentTableau st)) as [->|Hne].
    + rewrite deref_update_eq by auto. repeat split.
    + rewrite deref_update_neq by auto. apply same_matrix_and_basis_refl.
  - rewrite update_length. split; [lia|]. intros r Hr.
    split; [|intros Hne; apply deref_update_neq; auto].
    destruct (Nat.eq_dec r (Loop.currentTableau st)) as [->|Hne].
    + rewrite deref_update_eq by auto. repeat split.
    + rewrite deref_update_neq by auto. apply same_matrix_and_basis_refl.
  - rewrite length_app, update_length. split; [lia|]. intros r Hr.
    rewrite deref_app_l by (rewrite update_length; auto).
    split; [|intros Hne; apply deref_update_neq; auto].
    destruct (Nat.eq_dec r (Loop.currentTableau st)) as [->|Hne].
    + rewrite deref_update_eq by auto. repeat split.
    + rewrite deref_update_neq by auto. apply same_matrix_and_basis_refl.
Qed.

Lemma guard_after_break st :
  Loop.currentTableau st < length (Loop.store st) ->
  snd (Solve.body st) = true -> Solve.guard (fst (Solve.body st)) = false.
Proof.
  intros Hc B. unfold Solve.guard.
  pose proof (body_store st Hc) as Hs.
  pose proof (body_rest st) as (Hn & Hr).
  destruct (way_of (current st)) as [|col|col row];
    destruct Hr as (Hi & Hcur' & Hb); try congruence;
    rewrite Hs, Hcur', deref_update_eq by auto; simpl.
  - reflexivity.
  - rewrite andb_false_r. reflexivity.
Qed.

Lemma reaches_head st st' :
  reaches st st' -> at_head st -> at_head st' \/ Solve.guard st' = false.
Proof.
  induction 1 as [st | st G B | st st' G B R IH]; intros H; auto.
  - right. apply guard_after_break; auto.
    destruct H as (W & _). pose proof (wf_cur st W). lia.
  - apply IH. apply at_head_step; auto.
Qed.

Lemma reaches_stuck st st' : reaches st st' -> Solve.guard st = false -> st' = st.
Proof. induction 1; intros; congruence. Qed.

Lemma reaches_preserves st st' :
  reaches st st' -> at_head st ->
  length (Loop.store st) <= length (Loop.store st') /\
  forall r, r < length (Loop.store st) ->
    same_matrix_and_basis (Store.deref (Loop.store st') r)
                          (Store.deref (Loop.store st) r) /\
    (r <> Loop.currentTableau st ->
     Store.deref (Loop.store st') r = Store.deref (Loop.store st) r).
Proof.
  induction 1 as [st | st G B | st st' G B R IH]; intros H.
  - split; [lia|]. intros r Hr. split; auto using same_matrix_and_basis_refl.
  - apply body_preserves. destruct H as (W & _). pose proof (wf_cur st W). lia.
  - assert (Hc : Loop.currentTableau st < length (Loop.store st))
      by (destruct H as (W & _); pose proof (wf_cur st W); lia).
    destruct (body_preserves st Hc) as (Hlen & Hold).
    pose proof (at_head_step st H G B) as H1.
    destruct (IH H1) as (Hlen' & Hold').
    split; [lia|]. intros r Hr.
    destruct (Hold r Hr) as (Hs1 & He1).
    destruct (Hold' r ltac:(lia)) as (Hs2 & He2).
    split.
    + eapply same_matrix_and_basis_trans; eauto.
    + intros Hne. rewrite He2, He1; auto.
      destruct H1 as (W1 & L1 & _). destruct H as (_ & L0 & _).
      pose proof (wf_cur _ W1). pose proof (body_count st). lia.
Qed.

(** C2, as stated, fails: on the example of [examples/simplex-example.ts]
    the first tableau of the history is stored without an entering variable
    and has one when [solve] returns. *)
Lemma history_is_mutated :
  ~ never_mutated
      (Solve.init example_objective example_matrix example_rhs true
         example_variables).
Proof.
  intros H.
  specialize (H _ _ (reaches_here _) (loop_reaches SimplexSolver.maxIterations _) 0).
  assert (Hin : In 0 (Loop.iterations
                        (Solve.init example_objective example_matrix example_rhs
                           true example_variables))) by (left; reflexivity).
  apply H in Hin. apply (f_equal enteringVariable) in Hin.
  vm_compute in Hin. discriminate.
Qed.

(** Along a run of [solve]: what stays of the tableaus in the history, and
    where a pivot puts its result. *)
Lemma reaches_history
    (o : list float) (A : list (list float)) (b : list float) (mx : bool)
    (vars : list string) (st st' : Loop.state) :
  reaches (Solve.init o A b mx vars) st -> reaches st st' ->
  (forall r, In r (Loop.iterations st) ->
     same_matrix_and_basis (Store.deref (Loop.store st') r)
                           (Store.deref (Loop.store st) r) /\
     (r <> Loop.currentTableau st ->
      Store.deref (Loop.store st') r = Store.deref (Loop.store st) r)) /\
  (forall col row,
     Solve.guard st = true -> way_of (current st) = Pivot col row ->
     let st1 := fst (Solve.body st) in
     ~ In (Loop.currentTableau st1) (Loop.iterations st) /\
     Loop.iterations st1 = Loop.iterations st ++ [Loop.currentTableau st1] /\
     same_matrix_and_basis
       (current st1)
       (set_iteration (Loop.iterationCount st1)
          (SimplexSolver.pivotOperation (current st) row col))).
Proof.
  intros R0 R.
  destruct (reaches_head _ _ R0 (at_head_init o A b mx vars)) as [H | G].
  - split.
    + intros r Hr. apply (reaches_preserves _ _ R H).
      destruct H as (W & _). rewrite (wf_iterations st W) in Hr.
      apply in_seq in Hr. lia.
    + intros col row G Wy st1.
      destruct H as (W & Hlen & _).
      assert (Hc : Loop.currentTableau st < length (Loop.store st))
        by (pose proof (wf_cur st W); lia).
      pose proof (body_store st Hc) as Hs.
      pose proof (body_rest st) as (Hn & Hr).
      rewrite Wy in Hs, Hr. destruct Hr as (Hi & Hcur' & _).
      fold st1 in Hs, Hn, Hi, Hcur'.
      split; [|split].
      * rewrite Hcur', (wf_iterations st W), in_seq. lia.
      * rewrite Hi, Hcur'. reflexivity.
      * unfold current at 1. rewrite Hs, Hcur'.
        rewrite <- (update_length (Loop.currentTableau st)
                      (fun x => noteLeaving row (noteEntering col x)) (Loop.store st)).
        rewrite deref_app_last, Hn. unfold finishNew.
        destruct (SimplexSolver.isOptimal _); repeat split.
  - apply reaches_stuck in R; auto. subst st'. split.
    + intros r Hr. split; auto using same_matrix_and_basis_refl.
    + intros col row G'. congruence.
Qed.

(** C2, amended.  Once a tableau is in the history its matrix, its lists of
    basic and non-basic variables, its objective row, its right-hand-side
    column and its iteration number never change, and a tableau that is no
    longer the current one does not change at all (what [solve] still
    assigns are the flags and the pivot annotations of the current
    tableau); a pivot stores its result as a new object under a reference
    that the history did not have, and the arrays it writes to are copies
    of its own, not the rows of an older tableau. *)
Theorem history_matrix_never_mutated
    (o : list float) (A : list (list float)) (b : list float) (mx : bool)
    (vars : list string) (st st' : Loop.state) :
  reaches (Solve.init o A b mx vars) st -> reaches st st' ->
  (forall r, In r (Loop.iterations st) ->
     same_matrix_and_basis (Store.deref (Loop.store st') r)
                           (Store.deref (Loop.store st) r) /\
     (r <> Loop.currentTableau st ->
      Store.deref (Loop.store st') r = Store.deref (Loop.store st) r)) /\
  (forall col row,
     Solve.guard st = true -> way_of (current st) = Pivot col row ->
     let st1 := fst (Solve.body st) in
     ~ In (Loop.currentTableau st1) (Loop.iterations st) /\
     Loop.iterations st1 = Loop.iterations st ++ [Loop.currentTableau st1] /\
     same_matrix_and_basis
       (current st1)
       (set_iteration (Loop.iterationCount st1)
          (SimplexSolver.pivotOperation (current st) row col))) /\
  (forall row col, pivot_writes_own_copies row col).
Proof.
  intros R0 R.
  destruct (reaches_history o A b mx vars st st' R0 R) as (Hkept & Hnew).
  split; [exact Hkept|]. split; [exact Hnew|].
  intros row col. apply pivotRows_refines.
Qed.

(** The amended claim at work on the example: the first tableau in the
    state [solve] starts from, looked at again when [solve] is done. *)
Lemma history_matrix_never_mutated_witness :
  let st0 := Solve.init example_objective example_matrix example_rhs true
               example_variables in
  let st1 := Solve.final example_objective example_matrix example_rhs true
               example_variables in
  same_matrix_and_basis (Store.deref (Loop.store st1) 0)
                        (Store.deref (Loop.store st0) 0).
Proof.
  intros st0 st1.
  apply (history_matrix_never_mutated example_objective example_matrix
           example_rhs true example_variables st0 st1
           (reaches_here _) (loop_reaches SimplexSolver.maxIterations _)).
  left. reflexivity.
Defined.

(** C1 fails on the code.  After two pivots the non-basic variables are the
    two slacks, in columns 2 and 3, and the objective row has -1 in column
    2: the rule of the specification picks column 2, [findEnteringVariable]
    looks at columns 0 and 1 only, finds nothing negative and [solve]
    reports the vertex (3, 2) with value 13 as optimal, where (0, 8) is
    feasible with value 16. *)
Theorem findEnteringVariable_misses_slack_column :
  let r := solve slack_objective slack_matrix slack_rhs true slack_variables in
  let t := last (history (fst r) (snd r)) dummy in
  nonBasicVariables t = ["s1"; "s2"]%string /\
  objectiveRow t = [0; 0; -1; 2; 13]%float /\
  Spec.nonBasicColumns ["x"; "y"; "s1"; "s2"]%string t = [2; 3] /\
  Spec.findEnteringVariable ["x"; "y"; "s1"; "s2"]%string t = 2%Z /\
  SimplexSolver.findEnteringVariable t = (-1)%Z /\
  SimplexSolution.isOptimal (fst r) = true /\
  SimplexSolution.optimalValue (fst r) = 13%float /\
  SimplexSolution.optimalSolution (fst r) = [("x", 3); ("y", 2)]%string%float /\
  (3 * 0 + 2 * 8)%float = 16%float.
Proof. vm_compute. repeat split. Qed.

(** What [findEnteringVariable] does on every tableau: among the first
    [nonBasicVariables.length] columns it returns the first one that holds
    the least negative-below-zero value, and -1 when none of them is
    negative. *)
Lemma findEnteringVariable_first_columns (t : SimplexTableau.t) :
  let n := length (nonBasicVariables t) in
  let r := SimplexSolver.findEnteringVariable t in
  (r = (-1)%Z /\
   forall j, j < n -> (JS.get (objectiveRow t) j <? 0)%float = false) \/
  (exists k, r = Z.of_nat k /\ k < n /\
     (JS.get (objectiveRow t) k <? 0)%float = true /\
     (forall j, j < n ->
        (JS.get (objectiveRow t) j <? JS.get (objectiveRow t) k)%float = false) /\
     (forall j, j < k ->
        (JS.get (objectiveRow t) j =? JS.get (objectiveRow t) k)%float = false)).
Proof.
  intros n r.
  destruct (findEnteringVariable_scanned t)
    as (m & [(Hr & _ & Hnone) | (k & Hr & _ & Hk & _ & Hlt & Hmin & Hfirst)]);
    simpl in Hr.
  - left. split; auto.
  - right. exists k. repeat split; auto.
Qed.

(** ** The leaving variable *)

(** C5, as stated, fails: the only constraint row has the positive entry
    0.25 in the entering column, and no row is picked. *)
Lemma min_ratio_misses_overflowing_row : ~ picks_min_ratio_row overflow_tableau 0.
Proof.
  intros H. destruct H as (k & Hk & _).
  - exists 0. split; [vm_compute; lia | vm_compute; reflexivity].
  - vm_compute in Hk. destruct k; discriminate.
Qed.

(** C5, amended.  Among the constraint rows with a strictly positive entry
    in the entering column and a ratio below +Infinity, the first row with
    the least ratio is picked; when there is no such row, in particular when
    no constraint row has a strictly positive entry, the result is -1, on
    which [solve] sets [isUnbounded] on the current tableau and leaves the
    loop without pivoting. *)
Theorem findLeavingVariable_min_ratio (t : SimplexTableau.t) (col : nat) :
  let m := length (rhsColumn t) - 1 in
  let r := SimplexSolver.findLeavingVariable t col in
  ((r = (-1)%Z /\
    forall i, i < m -> JS.gtb (entry t col i) 0 = true ->
              (ratio t col i <? infinity)%float = false)
   \/
   (exists k, r = Z.of_nat k /\ k < m /\
      JS.gtb (entry t col k) 0 = true /\
      (ratio t col k <? infinity)%float = true /\
      (forall i, i < m -> JS.gtb (entry t col i) 0 = true ->
         (ratio t col i <? ratio t col k)%float = false) /\
      (forall i, i < k -> JS.gtb (entry t col i) 0 = true ->
         (ratio t col i =? ratio t col k)%float = false))) /\
  ((forall i, i < m -> JS.gtb (entry t col i) 0 = false) -> r = (-1)%Z) /\
  (forall st,
     Loop.currentTableau st < length (Loop.store st) ->
     current st = t ->
     SimplexSolver.findEnteringVariable t = Z.of_nat col ->
     r = (-1)%Z ->
     snd (Solve.body st) = true /\
     isUnbounded (current (fst (Solve.body st))) = true /\
     Loop.iterations (fst (Solve.body st)) = Loop.iterations st /\
     length (Loop.store (fst (Solve.body st))) = length (Loop.store st)).
Proof.
  intros m r.
  assert (Hscan :
    (r = (-1)%Z /\
     forall i, i < m -> JS.gtb (entry t col i) 0 = true ->
               (ratio t col i <? infinity)%float = false)
    \/
    (exists k, r = Z.of_nat k /\ k < m /\
       JS.gtb (entry t col k) 0 = true /\
       (ratio t col k <? infinity)%float = true /\
       (forall i, i < m -> JS.gtb (entry t col i) 0 = true ->
          (ratio t col i <? ratio t col k)%float = false) /\
       (forall i, i < k -> JS.gtb (entry t col i) 0 = true ->
          (ratio t col i =? ratio t col k)%float = false))).
  { destruct (findLeavingVariable_scanned t col)
      as (v & [(Hr & _ & Hnone) | (k & Hr & _ & Hk & Hok & Hlt & Hmin & Hfirst)]);
      simpl in Hr.
    - left. split; auto.
    - right. exists k. repeat split; auto. }
  split; [exact Hscan|]. split.
  - intros Hnone. destruct Hscan as [(Hr & _) | (k & _ & Hk & Hok & _)]; auto.
    rewrite Hnone in Hok by auto. discriminate.
  - intros st Hc Hcur He Hr.
    pose proof (body_store st Hc) as Hs.
    pose proof (body_rest st) as (_ & Hrest).
    assert (Hw : way_of (current st) = Stop_unbounded col).
    { rewrite Hcur. unfold way_of. rewrite He.
      replace (Z.of_nat col =? -1)%Z with false by (symmetry; apply Z.eqb_neq; lia).
      rewrite Nat2Z.id. fold r. rewrite Hr. reflexivity. }
    rewrite Hw in Hs, Hrest. destruct Hrest as (Hi & Hcur' & Hb).
    repeat split; auto.
    + unfold current. rewrite Hs, Hcur', deref_update_eq by auto. reflexivity.
    + rewrite Hs. apply update_length.
Qed.

(** The ratio test on the example of the repository, entering column 1:
    the ratios are 12 / 2 and 18 / 2, row 0 has no positive entry, row 1 is
    picked. *)
Example findLeavingVariable_example :
  let t := SimplexSolver.createInitialTableau
             (SimplexSolver.convertToStandardForm example_objective example_matrix
                example_rhs true example_variables) in
  SimplexSolver.findEnteringVariable t = 1%Z /\
  map (entry t 1) [0; 1; 2] = [0; 2; 2]%float /\
  map (ratio t 1) [1; 2] = [6; 9]%float /\
  SimplexSolver.findLeavingVariable t 1 = 1%Z.
Proof. vm_compute. repeat split. Qed.

(** ** The pivot *)

Lemma set_nth_error_eq {A} i (v : A) l :
  i < length l -> nth_error (JS.set i v l) i = Some v.
Proof. revert i; induction l; intros [|i]; simpl; intros; auto; try lia. apply IHl; lia. Qed.

Lemma set_nth_error_neq {A} i j (v : A) l :
  i <> j -> nth_error (JS.set i v l) j = nth_error l j.
Proof. revert i j; induction l; intros [|i] [|j]; simpl; intros; auto; try lia. Qed.

Lemma mapi_from_get f k (l : list float) j :
  j < length l -> JS.get (JS.mapi_from f k l) j = f (k + j) (JS.get l j).
Proof. intros. unfold JS.get. apply mapi_from_nth. auto. Qed.

(** The overflowing problem has finite numbers only.  Its first pivot, on
    row 1 and column 0, adds [a] to [a / 2] in row 0, which is more than a
    binary64 number holds; [solve] goes on to pivot on that [Infinity], the
    ratio of row 0 being [a / Infinity = 0], and the pivot column of the
    third tableau holds NaN only. *)
Example overflowing_run :
  let r := solve overflowing_objective overflowing_matrix overflowing_rhs true
             overflowing_variables in
  forallb is_finite
    (overflowing_objective ++ concat overflowing_matrix ++ overflowing_rhs) = true /\
  length (history (fst r) (snd r)) = 3 /\
  tableau overflowed_tableau =
    [[0; infinity; 1; 0x1.ep1023; 0x1.ep1023];
     [1; 0.5; 0; 1; 1];
     [0; -0.5; 0; 2; 2]]%float /\
  way_of overflowed_tableau = Pivot 1 0 /\
  SimplexTableau.pivotColumn overflowed_tableau = Some 1 /\
  SimplexTableau.pivotRow overflowed_tableau = Some 0 /\
  map (fun row => JS.get row 1)
    (tableau (nth 2 (history (fst r) (snd r)) SimplexTableau.dummy))
  = [nan; nan; nan]%float /\
  tableau (nth 2 (history (fst r) (snd r)) SimplexTableau.dummy)
  = tableau (SimplexSolver.pivotOperation overflowed_tableau 0 1).
Proof. vm_compute. repeat split. Qed.

(** C6, as stated, fails: the pivot [solve] makes on row 0 and column 1 of
    the second tableau of the overflowing problem divides [Infinity] by
    itself, and the pivot column is NaN in the pivot row, not 1. *)
Lemma pivot_column_not_unit : ~ pivots_as_described overflowed_tableau 0 1.
Proof.
  intros H. destruct H as (_ & _ & Hunit & _); try (vm_compute; lia).
  specialize (Hunit 0). vm_compute in Hunit.
  assert (Hlt : 1 <= 3) by lia. specialize (Hunit Hlt). discriminate.
Qed.

(** C6, amended.  [pivotOperation] on a row and a column of the tableau:
    the pivot row is divided by the pivot element; every other row has its
    entry in the pivot column times the normalized pivot row subtracted;
    when the pivot element is finite and not zero the pivot column is 1 in
    the pivot row and 0 in every other row whose entry in that column was
    finite (an infinite or NaN value spreads NaN instead); the basic
    variable of the row and the non-basic variable of the column change
    places, nothing else in the two lists moves; the result is a new
    tableau, whose iteration counter is the predecessor's plus one and
    whose rows are new arrays (the rows of the predecessor are not written
    to). *)
Theorem pivotOperation_spec (t : SimplexTableau.t) (pivotRow pivotColumn : nat) :
  pivotRow < length (tableau t) ->
  pivotRow < length (basicVariables t) ->
  pivotColumn < length (nonBasicVariables t) ->
  let t' := SimplexSolver.pivotOperation t pivotRow pivotColumn in
  let row i := nth i (tableau t) [] in
  let row' i := nth i (tableau t') [] in
  let pivotElement := JS.get (row pivotRow) pivotColumn in
  (* the rows *)
  length (tableau t') = length (tableau t) /\
  row' pivotRow = map (fun x => x / pivotElement)%float (row pivotRow) /\
  (forall i, i < length (tableau t) -> i <> pivotRow ->
     length (row' i) = length (row i) /\
     forall j, j < length (row i) ->
       JS.get (row' i) j =
       (JS.get (row i) j - JS.get (row i) pivotColumn * JS.get (row' pivotRow) j)%float) /\
  (* the pivot column *)
  (is_finite pivotElement = true -> is_zero pivotElement = false ->
   pivotColumn < length (row pivotRow) ->
   JS.get (row' pivotRow) pivotColumn = 1%float /\
   forall i, i < length (tableau t) -> i <> pivotRow ->
     pivotColumn < length (row i) ->
     is_finite (JS.get (row i) pivotColumn) = true ->
     JS.get (row' i) pivotColumn = 0%float) /\
  (* the basis *)
  nth_error (basicVariables t') pivotRow = nth_error (nonBasicVariables t) pivotColumn /\
  nth_error (nonBasicVariables t') pivotColumn = nth_error (basicVariables t) pivotRow /\
  (forall i, i <> pivotRow ->
     nth_error (basicVariables t') i = nth_error (basicVariables t) i) /\
  (forall j, j <> pivotColumn ->
     nth_error (nonBasicVariables t') j = nth_error (nonBasicVariables t) j) /\
  (* the new tableau *)
  iteration t' = iteration t + 1 /\
  isOptimal t' = false /\ isUnbounded t' = false /\
  SimplexTableau.pivotRow t' = Some pivotRow /\
  SimplexTableau.pivotColumn t' = Some pivotColumn /\
  pivot_writes_own_copies pivotRow pivotColumn.
Proof.
  intros Hr Hb Hc t' row row' pivotElement.
  assert (Hrow' : row' pivotRow = map (fun x => x / pivotElement)%float (row pivotRow)).
  { subst row' t'. simpl.
    rewrite mapi_nth with (dA := []) by (rewrite set_length; auto).
    rewrite Nat.eqb_refl. apply set_nth_eq. auto. }
  assert (Hother : forall i, i < length (tableau t) -> i <> pivotRow ->
            row' i = JS.mapi (fun j x => x - JS.get (row i) pivotColumn
                                             * JS.get (row' pivotRow) j)%float (row i)).
  { intros i Hi Hne. rewrite Hrow'. subst row' t'. simpl.
    rewrite mapi_nth with (dA := []) by (rewrite set_length; auto).
    apply Nat.eqb_neq in Hne. rewrite Hne.
    rewrite set_nth_neq by (apply Nat.eqb_neq in Hne; auto).
    rewrite set_nth_eq by auto. reflexivity. }
  split; [|split; [|split; [|split]]].
  - subst t'. simpl. rewrite mapi_length, set_length. reflexivity.
  - exact Hrow'.
  - intros i Hi Hne. rewrite (Hother i Hi Hne). split.
    + apply mapi_length.
    + intros j Hj. unfold JS.mapi. rewrite mapi_from_get by auto. reflexivity.
  - intros Hfin Hnz Hpc.
    assert (H1 : JS.get (row' pivotRow) pivotColumn = 1%float).
    { rewrite Hrow'. unfold JS.get.
      rewrite nth_indep with (d' := (nan / pivotElement)%float)
        by (rewrite length_map; auto).
      rewrite (map_nth (fun x => x / pivotElement)%float).
      apply div_self; auto. }
    split; [exact H1|].
    intros i Hi Hne Hpi Hfi. rewrite (Hother i Hi Hne).
    unfold JS.mapi. rewrite mapi_from_get by auto. simpl.
    rewrite H1, mul_one. apply sub_self. exact Hfi.
  - subst t'. simpl.
    rewrite set_nth_error_eq by auto.
    rewrite set_nth_error_eq by auto.
    split; [symmetry; apply nth_error_nth'; auto|].
    split; [symmetry; apply nth_error_nth'; auto|].
    split; [intros i Hi; apply set_nth_error_neq; auto|].
    split; [intros j Hj; apply set_nth_error_neq; auto|].
    do 5 (split; [reflexivity|]).
    apply pivotRows_refines.
Qed.

(** The first pivot of the repository's example: row 1, column 1. *)
Lemma pivotOperation_spec_witness :
  let t := SimplexSolver.createInitialTableau
             (SimplexSolver.convertToStandardForm example_objective example_matrix
                example_rhs true example_variables) in
  1 < length (tableau t) /\
  nth 1 (tableau (SimplexSolver.pivotOperation t 1 1)) [] =
  map (fun x => x / JS.get (nth 1 (tableau t) []) 1)%float (nth 1 (tableau t) []).
Proof.
  intros t. split; [vm_compute; lia|].
  apply (pivotOperation_spec t 1 1); vm_compute; lia.
Defined.

(** An infinite pivot element does not normalize to 1: the row
    [Infinity, 1, 1] divided by Infinity is [NaN, 0, 0]. *)
Example pivotOperation_infinite_pivot :
  let t := SimplexSolver.createInitialTableau
             (SimplexSolver.convertToStandardForm [1]%float [[infinity]]
                [1]%float true ["x"]%string) in
  SimplexSolver.findEnteringVariable t = 0%Z /\
  SimplexSolver.findLeavingVariable t 0 = 0%Z /\
  nth 0 (tableau (SimplexSolver.pivotOperation t 0 0)) [] = [nan; 0; 0]%float.
Proof. vm_compute. repeat split. Qed.

(** ** Sensitivity analysis *)

(** C7.  On a solution with a non-empty history, [performSensitivityAnalysis]
    returns one shadow price per basic variable of the first tableau and one
    reduced cost per non-basic variable of the first tableau.  The [i]-th
    shadow price is minus the last tableau's objective-row entry in column
    [numOriginalVars + i], under the first tableau's [i]-th basic-variable
    name ([s{i+1}] when JavaScript finds that name falsy, that is missing or
    empty); the [i]-th reduced cost is the last tableau's objective-row
    entry in column [i], under the first tableau's [i]-th non-basic-variable
    name.  The store, and with it the solution, is left as it was. *)
Theorem performSensitivityAnalysis_spec (s : SimplexSolution.t) (h : Store.t) :
  SimplexSolution.iterations s <> [] ->
  let iterations := SimplexSolution.iterations s in
  let initialTableau := Store.deref h (hd 0 iterations) in
  let finalTableau := Store.deref h (last iterations 0) in
  let numOriginalVars := length (nonBasicVariables initialTableau) in
  let numConstraints := length (basicVariables initialTableau) in
  exists result,
    performSensitivityAnalysis s h = (Some result, h) /\
    length (SensitivityResult.shadowPrices result) = numConstraints /\
    length (SensitivityResult.reducedCosts result) = numOriginalVars /\
    (forall i, i < numConstraints ->
       exists name,
         nth_error (basicVariables initialTableau) i = Some name /\
         nth_error (SensitivityResult.shadowPrices result) i =
         Some (SensitivityResult.makePrice
                 (if String.eqb name "" then ("s" ++ JS.of_nat (i + 1))%string
                  else name)
                 (- JS.get (objectiveRow finalTableau) (numOriginalVars + i))%float)) /\
    (forall i, i < numOriginalVars ->
       exists name,
         nth_error (nonBasicVariables initialTableau) i = Some name /\
         nth_error (SensitivityResult.reducedCosts result) i =
         Some (SensitivityResult.makeCost name
                 (JS.get (objectiveRow finalTableau) i))).
Proof.
  intros Hne iterations initialTableau finalTableau numOriginalVars numConstraints.
  unfold performSensitivityAnalysis. fold iterations.
  assert (Hlast : nth (length iterations - 1) iterations 0 = last iterations 0).
  { clear. induction iterations as [|a l IH]; [reflexivity|].
    destruct l as [|b l]; [reflexivity|].
    simpl in *. rewrite Nat.sub_0_r in IH. exact IH. }
  destruct iterations as [|first rest] eqn:E; [contradiction|].
  rewrite Hlast. simpl hd in *. fold finalTableau. fold initialTableau.
  fold numOriginalVars. fold numConstraints.
  eexists. split; [reflexivity|]. simpl.
  rewrite !length_map, !length_seq. repeat split.
  - intros i Hi.
    destruct (nth_error (basicVariables initialTableau) i) as [name|] eqn:En.
    2:{ apply nth_error_None in En. unfold numConstraints in Hi. lia. }
    exists name. split; [reflexivity|].
    rewrite nth_error_map, nth_error_seq.
    replace (i <? numConstraints) with true by (symmetry; apply Nat.ltb_lt; auto).
    simpl. rewrite En. destruct name; reflexivity.
  - intros i Hi.
    destruct (nth_error (nonBasicVariables initialTableau) i) as [name|] eqn:En.
    2:{ apply nth_error_None in En. unfold numOriginalVars in Hi. lia. }
    exists name. split; [reflexivity|].
    rewrite nth_error_map, nth_error_seq.
    replace (i <? numOriginalVars) with true by (symmetry; apply Nat.ltb_lt; auto).
    simpl. rewrite (nth_error_nth _ _ _ En). reflexivity.
Qed.

(** The solution of the repository's example has three tableaus. *)
Lemma performSensitivityAnalysis_spec_witness :
  let r := solve example_objective example_matrix example_rhs true
             example_variables in
  exists result,
    performSensitivityAnalysis (fst r) (snd r) = (Some result, snd r) /\
    length (SensitivityResult.shadowPrices result) = 3 /\
    length (SensitivityResult.reducedCosts result) = 2.
Proof.
  intros r.
  destruct (performSensitivityAnalysis_spec (fst r) (snd r))
    as (result & H1 & H2 & H3 & _).
  - vm_compute. discriminate.
  - exists result. repeat split; auto.
Defined.

(** ** The graphical method *)

Lemma dedupe_snoc l p :
  Graph.dedupe (l ++ [p]) =
  if existsb (fun s => Graph.close s p) (Graph.dedupe l)
  then Graph.dedupe l else Graph.dedupe l ++ [p].
Proof. unfold Graph.dedupe. rewrite fold_left_app. reflexivity. Qed.

Lemma dedupe_incl l p : In p (Graph.dedupe l) -> In p l.
Proof.
  induction l as [|q l IH] using rev_ind; [intros []|].
  rewrite dedupe_snoc, in_app_iff.
  destruct (existsb _ _); [auto|].
  rewrite in_app_iff. intros [H | H]; auto.
Qed.

Lemma in_kept (b : bool) (d : list Graph.Point) q s :
  In s d -> In s (if b then d else d ++ [q]).
Proof. destruct b; auto. intros. apply in_app_iff. auto. Qed.

Lemma dedupe_covers l p :
  In p l ->
  In p (Graph.dedupe l) \/
  exists s, In s (Graph.dedupe l) /\ Graph.close s p = true.
Proof.
  induction l as [|q l IH] using rev_ind; [intros []|].
  rewrite dedupe_snoc, in_app_iff. intros [H | [<- | []]].
  - destruct (IH H) as [Hin | (s & Hs & Hc)].
    + left. apply in_kept. exact Hin.
    + right. exists s. split; [apply in_kept; exact Hs | exact Hc].
  - destruct (existsb _ _) eqn:E.
    + right. apply existsb_exists in E. exact E.
    + left. apply in_app_iff. right. left. reflexivity.
Qed.

Lemma separated_snoc l p :
  separated l -> (forall s, In s l -> Graph.close s p = false) ->
  separated (l ++ [p]).
Proof.
  intros Hl Hp l1 q l2 E s Hs.
  destruct l2 as [|q' l2] using rev_ind.
  - apply app_inj_tail in E as [-> ->]. auto.
  - clear IHl2. rewrite app_comm_cons, app_assoc in E.
    apply app_inj_tail in E as [-> ->]. eapply Hl; eauto.
Qed.

Lemma dedupe_separated l : separated (Graph.dedupe l).
Proof.
  induction l as [|q l IH] using rev_ind.
  - intros [|? ?] ? ? E; discriminate.
  - rewrite dedupe_snoc. destruct (existsb _ _) eqn:E; auto.
    apply separated_snoc; auto.
    intros s Hs. destruct (Graph.close s q) eqn:C; auto.
    rewrite <- E. symmetry. apply existsb_exists. eauto.
Qed.

Lemma dedupe_head p l : exists l', Graph.dedupe (p :: l) = p :: l'.
Proof.
  induction l as [|q l IH] using rev_ind.
  - exists []. reflexivity.
  - destruct IH as (l' & E). rewrite app_comm_cons, dedupe_snoc, E.
    destruct (existsb _ _); eauto. exists (l' ++ [q]). reflexivity.
Qed.

Lemma strictlyBetter_irrefl pr v : strictlyBetter pr v v = false.
Proof. unfold strictlyBetter, JS.gtb. destruct (Graph.type pr); apply ltb_irrefl. Qed.

Lemma strictlyBetter_trans pr u v w :
  strictlyBetter pr u v = true -> strictlyBetter pr v w = true ->
  strictlyBetter pr u w = true.
Proof.
  unfold strictlyBetter, JS.gtb. destruct (Graph.type pr); intros; eapply ltb_trans; eauto.
Qed.

Lemma optimumStep_eq pr acc p :
  optimumStepOf pr acc p =
  match fst acc with
  | None => (Some p, objectiveValue pr p)
  | Some q =>
      if strictlyBetter pr (objectiveValue pr p) (snd acc)
      then (Some p, objectiveValue pr p) else acc
  end.
Proof.
  destruct acc as [[q|] v];
    unfold optimumStepOf, Graph.optimumStep, strictlyBetter, objectiveValue;
    simpl; destruct (Graph.type pr); reflexivity.
Qed.

(** The scan for the optimum over the points after the first one: the
    incumbent is one of the points seen, its value is the recorded one, and
    no point seen is strictly better. *)
Lemma optimum_scan pr l q :
  exists p,
    fold_left (optimumStepOf pr) l (Some q, objectiveValue pr q) =
      (Some p, objectiveValue pr p) /\
    In p (q :: l) /\
    forall s, In s (q :: l) ->
      strictlyBetter pr (objectiveValue pr s) (objectiveValue pr p) = false.
Proof.
  induction l as [|a l IH] using rev_ind.
  - exists q. simpl. repeat split; auto.
    intros s [<- | []]. apply strictlyBetter_irrefl.
  - destruct IH as (p & E & Hin & Hbest).
    rewrite fold_left_app, E. cbn [fold_left]. rewrite optimumStep_eq. cbn [fst snd].
    destruct (strictlyBetter pr (objectiveValue pr a) (objectiveValue pr p)) eqn:B.
    + exists a. repeat split.
      * right. apply in_app_iff. right. left. reflexivity.
      * intros s Hs. rewrite app_comm_cons in Hs. apply in_app_iff in Hs as [Hs | [<- | []]].
        -- destruct (strictlyBetter pr (objectiveValue pr s) (objectiveValue pr a)) eqn:B'; auto.
           rewrite <- (Hbest s Hs). symmetry. eapply strictlyBetter_trans; eauto.
        -- apply strictlyBetter_irrefl.
    + exists p. repeat split.
      * rewrite app_comm_cons. apply in_app_iff. auto.
      * intros s Hs. rewrite app_comm_cons in Hs. apply in_app_iff in Hs as [Hs | [<- | []]]; auto.
Qed.

Lemma satisfies_satisfiesWithin p c :
  Graph.satisfies p c = true <-> satisfiesWithin 0x1.5798ee2308c3ap-27 p c.
Proof.
  unfold Graph.satisfies, satisfiesWithin, Graph.tol_1e_8, JS.geb.
  destruct (Graph.op c); reflexivity.
Qed.

Lemma close_nearBy s p : Graph.close s p = nearBy 0x1.0c6f7a0b5ed8dp-20 s p.
Proof. reflexivity. Qed.

Lemma existsb_close_nearBy p l :
  existsb (fun s => Graph.close s p) l
  = existsb (fun s => nearBy 0x1.0c6f7a0b5ed8dp-20 s p) l.
Proof. induction l as [|s l IH]; simpl; [reflexivity|]. rewrite IH, close_nearBy. reflexivity. Qed.

(** C8.  With [eps8] and [eps6] the binary64 numbers that [1e-8] and [1e-6]
    denote: the feasible points are the candidates that satisfy every
    constraint within [eps8] and have both coordinates [>= 0]; [dedupe]
    keeps a point unless a point kept before it differs from it by less
    than [eps6] in both coordinates, so the first point seen of each
    cluster stays and no two points kept are that near; the scan for the
    optimum starts from the first feasible point whatever its value and
    replaces the incumbent only by a point whose objective value is
    strictly greater when maximizing, strictly lesser when minimizing. *)
Theorem computeGraphData_spec (pr : Graph.problem) :
  let eps8 := 0x1.5798ee2308c3ap-27%float in
  let eps6 := 0x1.0c6f7a0b5ed8dp-20%float in
  let cs := Graph.constraints pr in
  let kept := filter (Graph.feasible cs) (Graph.candidates cs) in
  let g := Graph.computeGraphData pr in
  let step := optimumStepOf pr in
  (* the two tolerances *)
  denotes eps8 1 (10 ^ 8) /\ denotes eps6 1 (10 ^ 6) /\
  (* the feasibility filter *)
  (forall p, In p kept <->
     In p (Graph.candidates cs) /\
     (forall c, In c cs -> satisfiesWithin eps8 p c) /\
     (0 <=? Graph.x p)%float = true /\ (0 <=? Graph.y p)%float = true) /\
  (* the deduplication *)
  Graph.feasiblePoints g = Graph.dedupe kept /\
  Graph.dedupe [] = [] /\
  (forall l p, Graph.dedupe (l ++ [p]) =
     if existsb (fun s => nearBy eps6 s p) (Graph.dedupe l)
     then Graph.dedupe l else Graph.dedupe l ++ [p]) /\
  (forall p, In p (Graph.feasiblePoints g) -> In p kept) /\
  (forall p, In p kept ->
     In p (Graph.feasiblePoints g) \/
     exists s, In s (Graph.feasiblePoints g) /\ nearBy eps6 s p = true) /\
  (forall l1 p l2, Graph.feasiblePoints g = l1 ++ p :: l2 ->
     forall s, In s l1 -> nearBy eps6 s p = false) /\
  (forall p l, kept = p :: l -> exists l', Graph.feasiblePoints g = p :: l') /\
  (* the optimum *)
  (Graph.feasiblePoints g = [] ->
   Graph.optimalPoint g = None /\ Graph.optimalValue g = 0%float) /\
  (forall q l, Graph.feasiblePoints g = q :: l ->
     (Graph.optimalPoint g, Graph.optimalValue g) =
       fold_left step l (Some q, objectiveValue pr q) /\
     exists p, Graph.optimalPoint g = Some p /\
       Graph.optimalValue g = objectiveValue pr p /\
       In p (Graph.feasiblePoints g) /\
       forall s, In s (Graph.feasiblePoints g) ->
         strictlyBetter pr (objectiveValue pr s) (Graph.optimalValue g) = false) /\
  (forall q v p,
     step (Some q, v) p =
     if strictlyBetter pr (objectiveValue pr p) v
     then (Some p, objectiveValue pr p) else (Some q, v)).
Proof.
  intros eps8 eps6 cs kept g step.
  assert (Hfp : Graph.feasiblePoints g = Graph.dedupe kept).
  { subst g. unfold Graph.computeGraphData. fold cs. fold kept.
    destruct (fold_left _ _ _). reflexivity. }
  assert (Hopt : (Graph.optimalPoint g, Graph.optimalValue g) =
                 fold_left step (Graph.dedupe kept) (None, 0%float)).
  { subst g step. unfold Graph.computeGraphData, optimumStepOf. fold cs. fold kept.
    destruct (fold_left _ _ _). reflexivity. }
  split; [|split; [|split; [|split; [|split; [|split; [|split; [|split; [|split;
    [|split; [|split; [|split]]]]]]]]]]].
  - exists 6044629098073146%positive, (-79)%Z. vm_compute. repeat split; discriminate.
  - exists 4722366482869645%positive, (-72)%Z. vm_compute. repeat split; discriminate.
  - intros p. unfold kept. rewrite filter_In. unfold Graph.feasible, JS.geb.
    rewrite !andb_true_iff, forallb_forall.
    split.
    + intros (Hc & (Hs & Hx) & Hy). repeat split; auto.
      intros c Hin. apply satisfies_satisfiesWithin. auto.
    + intros (Hc & Hs & Hx & Hy). repeat split; auto.
      intros c Hin. apply satisfies_satisfiesWithin. auto.
  - exact Hfp.
  - reflexivity.
  - intros l p. subst eps6. rewrite <- existsb_close_nearBy. apply dedupe_snoc.
  - intros p. rewrite Hfp. apply dedupe_incl.
  - intros p Hp. rewrite Hfp. subst eps6.
    destruct (dedupe_covers _ _ Hp) as [H | (s & Hs & C)]; [left; exact H|].
    right. exists s. rewrite <- close_nearBy. auto.
  - rewrite Hfp. intros l1 p l2 E s Hs. subst eps6. rewrite <- close_nearBy.
    exact (dedupe_separated kept l1 p l2 E s Hs).
  - intros p l E. rewrite Hfp, E. apply dedupe_head.
  - intros E. rewrite <- Hfp, E in Hopt. simpl in Hopt.
    inversion Hopt. auto.
  - intros q l E. subst step. rewrite <- Hfp, E in Hopt. cbn [fold_left] in Hopt.
    rewrite optimumStep_eq in Hopt. cbn [fst snd] in Hopt.
    split; [exact Hopt|].
    destruct (optimum_scan pr l q) as (p & Ep & Hin & Hbest).
    rewrite Ep in Hopt. inversion Hopt as [[H1 H2]].
    exists p. rewrite E. repeat split; auto.
    rewrite H2. exact Hbest.
  - intros q v p. subst step. rewrite optimumStep_eq. reflexivity.
Qed.

(** The example of the repository, solved graphically: the optimum is the
    vertex (2, 6) with value 36, as the simplex engine finds it. *)
Example computeGraphData_example :
  let g := Graph.computeGraphData
             (Graph.makeProblem Graph.maximize [3; 5]%float
                [Graph.makeConstraint [1; 0]%float Graph.Leq 4;
                 Graph.makeConstraint [0; 2]%float Graph.Leq 12;
                 Graph.makeConstraint [3; 2]%float Graph.Leq 18]) in
  Graph.feasiblePoints g =
    [Graph.makePoint 0 0; Graph.makePoint 4 0; Graph.makePoint 0 6;
     Graph.makePoint 4 3; Graph.makePoint 2 6]%float /\
  Graph.optimalPoint g = Some (Graph.makePoint 2 6) /\
  Graph.optimalValue g = 36%float /\
  SimplexSolution.optimalValue
    (fst (solve example_objective example_matrix example_rhs true example_variables))
  = 36%float.
Proof. vm_compute. repeat split. Qed.

(** ** Problems whose right-hand sides are all zero *)




Lemma zeroOrNaN_nan : zeroOrNaN nan = true.
Proof. reflexivity. Qed.




Lemma ltb_opp_zero (x : float) : (- x <? 0)%float = (0 <? x)%float.
Proof.
  rewrite !ltb_spec, opp_spec. change (Prim2SF 0) with (S754_zero false).
  destruct (Prim2SF x) as [s|s| |s m e]; try reflexivity; destruct s; reflexivity.
Qed.

Lemma mapi_from_In {A B} (f : nat -> A -> B) k l y d :
  In y (JS.mapi_from f k l) ->
  exists i, i < length l /\ y = f (k + i) (nth i l d).
Proof.
  revert k. induction l as [|x l IH]; intros k; simpl; [intros []|].
  intros [<- | H].
  - exists 0. split; [lia|]. rewrite Nat.add_0_r. reflexivity.
  - destruct (IH _ H) as (i & Hi & ->). exists (S i). split; [lia|].
    f_equal. lia.
Qed.

Lemma mapi_In {A B} (f : nat -> A -> B) l y d :
  In y (JS.mapi f l) -> exists i, i < length l /\ y = f i (nth i l d).
Proof. intros H. apply (mapi_from_In f 0 l y d) in H. exact H. Qed.

Lemma get_map f (l : list float) j :
  j < length l -> JS.get (map f l) j = f (JS.get l j).
Proof.
  intros H. unfold JS.get. rewrite nth_indep with (d' := f nan) by (rewrite length_map; auto).
  apply map_nth.
Qed.






Lemma nth_last_app {A} (l : list A) y d : nth (length (l ++ [y]) - 1) (l ++ [y]) d = y.
Proof.
  rewrite length_app. simpl. rewrite Nat.add_sub.
  rewrite app_nth2, Nat.sub_diag by lia. reflexivity.
Qed.

Lemma objectiveRow_initial o A b mx vars :
  objectiveRow (SimplexSolver.createInitialTableau
                  (SimplexSolver.convertToStandardForm o A b mx vars)) =
  map (fun c => (- c)%float)
      ((if mx then o else map (fun c => (- c)%float) o) ++ repeat 0%float (length A))
  ++ [0%float].
Proof. simpl. apply nth_last_app. Qed.






Lemma final_after_one_round o A b mx vars :
  SimplexSolver.findEnteringVariable
    (SimplexSolver.createInitialTableau
       (SimplexSolver.convertToStandardForm o A b mx vars)) = (-1)%Z ->
  Solve.final o A b mx vars =
  Loop.make
    [set_isOptimal true
       (SimplexSolver.createInitialTableau
          (SimplexSolver.convertToStandardForm o A b mx vars))]
    [0] (Loop.steps (Solve.init o A b mx vars)) 0 1.
Proof.
  intros He. unfold Solve.final.
  change SimplexSolver.maxIterations with (S 49). rewrite loop_unfold.
  change (Solve.guard (Solve.init o A b mx vars)) with true. cbv iota.
  unfold Solve.body.
  change (Store.deref (Loop.store (Solve.init o A b mx vars))
            (Loop.currentTableau (Solve.init o A b mx vars)))
    with (SimplexSolver.createInitialTableau
            (SimplexSolver.convertToStandardForm o A b mx vars)).
  rewrite He. reflexivity.
Qed.




(** Where the value is NaN: an infinite objective coefficient makes the
    multiplier of the objective row infinite, and infinity times 0 is NaN. *)
Example all_zero_rhs_value_nan :
  is_nan (SimplexSolution.optimalValue
            (fst (solve [infinity] [[1]]%float [0]%float true ["x"]%string)))
  = true.
Proof. vm_compute. reflexivity. Qed.

(** * The whole run of [solve], what it returns, and more on the graphical
      method *)

(** ** The run of [solve] as a chain of pivots *)

Lemma map_deref_seq (h : Store.t) : map (Store.deref h) (seq 0 (length h)) = h.
Proof.
  apply nth_ext with (d := dummy) (d' := dummy).
  - rewrite length_map, length_seq. reflexivity.
  - intros n Hn. rewrite length_map, length_seq in Hn.
    rewrite (nth_indep _ dummy (Store.deref h 0))
      by (rewrite length_map, length_seq; exact Hn).
    rewrite map_nth, seq_nth by exact Hn. reflexivity.
Qed.

(** The history of a solution is the store, in order. *)
Lemma history_store st :
  wf st -> map (Store.deref (Loop.store st)) (Loop.iterations st) = Loop.store st.
Proof. intros W. rewrite (wf_iterations st W). apply map_deref_seq. Qed.

Lemma same_matrix_and_basis_sym x y :
  same_matrix_and_basis x y -> same_matrix_and_basis y x.
Proof. unfold same_matrix_and_basis. intros (?&?&?&?&?&?). repeat split; congruence. Qed.

(** The rules and the pivot read the matrix and the basis only. *)
Lemma way_of_same x y : same_matrix_and_basis x y -> way_of x = way_of y.
Proof.
  destruct x, y. unfold same_matrix_and_basis. simpl.
  intros (-> & -> & -> & -> & -> & ->). reflexivity.
Qed.

Lemma findEnteringVariable_same x y :
  same_matrix_and_basis x y ->
  SimplexSolver.findEnteringVariable x = SimplexSolver.findEnteringVariable y.
Proof.
  destruct x, y. unfold same_matrix_and_basis. simpl.
  intros (-> & -> & -> & -> & -> & ->). reflexivity.
Qed.

Lemma findLeavingVariable_same x y col :
  same_matrix_and_basis x y ->
  SimplexSolver.findLeavingVariable x col = SimplexSolver.findLeavingVariable y col.
Proof.
  destruct x, y. unfold same_matrix_and_basis. simpl.
  intros (-> & -> & -> & -> & -> & ->). reflexivity.
Qed.

Lemma isOptimal_same x y :
  same_matrix_and_basis x y -> SimplexSolver.isOptimal x = SimplexSolver.isOptimal y.
Proof.
  destruct x, y. unfold same_matrix_and_basis. simpl.
  intros (-> & -> & -> & -> & -> & ->). reflexivity.
Qed.

Lemma pivotOperation_same x y row col :
  same_matrix_and_basis x y ->
  SimplexSolver.pivotOperation x row col = SimplexSolver.pivotOperation y row col.
Proof.
  destruct x, y. unfold same_matrix_and_basis. simpl.
  intros (-> & -> & -> & -> & -> & ->). reflexivity.
Qed.

Lemma pivots_to_same_r x y y' :
  same_matrix_and_basis y' y -> pivots_to x y -> pivots_to x y'.
Proof.
  intros Hy (col & row & H1 & H2 & H3 & H4 & H5 & H6).
  exists col, row. repeat (split; [assumption|]).
  eapply same_matrix_and_basis_trans; eauto.
Qed.

(** The assignments [solve] makes to the current tableau leave its matrix
    and its basis alone. *)
Lemma note_same col row x :
  same_matrix_and_basis (noteLeaving row (noteEntering col x)) x.
Proof. repeat split. Qed.

Lemma finishNew_same n x : same_matrix_and_basis (finishNew n x) (set_iteration n x).
Proof. unfold finishNew. destruct (SimplexSolver.isOptimal _); repeat split. Qed.

Lemma chained_init o A b mx vars :
  chained (initialTableau o A b mx vars) (Solve.init o A b mx vars).
Proof.
  constructor.
  - apply same_matrix_and_basis_refl.
  - simpl. intros r Hr. lia.
  - split; unfold current; simpl; discriminate.
Qed.

Lemma chained_step t0 st :
  at_head st -> chained t0 st ->
  Solve.guard st = true -> snd (Solve.body st) = false ->
  chained t0 (fst (Solve.body st)).
Proof.
  intros (W & Hlen & Hcnt & Hunb & Hit) [C0 CL CF] G B.
  destruct W as [Wcur Wit Wsh Wold].
  assert (Hc : Loop.currentTableau st < length (Loop.store st)) by lia.
  pose proof (body_store st Hc) as Hs.
  pose proof (body_rest st) as (Hn & Hr).
  destruct (way_of (current st)) as [|col|col row] eqn:Wy;
    try (destruct Hr as (_ & _ & Hr); congruence).
  destruct Hr as (Hi & Hcur' & _).
  set (h1 := Store.update (Loop.currentTableau st)
               (fun x => noteLeaving row (noteEntering col x)) (Loop.store st)) in *.
  assert (Hl1 : length h1 = length (Loop.store st)) by apply update_length.
  set (new := finishNew (Loop.iterationCount st + 1)
                (SimplexSolver.pivotOperation (current st) row col)) in *.
  assert (Hold : forall r, r < length (Loop.store st) ->
            same_matrix_and_basis (Store.deref (h1 ++ [new]) r)
                                  (Store.deref (Loop.store st) r) /\
            (r <> Loop.currentTableau st ->
             Store.deref (h1 ++ [new]) r = Store.deref (Loop.store st) r)).
  { intros r Hr. rewrite deref_app_l by lia. subst h1.
    destruct (Nat.eq_dec r (Loop.currentTableau st)) as [->|Hne].
    - rewrite deref_update_eq by auto. split; [apply note_same|congruence].
    - rewrite deref_update_neq by auto.
      split; [apply same_matrix_and_basis_refl|reflexivity]. }
  constructor.
  - rewrite Hs. eapply same_matrix_and_basis_trans; [|exact C0].
    apply Hold. lia.
  - rewrite Hs, Hcur'. intros r Hr.
    destruct (Nat.eq_dec r (Loop.currentTableau st)) as [->|Hne].
    + (* the link from the tableau that was current to the new one *)
      replace (Loop.currentTableau st + 1) with (length h1) by lia.
      rewrite deref_app_last, deref_app_l by lia.
      subst h1. rewrite deref_update_eq by auto. fold (current st).
      exists col, row.
      split; [rewrite (way_of_same _ _ (note_same col row (current st))); exact Wy|].
      do 4 (split; [reflexivity|]).
      eapply same_matrix_and_basis_trans; [apply finishNew_same|].
      rewrite (pivotOperation_same _ _ row col (note_same col row (current st))).
      change (iteration (noteLeaving row (noteEntering col (current st))))
        with (iteration (current st)).
      rewrite Hit. apply same_matrix_and_basis_refl.
    + (* the links before *)
      assert (Hr' : r < Loop.currentTableau st) by lia.
      destruct (Hold r ltac:(lia)) as (_ & He). rewrite He by auto.
      eapply pivots_to_same_r; [|apply CL; exact Hr'].
      apply Hold. lia.
  - unfold current. rewrite Hs, Hcur'.
    replace (length (Loop.store st)) with (length h1) by lia.
    rewrite deref_app_last. subst new. unfold finishNew.
    destruct (SimplexSolver.isOptimal _) eqn:E; split; simpl; try discriminate.
    intros _. right. exact E.
Qed.

Lemma chained_break t0 st :
  at_head st -> chained t0 st ->
  Solve.guard st = true -> snd (Solve.body st) = true ->
  chained t0 (fst (Solve.body st)).
Proof.
  intros (W & Hlen & Hcnt & Hunb & Hit) [C0 CL CF] G B.
  destruct W as [Wcur Wit Wsh Wold].
  assert (Hc : Loop.currentTableau st < length (Loop.store st)) by lia.
  pose proof (body_store st Hc) as Hs.
  pose proof (body_rest st) as (Hn & Hr).
  pose proof (guard_flags _ G) as [Gopt Gunb].
  destruct (way_of (current st)) as [|col|col row] eqn:Wy;
    try (destruct Hr as (_ & _ & Hr); congruence);
    destruct Hr as (Hi & Hcur' & _).
  - assert (Hold : forall r,
              same_matrix_and_basis (Store.deref (Loop.store (fst (Solve.body st))) r)
                                    (Store.deref (Loop.store st) r) /\
              (r <> Loop.currentTableau st ->
               Store.deref (Loop.store (fst (Solve.body st))) r
               = Store.deref (Loop.store st) r)).
    { intros r. rewrite Hs.
      destruct (Nat.eq_dec r (Loop.currentTableau st)) as [->|Hne].
      - rewrite deref_update_eq by auto. split; [repeat split|congruence].
      - rewrite deref_update_neq by auto.
        split; [apply same_matrix_and_basis_refl|reflexivity]. }
    constructor.
    + eapply same_matrix_and_basis_trans; [apply Hold|exact C0].
    + rewrite Hcur'. intros r Hr.
      destruct (Hold r) as (_ & He). rewrite He by lia.
      eapply pivots_to_same_r; [apply Hold|apply CL; exact Hr].
    + unfold current. rewrite Hs, Hcur', deref_update_eq by auto.
      fold (current st). split; simpl.
      * intros _. left. apply way_of_optimal in Wy. exact Wy.
      * intros H. congruence.
  - assert (Hold : forall r,
              same_matrix_and_basis (Store.deref (Loop.store (fst (Solve.body st))) r)
                                    (Store.deref (Loop.store st) r) /\
              (r <> Loop.currentTableau st ->
               Store.deref (Loop.store (fst (Solve.body st))) r
               = Store.deref (Loop.store st) r)).
    { intros r. rewrite Hs.
      destruct (Nat.eq_dec r (Loop.currentTableau st)) as [->|Hne].
      - rewrite deref_update_eq by auto. split; [repeat split|congruence].
      - rewrite deref_update_neq by auto.
        split; [apply same_matrix_and_basis_refl|reflexivity]. }
    constructor.
    + eapply same_matrix_and_basis_trans; [apply Hold|exact C0].
    + rewrite Hcur'. intros r Hr.
      destruct (Hold r) as (_ & He). rewrite He by lia.
      eapply pivots_to_same_r; [apply Hold|apply CL; exact Hr].
    + unfold current. rewrite Hs, Hcur', deref_update_eq by auto.
      fold (current st). split; simpl.
      * intros H. congruence.
      * intros _. exists col. apply way_of_unbounded in Wy.
        destruct Wy as (He & _ & Hl). split; [exact He|exact Hl].
Qed.

(** When [solve] leaves the loop the store is a chain of pivots from the
    initial tableau, one tableau per reference of the history. *)
Lemma chained_final o A b mx vars :
  let st := Solve.final o A b mx vars in
  chained (initialTableau o A b mx vars) st /\ at_exit st.
Proof.
  unfold Solve.final.
  apply loop_rule
    with (I := fun st => at_head st /\ chained (initialTableau o A b mx vars) st)
         (Q := fun st => chained (initialTableau o A b mx vars) st /\ at_exit st).
  - intros st (H & C) G. split; [exact C|apply at_exit_guard; auto].
  - intros st (H & C) G B. split; [apply chained_break|apply at_exit_break]; auto.
  - intros st (H & C) G B. split; [apply at_head_step|apply chained_step]; auto.
  - split; [apply at_head_init|apply chained_init].
  - lia.
Qed.

(** The tableau number [i] of the chain has [iteration = i]. *)
Lemma chained_iteration t0 st :
  iteration t0 = 0 -> chained t0 st ->
  forall r, r <= Loop.currentTableau st ->
    iteration (Store.deref (Loop.store st) r) = r.
Proof.
  intros H0 [C0 CL _]. induction r as [|r IH]; intros Hr.
  - destruct C0 as (_ & _ & _ & _ & _ & Hi). congruence.
  - destruct (CL r ltac:(lia)) as (col & row & _ & _ & _ & _ & _ & Hy).
    destruct Hy as (_ & _ & _ & _ & _ & Hi).
    replace (S r) with (r + 1) by lia. rewrite Hi. simpl. rewrite IH by lia. lia.
Qed.

(** An invariant of the chain holds for every tableau of the store. *)
Lemma chained_invariant (P : SimplexTableau.t -> Prop) t0 st :
  (forall x y, same_matrix_and_basis x y -> P y -> P x) ->
  (forall t col row, P t -> way_of t = Pivot col row ->
     P (set_iteration (iteration t + 1) (SimplexSolver.pivotOperation t row col))) ->
  P t0 -> chained t0 st ->
  forall r, r <= Loop.currentTableau st -> P (Store.deref (Loop.store st) r).
Proof.
  intros Hext Hpiv H0 [C0 CL _]. induction r as [|r IH]; intros Hr.
  - eapply Hext; eauto.
  - destruct (CL r ltac:(lia)) as (col & row & Hw & _ & _ & _ & _ & Hy).
    replace (S r) with (r + 1) by lia.
    eapply Hext; [exact Hy|]. apply Hpiv; auto. apply IH. lia.
Qed.

(** ** The history [solve] returns *)

Lemma solve_history o A b mx vars :
  history (fst (solve o A b mx vars)) (snd (solve o A b mx vars))
  = Loop.store (Solve.final o A b mx vars).
Proof.
  unfold history, solve. simpl. apply history_store.
  apply (at_exit_final o A b mx vars).
Qed.

Lemma final_current o A b mx vars :
  Loop.currentTableau (Solve.final o A b mx vars) + 1
  = length (Loop.store (Solve.final o A b mx vars)).
Proof. apply wf_cur. apply (at_exit_final o A b mx vars). Qed.

(** X1: the tableaus of the history are numbered 0, 1, 2, ... in their
    [iteration] field, in the order of the history. *)
Theorem history_iteration_numbers
    (o : list float) (A : list (list float)) (b : list float) (mx : bool)
    (vars : list string) :
  let s := fst (solve o A b mx vars) in
  let h := snd (solve o A b mx vars) in
  map iteration (history s h) = seq 0 (length (history s h)).
Proof.
  cbv zeta. rewrite solve_history.
  pose proof (chained_final o A b mx vars) as (C & _).
  pose proof (final_current o A b mx vars) as Hc.
  set (st := Solve.final o A b mx vars) in *.
  apply nth_ext with (d := 0) (d' := 0).
  - rewrite length_map, length_seq. reflexivity.
  - intros n Hn. rewrite length_map in Hn.
    rewrite (nth_indep _ 0 (iteration dummy)) by (rewrite length_map; exact Hn).
    rewrite map_nth, seq_nth by exact Hn.
    apply (chained_iteration (initialTableau o A b mx vars) st (eq_refl 0) C). lia.
Qed.

(** X2: the history is one chain of pivots.  It starts with the initial
    tableau; every tableau but the last records the column and the row that
    the entering and the leaving rule choose on it, with the names of the
    entering and the leaving variable, and the next tableau holds the pivot
    of it on that row and column. *)
Theorem history_is_pivot_chain
    (o : list float) (A : list (list float)) (b : list float) (mx : bool)
    (vars : list string) :
  let s := fst (solve o A b mx vars) in
  let h := snd (solve o A b mx vars) in
  let hist := history s h in
  1 <= length hist /\
  same_matrix_and_basis (nth 0 hist dummy) (initialTableau o A b mx vars) /\
  forall i, i + 1 < length hist ->
    pivots_to (nth i hist dummy) (nth (i + 1) hist dummy).
Proof.
  cbv zeta. rewrite solve_history.
  pose proof (chained_final o A b mx vars) as ([C0 CL _] & _).
  pose proof (final_current o A b mx vars) as Hc.
  split; [lia|]. split; [exact C0|].
  intros i Hi. apply CL. lia.
Qed.

Lemma removelast_nth {X} (l : list X) (P : X -> Prop) d :
  (forall i, i + 1 < length l -> P (nth i l d)) -> Forall P (removelast l).
Proof.
  induction l as [|x l IH]; intros H; [constructor|].
  destruct l as [|y l]; [constructor|].
  change (removelast (x :: y :: l)) with (x :: removelast (y :: l)).
  constructor.
  - apply (H 0). simpl. lia.
  - apply IH. intros i Hi. apply (H (S i)). simpl in *. lia.
Qed.

(** X3: only the last tableau of the history can be flagged: every earlier
    one has [isOptimal] and [isUnbounded] false. *)
Theorem history_flags_only_on_last
    (o : list float) (A : list (list float)) (b : list float) (mx : bool)
    (vars : list string) :
  let s := fst (solve o A b mx vars) in
  let h := snd (solve o A b mx vars) in
  Forall flags_clear (removelast (history s h)).
Proof.
  cbv zeta. rewrite solve_history.
  pose proof (at_exit_final o A b mx vars) as (W & _).
  pose proof (final_current o A b mx vars) as Hc.
  apply removelast_nth with (d := dummy). intros i Hi.
  apply (wf_old _ W). lia.
Qed.

(** X4: what a flag of the solution stands for.  [isOptimal] is only set
    when the last tableau has no negative entry of the objective row in the
    columns the entering rule scans, or no entry of the objective row below
    [-1e-10] in any column; [isUnbounded] only when the entering rule finds
    a column and no row of that column has a positive entry with a ratio
    below [+Infinity]. *)
Theorem solve_flags_justified
    (o : list float) (A : list (list float)) (b : list float) (mx : bool)
    (vars : list string) :
  let s := fst (solve o A b mx vars) in
  let h := snd (solve o A b mx vars) in
  let t := last (history s h) dummy in
  (SimplexSolution.isOptimal s = true ->
   (forall j, j < length (nonBasicVariables t) ->
      (JS.get (objectiveRow t) j <? 0)%float = false) \/
   (forall j, j < length (objectiveRow t) - 1 ->
      (JS.get (objectiveRow t) j <? SimplexSolver.minus_1e_10)%float = false)) /\
  (SimplexSolution.isUnbounded s = true ->
   exists col, col < length (nonBasicVariables t) /\
     (JS.get (objectiveRow t) col <? 0)%float = true /\
     forall i, i < length (rhsColumn t) - 1 ->
       JS.gtb (entry t col i) 0 = true ->
       (ratio t col i <? infinity)%float = false).
Proof.
  cbv zeta.
  pose proof (chained_final o A b mx vars) as ([_ _ [Fo Fu]] & (W & _)).
  unfold history, solve. simpl.
  rewrite <- (current_last _ W).
  set (t := current (Solve.final o A b mx vars)) in *.
  split.
  - intros H. destruct (Fo H) as [He | Ho].
    + left. destruct (findEnteringVariable_first_columns t) as [(_ & Hn) | (k & Hk & _)].
      * exact Hn.
      * rewrite He in Hk. lia.
    + right. intros j Hj. unfold SimplexSolver.isOptimal in Ho.
      rewrite forallb_forall in Ho.
      specialize (Ho j). rewrite in_seq in Ho.
      apply negb_true_iff. apply Ho. lia.
  - intros H. destruct (Fu H) as (col & He & Hl).
    exists col.
    destruct (findEnteringVariable_first_columns t) as [(Hm & _) | (k & Hk & Hlt & Hneg & _)].
    + rewrite He in Hm. lia.
    + assert (k = col) by (rewrite He in Hk; lia). subst k.
      split; [exact Hlt|]. split; [exact Hneg|].
      intros i Hi Hpos.
      destruct (findLeavingVariable_scanned t col) as (m & [(_ & _ & Hno) | (k & Hk' & _)]).
      * apply Hno; auto.
      * simpl in Hk'. rewrite Hl in Hk'. lia.
Qed.

(** ** What every pivot of [solve] keeps *)

Lemma way_of_pivot_sound t col row :
  shape t -> way_of t = Pivot col row ->
  col < length (nonBasicVariables t) /\
  row < length (basicVariables t) /\
  (JS.get (objectiveRow t) col <? 0)%float = true /\
  JS.gtb (entry t col row) 0 = true /\
  (ratio t col row <? infinity)%float = true.
Proof.
  intros (Hs1 & Hs2) Hw.
  destruct (way_of_pivot _ _ _ Hw) as (He & Hl & Hc & Hr).
  split; [exact Hc|]. split; [lia|].
  split.
  - destruct (findEnteringVariable_first_columns t) as [(Hm & _) | (k & Hk & _ & Hneg & _)].
    + rewrite He in Hm. lia.
    + assert (k = col) by (rewrite He in Hk; lia). subst k. exact Hneg.
  - destruct (findLeavingVariable_scanned t col)
      as (m & [(Hm & _) | (k & Hk & _ & _ & Hpos & Hlt & _)]);
      simpl in *.
    + rewrite Hl in Hm. lia.
    + assert (k = row) by (rewrite Hl in Hk; lia). subst k. auto.
Qed.

(** X5: every pivot [solve] makes is one the rules allow: the column has a
    negative entry in the objective row and the pivot element is strictly
    positive, so no pivot divides by zero, by a negative number or by NaN. *)
Theorem history_pivots_sound
    (o : list float) (A : list (list float)) (b : list float) (mx : bool)
    (vars : list string) :
  let s := fst (solve o A b mx vars) in
  let h := snd (solve o A b mx vars) in
  Forall sound_pivot (removelast (history s h)).
Proof.
  cbv zeta. rewrite solve_history.
  pose proof (chained_final o A b mx vars) as ([_ CL _] & (W & _)).
  pose proof (final_current o A b mx vars) as Hc.
  apply removelast_nth with (d := dummy). intros i Hi.
  destruct (CL i ltac:(lia)) as (col & row & Hw & Hpc & Hpr & _).
  assert (Hsh : shape (Store.deref (Loop.store (Solve.final o A b mx vars)) i)).
  { apply Forall_deref; [apply (wf_shape _ W)|lia]. }
  destruct (way_of_pivot_sound _ _ _ Hsh Hw) as (H1 & H2 & H3 & H4 & H5).
  exists col, row. repeat (split; [assumption|]). assumption.
Qed.

(** *** Dimensions *)

Lemma map_length_mapi {X} (f : nat -> list X -> list X) (l : list (list X)) :
  (forall i x, length (f i x) = length x) ->
  map (@length X) (JS.mapi f l) = map (@length X) l.
Proof.
  intros Hf. unfold JS.mapi. generalize 0.
  induction l as [|x l IH]; intros k; simpl; [reflexivity|].
  rewrite Hf, IH. reflexivity.
Qed.

Lemma map_length_set {X} i (v : list X) (l : list (list X)) :
  length v = length (nth i l []) ->
  map (@length X) (JS.set i v l) = map (@length X) l.
Proof.
  revert i. induction l as [|x l IH]; intros [|i] Hv; simpl in *; try reflexivity.
  - rewrite Hv. reflexivity.
  - rewrite IH by exact Hv. reflexivity.
Qed.

Lemma pivotOperation_consistent m widths n t r c :
  consistent m widths n t ->
  consistent m widths n (SimplexSolver.pivotOperation t r c).
Proof.
  intros (H1 & H2 & H3 & H4 & H5 & H6).
  unfold consistent, SimplexSolver.pivotOperation. cbv zeta. simpl.
  rewrite !mapi_length, !set_length.
  split; [exact H1|]. split.
  - rewrite map_length_mapi.
    + rewrite map_length_set; [exact H2|]. apply length_map.
    + intros i x. destruct (Nat.eqb i r); [reflexivity|]. apply mapi_length.
  - split; [rewrite H1; replace (m + 1 - 1) with m by lia; reflexivity|].
    split; [reflexivity|]. split; assumption.
Qed.

Lemma consistent_same m widths n x y :
  same_matrix_and_basis x y -> consistent m widths n y -> consistent m widths n x.
Proof.
  intros (E1 & E2 & E3 & E4 & E5 & E6) (H1 & H2 & H3 & H4 & H5 & H6).
  unfold consistent. rewrite E1, E2, E3, E4, E5. repeat split; assumption.
Qed.

Lemma initialTableau_consistent o A b mx vars :
  let t0 := initialTableau o A b mx vars in
  consistent (length A) (map (@length float) (tableau t0))
    (length (nonBasicVariables t0)) t0.
Proof.
  cbv zeta. unfold consistent, initialTableau, SimplexSolver.createInitialTableau.
  cbv zeta. simpl.
  rewrite !length_app, !mapi_length. simpl.
  split; [reflexivity|]. split; [reflexivity|].
  split; [replace (length A + 1 - 1) with (length A) by lia; reflexivity|].
  split; [reflexivity|]. split; [|reflexivity].
  rewrite length_map, length_seq. reflexivity.
Qed.

Lemma store_forall (P : SimplexTableau.t -> Prop) (h : Store.t) :
  (forall r, r < length h -> P (Store.deref h r)) -> Forall P h.
Proof.
  intros H. apply Forall_forall. intros x Hx.
  destruct (In_nth _ _ dummy Hx) as (r & Hr & <-). apply H. exact Hr.
Qed.

Lemma final_store_consistent o A b mx vars :
  let t0 := initialTableau o A b mx vars in
  Forall (consistent (length A) (map (@length float) (tableau t0))
            (length (nonBasicVariables t0)))
         (Loop.store (Solve.final o A b mx vars)).
Proof.
  cbv zeta.
  pose proof (chained_final o A b mx vars) as (C & _).
  pose proof (final_current o A b mx vars) as Hc.
  apply store_forall. intros r Hr.
  apply (chained_invariant _ _ _
           (consistent_same _ _ _)
           (fun t col row Ht _ =>
              consistent_same _ _ _ _ _ ltac:(repeat split)
                (pivotOperation_consistent _ _ _ t row col Ht))
           (initialTableau_consistent o A b mx vars) C).
  lia.
Qed.

(** X6: the dimensions of the tableau never change, and the two fields that
    repeat a part of the matrix stay in step with it: every tableau of the
    history has one row per constraint and the objective row, rows as long
    as those of the initial tableau, [objectiveRow] equal to the last row,
    [rhsColumn] equal to the last column, one basic variable per constraint
    and as many non-basic variables as the initial tableau. *)
Theorem history_dimensions
    (o : list float) (A : list (list float)) (b : list float) (mx : bool)
    (vars : list string) :
  let s := fst (solve o A b mx vars) in
  let h := snd (solve o A b mx vars) in
  let t0 := initialTableau o A b mx vars in
  Forall (consistent (length A) (map (@length float) (tableau t0))
            (length (nonBasicVariables t0)))
         (history s h) /\
  ((forall row, In row A -> length row = length o) ->
   Forall (fun t => Forall (fun row => length row = length o + length A + 1)
                           (tableau t))
          (history s h)).
Proof.
  cbv zeta. rewrite solve_history.
  pose proof (final_store_consistent o A b mx vars) as Hall. cbv zeta in Hall.
  split; [exact Hall|].
  intros Hrect. eapply Forall_impl; [|exact Hall].
  intros t (_ & Hw & _). apply Forall_forall. intros row Hrow.
  apply (in_map (@length float)) in Hrow. rewrite Hw in Hrow.
  apply in_map_iff in Hrow. destruct Hrow as (row0 & <- & Hin).
  revert Hin. unfold initialTableau, SimplexSolver.createInitialTableau.
  cbv zeta. simpl. intros Hin. apply in_app_or in Hin. destruct Hin as [Hin | [<- | []]].
  - destruct (mapi_In _ _ _ [] Hin) as (i & Hi & ->).
    rewrite mapi_length in Hi. unfold JS.mapi.
    rewrite mapi_from_nth with (dA := []) by exact Hi.
    rewrite !length_app, length_map, length_seq. simpl.
    rewrite (Hrect (nth i A [])) by (apply nth_In; exact Hi). lia.
  - rewrite length_app, length_map, length_app, repeat_length. simpl.
    destruct mx; rewrite ?length_map; lia.
Qed.

(** *** The names of the variables *)

Lemma set_split {X} i (l : list X) d :
  i < length l ->
  exists l1 l2, l = l1 ++ nth i l d :: l2 /\
                forall v, JS.set i v l = l1 ++ v :: l2.
Proof.
  revert i. induction l as [|x l IH]; intros [|i] Hi; simpl in *; try lia.
  - exists [], l. split; [reflexivity|]. intros v. reflexivity.
  - destruct (IH i ltac:(lia)) as (l1 & l2 & E & Hset).
    exists (x :: l1), l2. split.
    + simpl. rewrite <- E. reflexivity.
    + intros v. simpl. rewrite Hset. reflexivity.
Qed.

Lemma swap_Permutation {X} (l1 l2 : list X) i j d :
  i < length l1 -> j < length l2 ->
  Permutation (JS.set i (nth j l2 d) l1 ++ JS.set j (nth i l1 d) l2) (l1 ++ l2).
Proof.
  intros Hi Hj.
  destruct (set_split i l1 d Hi) as (a1 & a2 & E1 & S1).
  destruct (set_split j l2 d Hj) as (b1 & b2 & E2 & S2).
  rewrite S1, S2.
  set (x := nth i l1 d) in *. set (y := nth j l2 d) in *.
  rewrite E1, E2.
  rewrite <- !app_assoc. apply Permutation_app_head. simpl.
  transitivity (y :: x :: a2 ++ b1 ++ b2).
  - apply perm_skip. rewrite app_assoc. symmetry.
    rewrite app_assoc. apply Permutation_cons_app. reflexivity.
  - transitivity (x :: y :: a2 ++ b1 ++ b2); [apply perm_swap|].
    apply perm_skip. rewrite app_assoc.
    rewrite (app_assoc a2 b1 (y :: b2)). apply Permutation_cons_app. reflexivity.
Qed.

(** X7: pivoting only moves names between the two lists: in every tableau
    of the history the basic and the non-basic variables together are,
    up to their order, the slack names [s1 .. sm] and the names the initial
    tableau took for its columns. *)
Theorem history_names_permuted
    (o : list float) (A : list (list float)) (b : list float) (mx : bool)
    (vars : list string) :
  let s := fst (solve o A b mx vars) in
  let h := snd (solve o A b mx vars) in
  let m := length A in
  Forall (fun t => Permutation (basicVariables t ++ nonBasicVariables t)
                     (slackNames m ++ firstn (length o) (vars ++ slackNames m)))
         (history s h).
Proof.
  cbv zeta. rewrite solve_history.
  pose proof (chained_final o A b mx vars) as (C & _).
  pose proof (final_current o A b mx vars) as Hc.
  apply store_forall. intros r Hr.
  set (Q := fun t : SimplexTableau.t =>
              shape t /\
              Permutation (basicVariables t ++ nonBasicVariables t)
                (slackNames (length A)
                 ++ firstn (length o) (vars ++ slackNames (length A)))).
  enough (HQ : Q (Store.deref (Loop.store (Solve.final o A b mx vars)) r))
    by apply HQ.
  apply (chained_invariant Q (initialTableau o A b mx vars)); try exact C; try lia.
  - intros x y (E1 & E2 & E3 & E4 & E5 & E6) ((S1 & S2) & HP).
    split; [split; congruence|]. rewrite E2, E3. exact HP.
  - intros t col row (Hsh & HP) Hw.
    destruct (way_of_pivot_sound _ _ _ Hsh Hw) as (Hcol & Hrow & _).
    split.
    + apply (pivotOperation_shape t row col) in Hsh.
      destruct Hsh as (S1 & S2). split; assumption.
    + simpl. etransitivity; [|exact HP].
      apply swap_Permutation; assumption.
  - split; [apply createInitialTableau_shape|]. reflexivity.
Qed.

(** ** The log of steps *)

(** The loop body only appends to the log, and nothing else depends on what
    the log holds. *)
Lemma body_steps_app st :
  Solve.body st =
  (Loop.make (Loop.store (fst (Solve.body (unlogged st))))
     (Loop.iterations (fst (Solve.body (unlogged st))))
     (Loop.steps st ++ logged st)
     (Loop.currentTableau (fst (Solve.body (unlogged st))))
     (Loop.iterationCount (fst (Solve.body (unlogged st)))),
   snd (Solve.body (unlogged st))).
Proof.
  unfold logged, unlogged, Solve.body. cbv zeta. simpl.
  destruct (_ =? -1)%Z; [simpl; rewrite app_nil_r; reflexivity|].
  destruct (_ =? -1)%Z; [simpl; rewrite <- !app_assoc; reflexivity|].
  unfold Store.alloc.
  destruct (SimplexSolver.isOptimal _); simpl; rewrite <- !app_assoc; reflexivity.
Qed.

Lemma body_steps st : Loop.steps (fst (Solve.body st)) = Loop.steps st ++ logged st.
Proof. rewrite body_steps_app. reflexivity. Qed.

Lemma carried_app l1 l2 : carried (l1 ++ l2) = carried l1 ++ carried l2.
Proof. apply flat_map_app. Qed.

(** The tableaus one round logs, by the way it takes through the body. *)
Lemma logged_spec st :
  Loop.currentTableau st < length (Loop.store st) ->
  carried (logged st) =
  match way_of (current st) with
  | Pivot _ _ => [("pivot"%string, length (Loop.store st))]
  | _ => []
  end.
Proof.
  intros Hcur. unfold logged, unlogged, Solve.body, way_of, current. cbv zeta. simpl.
  set (t := Store.deref (Loop.store st) (Loop.currentTableau st)).
  set (e := SimplexSolver.findEnteringVariable t).
  destruct (e =? -1)%Z eqn:E; [reflexivity|].
  rewrite !update_update.
  rewrite !deref_update_eq by (rewrite ?update_length; auto).
  fold t.
  change (SimplexSolver.findLeavingVariable
            (set_pivotColumn (Some (Z.to_nat e))
               (set_enteringVariable (nth_error (nonBasicVariables t) (Z.to_nat e)) t))
            (Z.to_nat e))
    with (SimplexSolver.findLeavingVariable t (Z.to_nat e)).
  set (l := SimplexSolver.findLeavingVariable t (Z.to_nat e)).
  destruct (l =? -1)%Z eqn:L; [reflexivity|].
  unfold Store.alloc. rewrite !update_length.
  destruct (SimplexSolver.isOptimal _); reflexivity.
Qed.

Lemma log_carries_init o A b mx vars : log_carries (Solve.init o A b mx vars).
Proof. split; reflexivity. Qed.

Lemma repeat_snoc {X} (x : X) n : repeat x n ++ [x] = repeat x (S n).
Proof. induction n as [|n IH]; simpl; [reflexivity|]. rewrite IH. reflexivity. Qed.

Lemma log_carries_body st :
  at_head st -> log_carries st -> Solve.guard st = true ->
  log_carries (fst (Solve.body st)).
Proof.
  intros (W & Hlen & _) (L1 & L2) G.
  assert (Hc : Loop.currentTableau st < length (Loop.store st))
    by (pose proof (wf_cur _ W); lia).
  pose proof (body_rest st) as (Hn & Hr).
  pose proof (logged_spec st Hc) as Hl.
  assert (Hk : 1 <= length (Loop.iterations st))
    by (rewrite (wf_iterations _ W), length_seq; lia).
  unfold log_carries. rewrite body_steps, carried_app, Hl, !map_app, L1, L2.
  destruct (way_of (current st)) as [|col|col row];
    destruct Hr as (Hi & _ & _); rewrite Hi; simpl;
    rewrite ?app_nil_r; try (split; reflexivity).
  rewrite length_app. simpl.
  replace (length (Loop.iterations st) + 1 - 1)
    with (S (length (Loop.iterations st) - 1)) by lia.
  rewrite <- repeat_snoc. split; reflexivity.
Qed.

(** X8: the log and the history go together.  The steps that carry a
    tableau are, in order, the step [initial_tableau] and the steps
    [pivot], and the tableaus they carry are the tableaus of the history in
    its order: every tableau of the history is shown by one step, the
    initial one by [initial_tableau] and each later one by the [pivot] that
    made it. *)
Theorem solve_steps_carry_history
    (o : list float) (A : list (list float)) (b : list float) (mx : bool)
    (vars : list string) :
  let s := fst (solve o A b mx vars) in
  let k := length (SimplexSolution.iterations s) in
  map snd (carried (SimplexSolution.steps s)) = SimplexSolution.iterations s /\
  map fst (carried (SimplexSolution.steps s))
  = "initial_tableau"%string :: repeat "pivot"%string (k - 1).
Proof.
  cbv zeta. unfold solve. simpl.
  change (log_carries (Solve.final o A b mx vars)).
  unfold Solve.final.
  apply loop_rule with (I := fun st => at_head st /\ log_carries st).
  - intros st (_ & L) _. exact L.
  - intros st (Hh & L) G _. apply log_carries_body; auto.
  - intros st (Hh & L) G B.
    split; [apply at_head_step; auto|apply log_carries_body; auto].
  - split; [apply at_head_init|apply log_carries_init].
  - lia.
Qed.

(** ** Minimization *)

(** The loop does not read the log: run on a state with the log emptied it
    ends in the same state, up to the steps that were in the log. *)
Lemma loop_unlogged fuel st :
  Solve.loop fuel st =
  Loop.make (Loop.store (Solve.loop fuel (unlogged st)))
    (Loop.iterations (Solve.loop fuel (unlogged st)))
    (Loop.steps st ++ Loop.steps (Solve.loop fuel (unlogged st)))
    (Loop.currentTableau (Solve.loop fuel (unlogged st)))
    (Loop.iterationCount (Solve.loop fuel (unlogged st))).
Proof.
  revert st. induction fuel as [|fuel IH]; intros st.
  - simpl. rewrite app_nil_r. destruct st; reflexivity.
  - rewrite !loop_unfold.
    change (Solve.guard (unlogged st)) with (Solve.guard st).
    destruct (Solve.guard st); [|simpl; rewrite app_nil_r; destruct st; reflexivity].
    rewrite (body_steps_app st). cbn [fst snd].
    destruct (snd (Solve.body (unlogged st))) eqn:B.
    + reflexivity.
    + rewrite IH. rewrite (IH (fst (Solve.body (unlogged st)))).
      cbn [Loop.steps Loop.store Loop.iterations Loop.currentTableau Loop.iterationCount].
      change (unlogged (Loop.make _ _ (Loop.steps st ++ logged st) _ _))
        with (unlogged (fst (Solve.body (unlogged st)))).
      rewrite <- app_assoc. reflexivity.
Qed.

Lemma convertToStandardForm_minimize o A b vars :
  SimplexSolver.convertToStandardForm o A b false vars
  = SimplexSolver.convertToStandardForm (map (fun c => (- c)%float) o) A b true vars.
Proof.
  unfold SimplexSolver.convertToStandardForm. rewrite length_map. reflexivity.
Qed.

(** X9: a minimization is run as the maximization of the negated objective:
    [solve] with [isMaximization = false] builds the same tableaus, the same
    history and the same values of the variables as [solve] on the negated
    coefficients with [isMaximization = true]; the optimal value it returns
    is the negation of the other, and the logs differ in the text of their
    first step only. *)
Theorem solve_minimize_as_maximize
    (o : list float) (A : list (list float)) (b : list float)
    (vars : list string) :
  let r1 := solve o A b false vars in
  let r2 := solve (map (fun c => (- c)%float) o) A b true vars in
  snd r1 = snd r2 /\
  SimplexSolution.iterations (fst r1) = SimplexSolution.iterations (fst r2) /\
  SimplexSolution.isOptimal (fst r1) = SimplexSolution.isOptimal (fst r2) /\
  SimplexSolution.isUnbounded (fst r1) = SimplexSolution.isUnbounded (fst r2) /\
  SimplexSolution.optimalSolution (fst r1)
  = SimplexSolution.optimalSolution (fst r2) /\
  SimplexSolution.optimalValue (fst r1)
  = (- SimplexSolution.optimalValue (fst r2))%float /\
  tl (SimplexSolution.steps (fst r1)) = tl (SimplexSolution.steps (fst r2)).
Proof.
  cbv zeta. unfold solve, Solve.final. cbn [fst snd].
  rewrite (loop_unlogged _ (Solve.init o A b false vars)).
  rewrite (loop_unlogged _ (Solve.init (map (fun c => (- c)%float) o) A b true vars)).
  assert (E : unlogged (Solve.init o A b false vars)
              = unlogged (Solve.init (map (fun c => (- c)%float) o) A b true vars)).
  { unfold unlogged, Solve.init. cbv zeta.
    rewrite convertToStandardForm_minimize. reflexivity. }
  rewrite E.
  set (r := Solve.loop _ (unlogged _)).
  unfold Solve.finish. cbn.
  repeat split; reflexivity.
Qed.

(** ** [extractSolution] *)

Lemma includes_In l s : SimplexSolver.includes l s = true <-> In s l.
Proof.
  unfold SimplexSolver.includes. rewrite existsb_exists. split.
  - intros (x & Hx & E). apply String.eqb_eq in E. subst. exact Hx.
  - intros H. exists s. split; [exact H|apply String.eqb_refl].
Qed.

(** Reading a key after an assignment. *)
Lemma lookup_assign k v o k' :
  lookup (SimplexSolver.assign k v o) k'
  = if String.eqb k' k then Some v else lookup o k'.
Proof.
  induction o as [|[k1 v1] o IH]; simpl; [reflexivity|].
  destruct (String.eqb k k1) eqn:E1; simpl.
  - apply String.eqb_eq in E1. subst k1.
    destruct (String.eqb k' k); reflexivity.
  - destruct (String.eqb k' k1) eqn:E2.
    + apply String.eqb_eq in E2. subst k1.
      rewrite String.eqb_sym, E1. reflexivity.
    + exact IH.
Qed.

Lemma lookup_None o k : lookup o k = None <-> ~ In k (map fst o).
Proof.
  induction o as [|[k1 v1] o IH]; simpl; [tauto|].
  destruct (String.eqb k k1) eqn:E.
  - apply String.eqb_eq in E. subst. split; [discriminate|]. intros H. tauto.
  - apply String.eqb_neq in E. rewrite IH. split; [intros H [H1|H1]; auto|tauto].
Qed.

Lemma keys_assign_old k v o :
  In k (map fst o) -> map fst (SimplexSolver.assign k v o) = map fst o.
Proof.
  induction o as [|[k1 v1] o IH]; simpl; [tauto|].
  intros H. destruct (String.eqb k k1) eqn:E; simpl.
  - apply String.eqb_eq in E. subst. reflexivity.
  - apply String.eqb_neq in E. rewrite IH; [reflexivity|].
    destruct H; [congruence|assumption].
Qed.

Lemma keys_assign_new k v o :
  ~ In k (map fst o) -> map fst (SimplexSolver.assign k v o) = map fst o ++ [k].
Proof.
  induction o as [|[k1 v1] o IH]; simpl; [reflexivity|].
  intros H. destruct (String.eqb k k1) eqn:E; simpl.
  - apply String.eqb_eq in E. subst. tauto.
  - rewrite IH by tauto. reflexivity.
Qed.

(** The first loop of [extractSolution]: every original variable is a key,
    once, with value 0. *)
Lemma zeros_spec (vars : list string) (acc : list (string * float)) :
  NoDup (map fst acc) ->
  let sol := fold_left (fun o v => SimplexSolver.assign v 0%float o) vars acc in
  NoDup (map fst sol) /\
  (forall v, In v (map fst sol) <-> In v (map fst acc) \/ In v vars) /\
  (forall v, In v vars -> lookup sol v = Some 0%float) /\
  (forall v, ~ In v vars -> lookup sol v = lookup acc v).
Proof.
  revert acc. induction vars as [|x vars IH]; intros acc Hnd; simpl.
  - repeat split; auto; tauto.
  - assert (Hnd' : NoDup (map fst (SimplexSolver.assign x 0%float acc))).
    { destruct (in_dec string_dec x (map fst acc)) as [Hin | Hin].
      - rewrite keys_assign_old by exact Hin. exact Hnd.
      - rewrite keys_assign_new by exact Hin.
        apply NoDup_app; [exact Hnd|repeat constructor; simpl; tauto|].
        intros y Hy [<- | []]. exact (Hin Hy). }
    destruct (IH _ Hnd') as (H1 & H2 & H3 & H4).
    split; [exact H1|]. split; [|split].
    + intros v. rewrite H2.
      destruct (in_dec string_dec x (map fst acc)) as [Hin | Hin].
      * rewrite keys_assign_old by exact Hin.
        split; [tauto|]. intros [H | [<- | H]]; tauto.
      * rewrite keys_assign_new by exact Hin. rewrite in_app_iff. simpl. tauto.
    + intros v [<- | Hv].
      * destruct (in_dec string_dec x vars) as [Hin | Hin]; [apply H3; exact Hin|].
        rewrite H4 by exact Hin. rewrite lookup_assign, String.eqb_refl. reflexivity.
      * apply H3. exact Hv.
    + intros v Hv. rewrite H4 by tauto. rewrite lookup_assign.
      destruct (String.eqb v x) eqn:E; [|reflexivity].
      apply String.eqb_eq in E. subst. tauto.
Qed.

Lemma combine_app_same {X Y} (a a' : list X) (b b' : list Y) :
  length a = length b -> combine (a ++ a') (b ++ b') = combine a b ++ combine a' b'.
Proof.
  revert b. induction a as [|x a IH]; intros [|y b] H; simpl in *;
    try discriminate; [reflexivity|].
  rewrite IH by lia. reflexivity.
Qed.

Lemma combine_seq_snoc {X} (l : list X) (x : X) :
  combine (seq 0 (length (l ++ [x]))) (l ++ [x])
  = combine (seq 0 (length l)) l ++ [(length l, x)].
Proof.
  rewrite length_app. simpl. rewrite seq_app. simpl.
  rewrite combine_app_same by apply length_seq. reflexivity.
Qed.

(** The second loop of [extractSolution], over the basic variables. *)
Lemma basics_spec (vars : list string) (rhs : list float) (basic : list string)
    (sol0 : list (string * float)) :
  (forall v, In v (map fst sol0) <-> In v vars) ->
  let sol :=
    fold_left (fun o iv =>
                 let '(i, variable) := iv in
                 if SimplexSolver.includes vars variable
                 then SimplexSolver.assign variable (JS.get rhs i) o
                 else o)
              (combine (seq 0 (length basic)) basic) sol0 in
  map fst sol = map fst sol0 /\
  (forall v, ~ In v basic -> lookup sol v = lookup sol0 v) /\
  (forall v i, In v vars -> nth_error basic i = Some v ->
     (forall j, i < j -> nth_error basic j <> Some v) ->
     lookup sol v = Some (JS.get rhs i)).
Proof.
  intros Hkeys. induction basic as [|x basic IH] using rev_ind; simpl.
  - split; [reflexivity|]. split; [reflexivity|].
    intros v [|i] _ H; discriminate.
  - rewrite combine_seq_snoc, fold_left_app. simpl.
    destruct IH as (K & Hout & Hin).
    set (sol := fold_left _ (combine (seq 0 (length basic)) basic) sol0) in *.
    destruct (SimplexSolver.includes vars x) eqn:Inc.
    + assert (Hx : In x vars) by (apply includes_In; exact Inc).
      split; [|split].
      * rewrite keys_assign_old; [exact K|]. rewrite K. apply Hkeys. exact Hx.
      * intros v Hv. rewrite in_app_iff in Hv. simpl in Hv.
        rewrite lookup_assign.
        destruct (String.eqb v x) eqn:E;
          [apply String.eqb_eq in E; subst; tauto|].
        apply Hout. tauto.
      * intros v i Hv Hi Hlast. rewrite lookup_assign.
        destruct (Nat.lt_ge_cases i (length basic)) as [Hlt | Hge].
        -- rewrite nth_error_app1 in Hi by exact Hlt.
           destruct (String.eqb v x) eqn:E.
           ++ apply String.eqb_eq in E. subst x. exfalso.
              apply (Hlast (length basic) Hlt).
              rewrite nth_error_app2, Nat.sub_diag by lia. reflexivity.
           ++ apply Hin; auto. intros j Hj Hnj.
              apply (Hlast j Hj).
              rewrite nth_error_app1; [exact Hnj|].
              apply nth_error_Some. congruence.
        -- rewrite nth_error_app2 in Hi by exact Hge.
           destruct (i - length basic) as [|d] eqn:D; simpl in Hi;
             [|destruct d; discriminate].
           injection Hi as ->. rewrite String.eqb_refl.
           replace i with (length basic) by lia. reflexivity.
    + assert (Hx : ~ In x vars).
      { intros H. apply includes_In in H. congruence. }
      split; [exact K|]. split.
      * intros v Hv. apply Hout. rewrite in_app_iff in Hv. tauto.
      * intros v i Hv Hi Hlast.
        destruct (Nat.lt_ge_cases i (length basic)) as [Hlt | Hge].
        -- rewrite nth_error_app1 in Hi by exact Hlt.
           apply Hin; auto. intros j Hj Hnj.
           apply (Hlast j Hj).
           rewrite nth_error_app1; [exact Hnj|].
           apply nth_error_Some. congruence.
        -- rewrite nth_error_app2 in Hi by exact Hge.
           destruct (i - length basic) as [|d] eqn:D; simpl in Hi;
             [|destruct d; discriminate].
           injection Hi as ->. contradiction.
Qed.

(** X10: what [extractSolution] returns, for variable names that an object
    stores as keys (all but [__proto__]).  The keys of [optimalSolution] are
    the original variables, each once; a variable that is not basic has the
    value 0; a basic one has the right-hand side of its row (of the last of
    its rows, should its name be basic more than once); a name that is not
    an original variable is no key; and [optimalValue] is the last entry of
    [rhsColumn], negated for a minimization. *)
Theorem extractSolution_spec
    (t : SimplexTableau.t) (originalVariables : list string) (isMaximization : bool) :
  ~ In notAKey originalVariables ->
  let r := SimplexSolver.extractSolution t originalVariables isMaximization in
  let sol := ExtractedSolution.optimalSolution r in
  let raw := JS.get (rhsColumn t) (length (rhsColumn t) - 1) in
  NoDup (map fst sol) /\
  (forall v, In v (map fst sol) <-> In v originalVariables) /\
  (forall v, ~ In v originalVariables -> lookup sol v = None) /\
  (forall v, In v originalVariables -> ~ In v (basicVariables t) ->
     lookup sol v = Some 0%float) /\
  (forall v i, In v originalVariables ->
     nth_error (basicVariables t) i = Some v ->
     (forall j, i < j -> nth_error (basicVariables t) j <> Some v) ->
     lookup sol v = Some (JS.get (rhsColumn t) i)) /\
  ExtractedSolution.optimalValue r = (if isMaximization then raw else (- raw)%float).
Proof.
  intros _. cbv zeta. unfold SimplexSolver.extractSolution. cbv zeta. simpl.
  destruct (zeros_spec originalVariables [] (NoDup_nil _)) as (Z1 & Z2 & Z3 & Z4).
  set (sol0 := fold_left (fun o v => SimplexSolver.assign v 0%float o)
                         originalVariables []) in *.
  assert (Hkeys : forall v, In v (map fst sol0) <-> In v originalVariables).
  { intros v. rewrite Z2. simpl. tauto. }
  destruct (basics_spec originalVariables (rhsColumn t) (basicVariables t) sol0 Hkeys)
    as (K & Hout & Hin).
  set (sol := fold_left _ (combine _ _) sol0) in *.
  split; [rewrite K; exact Z1|].
  split; [intros v; rewrite K; apply Hkeys|].
  split; [intros v Hv; apply lookup_None; rewrite K, Hkeys; exact Hv|].
  split; [intros v Hv Hb; rewrite Hout by exact Hb; apply Z3; exact Hv|].
  split; [exact Hin|reflexivity].
Qed.

Lemma extractSolution_spec_witness :
  lookup
    (ExtractedSolution.optimalSolution
       (SimplexSolver.extractSolution
          (initialTableau example_objective example_matrix example_rhs true
             example_variables)
          example_variables true))
    "x1"%string
  = Some 0%float.
Proof.
  refine (proj1 (proj2 (proj2 (proj2
            (extractSolution_spec
               (initialTableau example_objective example_matrix example_rhs true
                  example_variables)
               example_variables true _))))
            "x1"%string _ _).
  - intros [H | [H | []]]; discriminate.
  - left. reflexivity.
  - intros [H | [H | [H | []]]]; discriminate.
Defined.

(** ** The initial tableau *)

Lemma opp_involutive (x : float) : (- (- x))%float = x.
Proof.
  apply Prim2SF_inj. rewrite !opp_spec.
  destruct (Prim2SF x); simpl; rewrite ?negb_involutive; reflexivity.
Qed.

Lemma map_mapi {X Y Z} (g : Y -> Z) (f : nat -> X -> Y) l :
  map g (JS.mapi f l) = JS.mapi (fun i x => g (f i x)) l.
Proof.
  unfold JS.mapi. generalize 0. induction l as [|x l IH]; intros k; simpl;
    [reflexivity|]. rewrite IH. reflexivity.
Qed.

Lemma mapi_index {X Y} (f : nat -> Y) (l : list X) :
  JS.mapi (fun i _ => f i) l = map f (seq 0 (length l)).
Proof.
  unfold JS.mapi. generalize 0. induction l as [|x l IH]; intros k; simpl;
    [reflexivity|]. rewrite IH. reflexivity.
Qed.

Lemma map_get_seq (b : list float) : map (JS.get b) (seq 0 (length b)) = b.
Proof.
  apply nth_ext with (d := nan) (d' := nan).
  - rewrite length_map, length_seq. reflexivity.
  - intros n Hn. rewrite length_map, length_seq in Hn.
    rewrite (nth_indep _ nan (JS.get b 0)) by (rewrite length_map, length_seq; exact Hn).
    rewrite map_nth, seq_nth by exact Hn. reflexivity.
Qed.

Lemma mapi_ext {X Y} (f g : nat -> X -> Y) l :
  (forall i x, f i x = g i x) -> JS.mapi f l = JS.mapi g l.
Proof. apply mapi_from_ext. Qed.

Lemma get_last_app (l : list float) y : JS.get (l ++ [y]) (length (l ++ [y]) - 1) = y.
Proof. apply nth_last_app. Qed.

Lemma initial_rhsColumn o A b mx vars :
  rhsColumn (initialTableau o A b mx vars)
  = map (JS.get b) (seq 0 (length A)) ++ [0%float].
Proof.
  unfold initialTableau, SimplexSolver.createInitialTableau. cbv zeta. simpl.
  rewrite map_app. simpl. rewrite get_last_app. f_equal.
  rewrite map_mapi.
  rewrite (mapi_ext _ (fun i _ => JS.get b i)).
  - rewrite mapi_index, mapi_length. reflexivity.
  - intros i x. apply get_last_app.
Qed.

Lemma initial_objectiveRow o A b mx vars :
  objectiveRow (initialTableau o A b mx vars)
  = map (fun c => if mx then (- c)%float else c) o
    ++ repeat (- 0)%float (length A) ++ [0%float].
Proof.
  unfold initialTableau. rewrite objectiveRow_initial.
  rewrite map_app, map_repeat, <- app_assoc. f_equal.
  destruct mx; [reflexivity|].
  rewrite map_map. apply map_ext. intros c. apply opp_involutive.
Qed.

(** X11: the layout of the initial tableau.  Row [i] of the matrix is row
    [i] of the constraint matrix, the [i]-th unit vector for the slack
    variables and the [i]-th right-hand side; the last row is the objective
    row, which holds the negated coefficients for a maximization and the
    coefficients themselves for a minimization, a negative zero per slack
    variable and 0; the slack variables [s1 .. sm] are basic, and the
    non-basic names are the first [n] of the variable names followed by the
    slack names, [n] being the number of objective coefficients. *)
Theorem initialTableau_layout
    (o : list float) (A : list (list float)) (b : list float) (mx : bool)
    (vars : list string) :
  let t := initialTableau o A b mx vars in
  let m := length A in
  let n := length o in
  length (tableau t) = m + 1 /\
  (forall i, i < m ->
     nth i (tableau t) [] = nth i A [] ++ unitRow m i ++ [JS.get b i]) /\
  nth m (tableau t) [] = objectiveRow t /\
  objectiveRow t
  = map (fun c => if mx then (- c)%float else c) o
    ++ repeat (- 0)%float m ++ [0%float] /\
  rhsColumn t = map (JS.get b) (seq 0 m) ++ [0%float] /\
  (length b = m -> rhsColumn t = b ++ [0%float]) /\
  basicVariables t = slackNames m /\
  nonBasicVariables t = firstn n (vars ++ slackNames m) /\
  (length vars = n -> nonBasicVariables t = vars) /\
  iteration t = 0 /\ isOptimal t = false /\ isUnbounded t = false /\
  pivotRow t = None /\ pivotColumn t = None /\
  enteringVariable t = None /\ leavingVariable t = None.
Proof.
  cbv zeta.
  split.
  { unfold initialTableau, SimplexSolver.createInitialTableau. cbv zeta. simpl.
    rewrite length_app, !mapi_length. reflexivity. }
  split.
  { intros i Hi.
    unfold initialTableau, SimplexSolver.createInitialTableau. cbv zeta. simpl.
    rewrite app_nth1 by (rewrite !mapi_length; exact Hi).
    rewrite mapi_nth with (dA := []) by (rewrite mapi_length; exact Hi).
    rewrite mapi_nth with (dA := []) by exact Hi.
    rewrite <- app_assoc. reflexivity. }
  split.
  { unfold initialTableau, SimplexSolver.createInitialTableau. cbv zeta. simpl.
    rewrite length_app, !mapi_length. simpl.
    replace (length A + 1 - 1) with (length A) by lia. reflexivity. }
  split; [apply initial_objectiveRow|].
  split; [apply initial_rhsColumn|].
  split.
  { intros Hb. rewrite initial_rhsColumn, <- Hb, map_get_seq. reflexivity. }
  split; [reflexivity|]. split; [reflexivity|].
  split.
  { intros Hv. unfold initialTableau. simpl. rewrite <- Hv.
    rewrite firstn_app, Nat.sub_diag, firstn_all. simpl. apply app_nil_r. }
  repeat split.
Qed.

(** ** Problems [solve] is done with in its first round *)

Lemma initial_objectiveRow_get o A b mx vars k :
  k < length o ->
  JS.get (objectiveRow (initialTableau o A b mx vars)) k
  = if mx then (- JS.get o k)%float else JS.get o k.
Proof.
  intros Hk. rewrite initial_objectiveRow. unfold JS.get.
  rewrite app_nth1 by (rewrite length_map; exact Hk).
  rewrite nth_indep with (d' := if mx then (- nan)%float else nan)
    by (rewrite length_map; exact Hk).
  rewrite (map_nth (fun c => if mx then (- c)%float else c)). reflexivity.
Qed.

Lemma initial_nonBasic_length o A b mx vars :
  length (nonBasicVariables (initialTableau o A b mx vars))
  = Nat.min (length o) (length vars + length A).
Proof.
  unfold initialTableau. simpl.
  rewrite length_firstn, length_app, length_map, length_seq. reflexivity.
Qed.

(** The entry of the objective row is negative in a column of the initial
    tableau when the coefficient improves the objective. *)
Lemma initial_negative o A b mx vars k :
  k < length o ->
  (JS.get (objectiveRow (initialTableau o A b mx vars)) k <? 0)%float
  = if mx then (0 <? JS.get o k)%float else (JS.get o k <? 0)%float.
Proof.
  intros Hk. rewrite initial_objectiveRow_get by exact Hk.
  destruct mx; [apply ltb_opp_zero|reflexivity].
Qed.

Lemma final_after_break o A b mx vars :
  snd (Solve.body (Solve.init o A b mx vars)) = true ->
  Solve.final o A b mx vars = fst (Solve.body (Solve.init o A b mx vars)).
Proof.
  intros B. unfold Solve.final.
  change SimplexSolver.maxIterations with (S 49). rewrite loop_unfold.
  change (Solve.guard (Solve.init o A b mx vars)) with true. cbv iota.
  rewrite B. reflexivity.
Qed.

Lemma extractSolution_zero t vars mx v :
  In v vars -> ~ In v (basicVariables t) ->
  lookup (ExtractedSolution.optimalSolution
            (SimplexSolver.extractSolution t vars mx)) v = Some 0%float.
Proof.
  intros Hv Hb. unfold SimplexSolver.extractSolution. cbv zeta. simpl.
  destruct (zeros_spec vars [] (NoDup_nil _)) as (Z1 & Z2 & Z3 & Z4).
  set (sol0 := fold_left (fun o v => SimplexSolver.assign v 0%float o) vars []) in *.
  assert (Hkeys : forall v, In v (map fst sol0) <-> In v vars).
  { intros w. rewrite Z2. simpl. tauto. }
  destruct (basics_spec vars (rhsColumn t) (basicVariables t) sol0 Hkeys)
    as (_ & Hout & _).
  rewrite Hout by exact Hb. apply Z3. exact Hv.
Qed.

Lemma initial_raw o A b mx vars :
  let t := initialTableau o A b mx vars in
  JS.get (rhsColumn t) (length (rhsColumn t) - 1) = 0%float.
Proof.
  cbv zeta. rewrite initial_rhsColumn. apply get_last_app.
Qed.

(** X12: nothing to improve.  When no objective coefficient improves the
    objective (none is positive for a maximization, none negative for a
    minimization), [solve] is done in its first round, whatever the
    constraints are: the history is the initial tableau alone, flagged
    optimal; the log has the two opening steps and no step [optimal]; the
    optimal value is 0 (negative zero for a minimization) and every variable
    whose name is not that of a slack variable has the value 0 (a variable
    named [__proto__] is no key of the solution). *)
Theorem solve_nothing_to_improve
    (o : list float) (A : list (list float)) (b : list float) (mx : bool)
    (vars : list string) :
  (forall c, In c o ->
     (if mx then (0 <? c)%float else (c <? 0)%float) = false) ->
  let s := fst (solve o A b mx vars) in
  let h := snd (solve o A b mx vars) in
  history s h = [set_isOptimal true (initialTableau o A b mx vars)] /\
  SimplexSolution.isOptimal s = true /\
  SimplexSolution.isUnbounded s = false /\
  map SimplexStep.action (SimplexSolution.steps s)
  = ["convert_standard"; "initial_tableau"]%string /\
  SimplexSolution.optimalValue s = (if mx then 0 else - 0)%float /\
  forall v, In v vars -> v <> notAKey -> ~ In v (slackNames (length A)) ->
    lookup (SimplexSolution.optimalSolution s) v = Some 0%float.
Proof.
  intros Ho. cbv zeta.
  assert (He : SimplexSolver.findEnteringVariable (initialTableau o A b mx vars)
               = (-1)%Z).
  { destruct (findEnteringVariable_first_columns (initialTableau o A b mx vars))
      as [(H & _) | (k & _ & Hk & Hneg & _)]; [exact H|exfalso].
    rewrite initial_nonBasic_length in Hk.
    rewrite initial_negative in Hneg by lia.
    specialize (Ho (JS.get o k) ltac:(apply nth_In; lia)).
    destruct mx; congruence. }
  unfold history, solve. cbn [fst snd].
  rewrite (final_after_one_round o A b mx vars He).
  cbn [Loop.store Loop.iterations Loop.steps Loop.currentTableau Solve.finish
       SimplexSolution.iterations SimplexSolution.isOptimal
       SimplexSolution.isUnbounded SimplexSolution.steps
       SimplexSolution.optimalValue SimplexSolution.optimalSolution].
  fold (initialTableau o A b mx vars).
  change (Store.deref [set_isOptimal true (initialTableau o A b mx vars)] 0)
    with (set_isOptimal true (initialTableau o A b mx vars)).
  split; [reflexivity|]. split; [reflexivity|]. split; [reflexivity|].
  split; [reflexivity|]. split.
  - unfold SimplexSolver.extractSolution. cbv zeta.
    cbn [ExtractedSolution.optimalValue].
    change (rhsColumn (set_isOptimal true (initialTableau o A b mx vars)))
      with (rhsColumn (initialTableau o A b mx vars)).
    rewrite (initial_raw o A b mx vars). destruct mx; reflexivity.
  - intros v Hv _ Hs. apply extractSolution_zero; [exact Hv|exact Hs].
Qed.

Lemma solve_nothing_to_improve_witness :
  SimplexSolution.optimalValue
    (fst (solve [-1; 0]%float [[1; 1]]%float [4]%float true ["x"; "y"]%string))
  = 0%float.
Proof.
  refine (proj1 (proj2 (proj2 (proj2 (proj2
            (solve_nothing_to_improve [-1; 0]%float [[1; 1]]%float [4]%float true
               ["x"; "y"]%string _)))))).
  intros c [<- | [<- | []]]; reflexivity.
Defined.

(** ** No constraints *)

Lemma initial_no_leaving o b mx vars col :
  SimplexSolver.findLeavingVariable (initialTableau o [] b mx vars) col = (-1)%Z.
Proof. reflexivity. Qed.

(** X13: a problem without constraints.  [solve] stops in its first round on
    the initial tableau; it reports the problem optimal when no coefficient
    that has a variable name improves the objective, and unbounded
    otherwise; in both cases the value is 0 (negative zero for a
    minimization) and all variables are 0 (a variable named [__proto__] is
    no key of the solution). *)
Theorem solve_without_constraints
    (o : list float) (b : list float) (mx : bool) (vars : list string) :
  let s := fst (solve o [] b mx vars) in
  let h := snd (solve o [] b mx vars) in
  length (history s h) = 1 /\
  SimplexSolution.isUnbounded s = negb (SimplexSolution.isOptimal s) /\
  (SimplexSolution.isOptimal s = true <->
   forall j, j < length o -> j < length vars ->
     (if mx then (0 <? JS.get o j)%float else (JS.get o j <? 0)%float) = false) /\
  SimplexSolution.optimalValue s = (if mx then 0 else - 0)%float /\
  forall v, In v vars -> v <> notAKey ->
    lookup (SimplexSolution.optimalSolution s) v = Some 0%float.
Proof.
  cbv zeta.
  set (t0 := initialTableau o [] b mx vars).
  pose proof (body_store (Solve.init o [] b mx vars) (Nat.lt_0_1)) as Hs.
  pose proof (body_rest (Solve.init o [] b mx vars)) as (_ & Hr).
  change (current (Solve.init o [] b mx vars)) with t0 in Hs, Hr.
  assert (Hscan : forall j, j < length (nonBasicVariables t0) <->
                            j < length o /\ j < length vars).
  { intros j. unfold t0. rewrite initial_nonBasic_length. simpl. lia. }
  assert (Hraw : forall f,
            (forall x, rhsColumn (f x) = rhsColumn x) ->
            JS.get (rhsColumn (f t0)) (length (rhsColumn (f t0)) - 1) = 0%float).
  { intros f Hf. rewrite Hf. apply (initial_raw o [] b mx vars). }
  destruct (way_of t0) as [|col|col row] eqn:Wy.
  - (* optimal *)
    destruct Hr as (Hi & Hc & Hb).
    unfold history, solve. cbn [fst snd].
    rewrite (final_after_break _ _ _ _ _ Hb).
    unfold Solve.finish.
    cbn [SimplexSolution.iterations SimplexSolution.isOptimal
         SimplexSolution.isUnbounded SimplexSolution.optimalValue
         SimplexSolution.optimalSolution].
    rewrite Hs, Hi, Hc.
    change (Store.deref _ _) with (set_isOptimal true t0).
    split; [reflexivity|]. split; [reflexivity|]. split; [|split].
    + split; [|reflexivity]. intros _ j Hj1 Hj2.
      apply way_of_optimal in Wy.
      destruct (findEnteringVariable_first_columns t0)
        as [(_ & Hn) | (k & Hk & _)]; [|rewrite Wy in Hk; lia].
      rewrite <- (initial_negative o [] b mx vars j Hj1).
      apply Hn. apply Hscan. lia.
    + unfold SimplexSolver.extractSolution. cbv zeta.
      cbn [ExtractedSolution.optimalValue].
      rewrite (Hraw (set_isOptimal true) (fun x => eq_refl)).
      destruct mx; reflexivity.
    + intros v Hv _. apply extractSolution_zero; [exact Hv|intros []].
  - (* unbounded *)
    destruct Hr as (Hi & Hc & Hb).
    unfold history, solve. cbn [fst snd].
    rewrite (final_after_break _ _ _ _ _ Hb).
    unfold Solve.finish.
    cbn [SimplexSolution.iterations SimplexSolution.isOptimal
         SimplexSolution.isUnbounded SimplexSolution.optimalValue
         SimplexSolution.optimalSolution].
    rewrite Hs, Hi, Hc.
    change (Store.deref _ _) with (set_isUnbounded true (noteEntering col t0)).
    split; [reflexivity|]. split; [reflexivity|]. split; [|split].
    + split; [discriminate|]. intros Hall. exfalso.
      apply way_of_unbounded in Wy. destruct Wy as (He & _ & _).
      destruct (findEnteringVariable_first_columns t0)
        as [(Hm & _) | (k & Hk & Hlt & Hneg & _)]; [rewrite He in Hm; lia|].
      apply Hscan in Hlt. destruct Hlt as (Hk1 & Hk2).
      unfold t0 in Hneg. rewrite initial_negative in Hneg by exact Hk1.
      rewrite (Hall k Hk1 Hk2) in Hneg. discriminate.
    + unfold SimplexSolver.extractSolution. cbv zeta.
      cbn [ExtractedSolution.optimalValue].
      rewrite (Hraw (fun x => set_isUnbounded true (noteEntering col x))
                 (fun x => eq_refl)).
      destruct mx; reflexivity.
    + intros v Hv _. apply extractSolution_zero; [exact Hv|intros []].
  - (* no pivot: there is no row to leave *)
    apply way_of_pivot in Wy. destruct Wy as (_ & Hl & _).
    unfold t0 in Hl. rewrite initial_no_leaving in Hl. lia.
Qed.

(** ** The sensitivity analysis of a solution of [solve] *)

Lemma nth_firstn_lt {X} (l : list X) n i d :
  i < n -> nth i (firstn n l) d = nth i l d.
Proof.
  revert n i. induction l as [|x l IH]; intros [|n] [|i] H; simpl; try lia;
    try reflexivity.
  apply IH. lia.
Qed.

Lemma nth_error_slackNames m i :
  i < m -> nth_error (slackNames m) i = Some ("s" ++ JS.of_nat (i + 1))%string.
Proof.
  intros H. unfold slackNames.
  rewrite nth_error_map, nth_error_nth' with (d := 0) by (rewrite length_seq; exact H).
  rewrite seq_nth by exact H. reflexivity.
Qed.

(** X14: the sensitivity analysis of what [solve] returns.  It never fails;
    there is one shadow price per constraint, labelled [s1 .. sm], which is
    minus the entry of the last tableau's objective row in the column after
    the non-basic names, and one reduced cost per non-basic name of the
    initial tableau, which is the entry of that row in the name's column.
    The store is left as it was. *)
Theorem sensitivity_of_solve
    (o : list float) (A : list (list float)) (b : list float) (mx : bool)
    (vars : list string) :
  let r := solve o A b mx vars in
  let t := last (history (fst r) (snd r)) dummy in
  let m := length A in
  let n := Nat.min (length o) (length vars + m) in
  performSensitivityAnalysis (fst r) (snd r)
  = (Some (SensitivityResult.make
             (map (fun i =>
                     SensitivityResult.makePrice
                       ("s" ++ JS.of_nat (i + 1))%string
                       (- JS.get (objectiveRow t) (n + i))%float)
                  (seq 0 m))
             (map (fun i =>
                     SensitivityResult.makeCost
                       (nth i (vars ++ slackNames m) ""%string)
                       (JS.get (objectiveRow t) i))
                  (seq 0 n))),
     snd r).
Proof.
  cbv zeta.
  pose proof (chained_final o A b mx vars) as ([C0 _ _] & (W & _)).
  pose proof (final_current o A b mx vars) as Hc.
  unfold history, solve. cbn [fst snd].
  unfold Solve.finish. cbn [SimplexSolution.iterations].
  rewrite <- (current_last _ W).
  set (st := Solve.final o A b mx vars) in *.
  unfold performSensitivityAnalysis. cbn [SimplexSolution.iterations].
  rewrite (wf_iterations _ W).
  destruct (length (Loop.store st)) as [|k] eqn:Hk; [lia|].
  rewrite length_seq.
  assert (Hf : nth (S k - 1) (0 :: seq 1 k) 0 = Loop.currentTableau st).
  { change (0 :: seq 1 k) with (seq 0 (S k)). rewrite seq_nth by lia. lia. }
  change (seq 0 (S k)) with (0 :: seq 1 k).
  cbv iota beta.
  destruct C0 as (_ & Eb & En & _).
  rewrite Eb, En.
  change (basicVariables (initialTableau o A b mx vars))
    with (slackNames (length A)).
  rewrite initial_nonBasic_length.
  replace (length (slackNames (length A))) with (length A)
    by (unfold slackNames; rewrite length_map, length_seq; reflexivity).
  f_equal. f_equal. f_equal.
  - apply map_ext_in. intros i Hi. apply in_seq in Hi.
    rewrite nth_error_slackNames by lia.
    cbn [JS.or_else String.append]. unfold ref. rewrite Hf. reflexivity.
  - apply map_ext_in. intros i Hi. apply in_seq in Hi.
    unfold initialTableau. simpl nonBasicVariables.
    fold (slackNames (length A)).
    rewrite nth_firstn_lt by lia. unfold ref. rewrite Hf. reflexivity.
Qed.

(** ** The graphical method: more on [dedupe] and on short lists *)

Lemma separated_prefix l p : separated (l ++ [p]) -> separated l.
Proof.
  intros H l1 q l2 E s Hs.
  apply (H l1 q (l2 ++ [p])); [|exact Hs].
  rewrite E, <- app_assoc. reflexivity.
Qed.

Lemma dedupe_of_separated l : separated l -> Graph.dedupe l = l.
Proof.
  induction l as [|p l IH] using rev_ind; intros H; [reflexivity|].
  rewrite dedupe_snoc, IH by (eapply separated_prefix; exact H).
  replace (existsb (fun s => Graph.close s p) l) with false; [reflexivity|].
  symmetry. apply not_true_iff_false. intros E.
  apply existsb_exists in E. destruct E as (s & Hs & Hc).
  rewrite (H l p [] (eq_refl _) s Hs) in Hc. discriminate.
Qed.

(** X15: [dedupe] does nothing to a list it has already been through: a list
    in which no point is within the tolerance of an earlier one is returned
    as it is, and so is every result of [dedupe]. *)
Theorem dedupe_idempotent (l : list Graph.Point) :
  Graph.dedupe (Graph.dedupe l) = Graph.dedupe l /\
  (separated l -> Graph.dedupe l = l).
Proof.
  split.
  - apply dedupe_of_separated. apply dedupe_separated.
  - apply dedupe_of_separated.
Qed.

(** *** The origin *)

Lemma fold_optimum_some pr l q v :
  exists p w, fold_left (optimumStepOf pr) l (Some q, v) = (Some p, w).
Proof.
  revert q v. induction l as [|a l IH]; intros q v; cbn [fold_left].
  - exists q, v. reflexivity.
  - rewrite optimumStep_eq. cbn [fst snd].
    destruct (strictlyBetter pr _ v); apply IH.
Qed.

(** X16: the origin is the first point [computeGraphData] tries.  When it
    satisfies every constraint it is the first of the feasible points, so
    the feasible region is not empty and an optimal point is returned. *)
Theorem origin_feasible_first (pr : Graph.problem) :
  (forall c, In c (Graph.constraints pr) ->
     Graph.satisfies (Graph.makePoint 0 0) c = true) ->
  let g := Graph.computeGraphData pr in
  (exists l, Graph.feasiblePoints g = Graph.makePoint 0 0 :: l) /\
  (exists p, Graph.optimalPoint g = Some p /\ In p (Graph.feasiblePoints g)).
Proof.
  intros Hsat. cbv zeta.
  assert (Hf : Graph.feasible (Graph.constraints pr) (Graph.makePoint 0 0) = true).
  { unfold Graph.feasible. rewrite (proj2 (forallb_forall _ _) Hsat). reflexivity. }
  unfold Graph.computeGraphData. cbv zeta.
  unfold Graph.candidates. cbn [filter]. rewrite Hf.
  destruct (dedupe_head (Graph.makePoint 0 0)
              (filter (Graph.feasible (Graph.constraints pr))
                 (flat_map Graph.intercepts (Graph.constraints pr)
                  ++ Graph.pairwise (Graph.constraints pr)))) as (l' & E).
  rewrite E. cbn [fold_left].
  fold (optimumStepOf pr).
  change (optimumStepOf pr (None, 0%float) (Graph.makePoint 0 0))
    with (Some (Graph.makePoint 0 0), objectiveValue pr (Graph.makePoint 0 0)).
  destruct (optimum_scan pr l' (Graph.makePoint 0 0)) as (p & Ep & Hin & _).
  rewrite Ep. cbn [Graph.feasiblePoints Graph.optimalPoint].
  split; [exists l'; reflexivity|]. exists p. split; [reflexivity|exact Hin].
Qed.

Lemma origin_feasible_first_witness :
  exists l,
    Graph.feasiblePoints
      (Graph.computeGraphData
         (Graph.makeProblem Graph.maximize [3; 5]%float
            [Graph.makeConstraint [1; 0]%float Graph.Leq 4%float;
             Graph.makeConstraint [0; 2]%float Graph.Leq 12%float;
             Graph.makeConstraint [3; 2]%float Graph.Leq 18%float]))
    = Graph.makePoint 0 0 :: l.
Proof.
  refine (proj1 (origin_feasible_first
                   (Graph.makeProblem Graph.maximize [3; 5]%float
                      [Graph.makeConstraint [1; 0]%float Graph.Leq 4%float;
                       Graph.makeConstraint [0; 2]%float Graph.Leq 12%float;
                       Graph.makeConstraint [3; 2]%float Graph.Leq 18%float]) _)).
  intros c [<- | [<- | [<- | []]]]; reflexivity.
Defined.

(** *** Lists of coefficients that are too short *)

Lemma mul_nan_l (y : float) : (nan * y)%float = nan.
Proof. apply Prim2SF_inj. rewrite mul_spec. reflexivity. Qed.

Lemma add_nan_r (x : float) : (x + nan)%float = nan.
Proof.
  apply Prim2SF_inj. rewrite add_spec. change (Prim2SF nan) with S754_nan.
  destruct (Prim2SF x) as [s|s| |s m e]; try reflexivity; destruct s; reflexivity.
Qed.

Lemma sub_nan_l (y : float) : (nan - y)%float = nan.
Proof. apply Prim2SF_inj. rewrite sub_spec. reflexivity. Qed.

Lemma leb_nan_l (y : float) : (nan <=? y)%float = false.
Proof. rewrite leb_spec. reflexivity. Qed.

Lemma leb_nan_r (x : float) : (x <=? nan)%float = false.
Proof.
  rewrite leb_spec. change (Prim2SF nan) with S754_nan.
  destruct (Prim2SF x) as [s|s| |s m e]; try reflexivity; destruct s; reflexivity.
Qed.

Lemma ltb_nan_l (y : float) : (nan <? y)%float = false.
Proof. rewrite ltb_spec. reflexivity. Qed.

Lemma ltb_nan_r (x : float) : (x <? nan)%float = false.
Proof.
  rewrite ltb_spec. change (Prim2SF nan) with S754_nan.
  destruct (Prim2SF x) as [s|s| |s m e]; try reflexivity; destruct s; reflexivity.
Qed.

Lemma get_short (l : list float) : length l < 2 -> JS.get l 1 = nan.
Proof. intros H. unfold JS.get. apply nth_overflow. lia. Qed.

Lemma satisfies_short p c :
  length (Graph.coefficients c) < 2 -> Graph.satisfies p c = false.
Proof.
  intros H. unfold Graph.satisfies. cbv zeta.
  rewrite (get_short _ H), mul_nan_l, add_nan_r.
  destruct (Graph.op c).
  - apply leb_nan_l.
  - unfold JS.geb. apply leb_nan_r.
  - rewrite sub_nan_l. reflexivity.
Qed.

Lemma filter_none {X} (f : X -> bool) l :
  (forall x, In x l -> f x = false) -> filter f l = [].
Proof.
  induction l as [|x l IH]; intros H; simpl; [reflexivity|].
  rewrite (H x (or_introl eq_refl)). apply IH. intros y Hy. apply H. right. exact Hy.
Qed.

(** X17: a constraint with fewer than two coefficients cannot be satisfied:
    its second coefficient is [undefined], its left-hand side is NaN at
    every point, and every comparison with NaN fails.  With such a
    constraint in the problem [computeGraphData] finds no feasible point
    and returns no optimal point, with value 0. *)
Theorem short_constraint_no_feasible_point (pr : Graph.problem) :
  (exists c, In c (Graph.constraints pr) /\ length (Graph.coefficients c) < 2) ->
  let g := Graph.computeGraphData pr in
  Graph.feasiblePoints g = [] /\
  Graph.optimalPoint g = None /\
  Graph.optimalValue g = 0%float.
Proof.
  intros (c & Hc & Hshort). cbv zeta.
  unfold Graph.computeGraphData. cbv zeta.
  rewrite filter_none.
  - repeat split.
  - intros p _. unfold Graph.feasible.
    replace (forallb (Graph.satisfies p) (Graph.constraints pr)) with false;
      [reflexivity|].
    symmetry. apply not_true_iff_false. intros E.
    rewrite forallb_forall in E. specialize (E c Hc).
    rewrite (satisfies_short p c Hshort) in E. discriminate.
Qed.

Lemma short_constraint_no_feasible_point_witness :
  Graph.feasiblePoints
    (Graph.computeGraphData
       (Graph.makeProblem Graph.maximize [3; 2]%float
          [Graph.makeConstraint [2; 1]%float Graph.Leq 100%float;
           Graph.makeConstraint [1]%float Graph.Leq 40%float]))
  = [].
Proof.
  refine (proj1 (short_constraint_no_feasible_point
                   (Graph.makeProblem Graph.maximize [3; 2]%float
                      [Graph.makeConstraint [2; 1]%float Graph.Leq 100%float;
                       Graph.makeConstraint [1]%float Graph.Leq 40%float]) _)).
  exists (Graph.makeConstraint [1]%float Graph.Leq 40%float).
  split; [right; left; reflexivity|simpl; lia].
Defined.

Lemma objectiveValue_short pr p :
  length (Graph.objective pr) < 2 -> objectiveValue pr p = nan.
Proof.
  intros H. unfold objectiveValue.
  rewrite (get_short _ H), mul_nan_l, add_nan_r. reflexivity.
Qed.

Lemma strictlyBetter_nan_r pr v : strictlyBetter pr v nan = false.
Proof.
  unfold strictlyBetter, JS.gtb. destruct (Graph.type pr);
    [apply ltb_nan_l|apply ltb_nan_r].
Qed.

Lemma fold_optimum_nan pr l q :
  (forall p, objectiveValue pr p = nan) ->
  fold_left (optimumStepOf pr) l (Some q, nan) = (Some q, nan).
Proof.
  intros Hn. induction l as [|a l IH]; cbn [fold_left]; [reflexivity|].
  rewrite optimumStep_eq. cbn [fst snd].
  rewrite strictlyBetter_nan_r. exact IH.
Qed.

(** X18: an objective with fewer than two coefficients.  The second
    coefficient is [undefined], the value of every point is NaN, and no
    value is better than NaN: the optimal point is the first feasible point
    and the optimal value is NaN. *)
Theorem short_objective_first_point (pr : Graph.problem) :
  length (Graph.objective pr) < 2 ->
  let g := Graph.computeGraphData pr in
  Graph.optimalPoint g = hd_error (Graph.feasiblePoints g) /\
  (Graph.feasiblePoints g <> [] -> Graph.optimalValue g = nan) /\
  (Graph.feasiblePoints g = [] -> Graph.optimalValue g = 0%float).
Proof.
  intros Hshort. cbv zeta.
  unfold Graph.computeGraphData. cbv zeta.
  set (fp := Graph.dedupe _).
  fold (optimumStepOf pr).
  destruct fp as [|q l]; [cbn; repeat split; congruence|].
  cbn [fold_left].
  change (optimumStepOf pr (None, 0%float) q) with (Some q, objectiveValue pr q).
  rewrite (objectiveValue_short pr q Hshort).
  rewrite (fold_optimum_nan pr l q (fun p => objectiveValue_short pr p Hshort)).
  cbn. repeat split; congruence.
Qed.

Lemma short_objective_first_point_witness :
  Graph.optimalPoint
    (Graph.computeGraphData
       (Graph.makeProblem Graph.maximize [3]%float
          [Graph.makeConstraint [1; 1]%float Graph.Leq 4%float]))
  = Some (Graph.makePoint 0 0).
Proof.
  refine (proj1 (short_objective_first_point
                   (Graph.makeProblem Graph.maximize [3]%float
                      [Graph.makeConstraint [1; 1]%float Graph.Leq 4%float]) _)).
  simpl. lia.
Defined.

(** ** The values [solve] reads off the matrix *)

Lemma div_nan_l (y : float) : (nan / y)%float = nan.
Proof. apply Prim2SF_inj. rewrite div_spec. reflexivity. Qed.

Lemma lastEntry_map_div (row : list float) (p : float) :
  lastEntry (map (fun x => x / p)%float row) = (lastEntry row / p)%float.
Proof.
  unfold lastEntry. rewrite length_map.
  destruct row as [|x row]; [simpl; symmetry; apply div_nan_l|].
  apply get_map. simpl. lia.
Qed.

Lemma consistent_rhs m widths n t i :
  consistent m widths n t -> i < length (tableau t) ->
  JS.get (rhsColumn t) i = lastEntry (nth i (tableau t) []).
Proof.
  intros (_ & _ & _ & Hr & _) Hi. rewrite Hr. unfold JS.get.
  rewrite nth_indep with (d' := lastEntry []) by (rewrite length_map; exact Hi).
  apply map_nth.
Qed.

(** The pivot row after the pivot. *)
Lemma pivotOperation_pivot_row t row col :
  row < length (tableau t) ->
  nth row (tableau (SimplexSolver.pivotOperation t row col)) []
  = map (fun x => x / entry t col row)%float (nth row (tableau t) []).
Proof.
  intros Hr. unfold SimplexSolver.pivotOperation. cbv zeta. simpl.
  rewrite mapi_nth with (dA := []) by (rewrite set_length; exact Hr).
  rewrite Nat.eqb_refl. apply set_nth_eq. exact Hr.
Qed.

(** X19: the entering variable enters at the minimum ratio.  For two
    consecutive tableaus of the history, the first recording the pivot
    column [col] and the pivot row [row]: in the second the basic variable
    of that row is the entering variable the first one names, the name at
    that column of the non-basic list is the leaving variable, and the
    right-hand side of the row is the ratio of the row in the first one,
    the least the ratio test found. *)
Theorem history_entering_value
    (o : list float) (A : list (list float)) (b : list float) (mx : bool)
    (vars : list string) (i col row : nat) :
  let s := fst (solve o A b mx vars) in
  let h := snd (solve o A b mx vars) in
  let t := nth i (history s h) dummy in
  let t' := nth (i + 1) (history s h) dummy in
  i + 1 < length (history s h) ->
  pivotColumn t = Some col ->
  pivotRow t = Some row ->
  nth_error (basicVariables t') row = enteringVariable t /\
  nth_error (nonBasicVariables t') col = leavingVariable t /\
  JS.get (rhsColumn t') row = ratio t col row /\
  (forall k, k < length (rhsColumn t) - 1 -> JS.gtb (entry t col k) 0 = true ->
     (ratio t col k <? ratio t col row)%float = false).
Proof.
  cbv zeta. rewrite solve_history. intros Hi Hpc Hpr.
  pose proof (chained_final o A b mx vars) as ([_ CL _] & (W & _)).
  pose proof (final_current o A b mx vars) as Hc.
  pose proof (final_store_consistent o A b mx vars) as Hall. cbv zeta in Hall.
  set (st := Solve.final o A b mx vars) in *.
  fold (Store.deref (Loop.store st) i) in *.
  fold (Store.deref (Loop.store st) (i + 1)).
  destruct (CL i ltac:(lia)) as (c & r & Hw & Hpc' & Hpr' & He & Hl & Hy).
  assert (c = col) by congruence. assert (r = row) by congruence. subst c r.
  set (t := Store.deref (Loop.store st) i) in *.
  assert (Hsh : shape t) by (apply Forall_deref; [apply (wf_shape _ W)|lia]).
  assert (Hco : consistent (length A)
                  (map (@length float) (tableau (initialTableau o A b mx vars)))
                  (length (nonBasicVariables (initialTableau o A b mx vars))) t)
    by (apply Forall_deref; [exact Hall|lia]).
  destruct (way_of_pivot_sound _ _ _ Hsh Hw) as (Hcol & Hrow & _).
  destruct (way_of_pivot _ _ _ Hw) as (_ & Hlv & _ & Hrow').
  destruct Hy as (Et & Eb & En & _ & Er & _).
  assert (Hrt : row < length (tableau t)) by (destruct Hsh; lia).
  split; [|split; [|split]].
  - rewrite Eb, He. simpl. rewrite set_nth_error_eq by exact Hrow.
    symmetry. apply nth_error_nth'. exact Hcol.
  - rewrite En, Hl. simpl. rewrite set_nth_error_eq by exact Hcol.
    symmetry. apply nth_error_nth'. exact Hrow.
  - rewrite Er.
    change (rhsColumn (set_iteration (iteration t + 1)
                         (SimplexSolver.pivotOperation t row col)))
      with (rhsColumn (SimplexSolver.pivotOperation t row col)).
    rewrite (consistent_rhs _ _ _ _ row (pivotOperation_consistent _ _ _ t row col Hco))
      by (destruct (pivotOperation_consistent _ _ _ t row col Hco) as (L' & _);
          destruct Hco as (L & _); lia).
    rewrite pivotOperation_pivot_row by exact Hrt.
    rewrite lastEntry_map_div. unfold ratio.
    rewrite (consistent_rhs _ _ _ _ row Hco) by exact Hrt. reflexivity.
  - intros k Hk Hpos.
    destruct (findLeavingVariable_scanned t col)
      as (m & [(Hm & _) | (k' & Hk' & _ & _ & _ & _ & Hmin & _)]); simpl in *.
    + rewrite Hlv in Hm. lia.
    + assert (k' = row) by (rewrite Hlv in Hk'; lia). subst k'.
      apply Hmin; assumption.
Qed.

Lemma history_entering_value_witness :
  let r := solve example_objective example_matrix example_rhs true
             example_variables in
  JS.get (rhsColumn (nth 1 (history (fst r) (snd r)) dummy)) 1 = 6%float.
Proof.
  refine (proj1 (proj2 (proj2
            (history_entering_value example_objective example_matrix example_rhs
               true example_variables 0 1 1 _ _ _)))).
  - vm_compute. lia.
  - reflexivity.
  - reflexivity.
Defined.

(** X20: the solution is read off the last tableau of the history.  The
    optimal value is the last entry of its objective row, negated for a
    minimization; a variable that is basic in it has the last entry of its
    row as value and any other variable has 0 (for names that an object
    stores as keys, all but [__proto__]). *)
Theorem solve_reads_last_tableau
    (o : list float) (A : list (list float)) (b : list float) (mx : bool)
    (vars : list string) :
  let s := fst (solve o A b mx vars) in
  let h := snd (solve o A b mx vars) in
  let t := last (history s h) dummy in
  SimplexSolution.optimalValue s
  = (if mx then lastEntry (objectiveRow t) else (- lastEntry (objectiveRow t))%float) /\
  (forall v, In v vars -> v <> notAKey -> ~ In v (basicVariables t) ->
     lookup (SimplexSolution.optimalSolution s) v = Some 0%float) /\
  (forall v i, In v vars -> v <> notAKey ->
     nth_error (basicVariables t) i = Some v ->
     (forall j, i < j -> nth_error (basicVariables t) j <> Some v) ->
     lookup (SimplexSolution.optimalSolution s) v
     = Some (lastEntry (nth i (tableau t) []))).
Proof.
  cbv zeta.
  pose proof (at_exit_final o A b mx vars) as (W & _).
  pose proof (final_current o A b mx vars) as Hc.
  pose proof (final_store_consistent o A b mx vars) as Hall. cbv zeta in Hall.
  unfold history, solve. cbn [fst snd].
  unfold Solve.finish.
  cbn [SimplexSolution.iterations SimplexSolution.optimalValue
       SimplexSolution.optimalSolution].
  rewrite <- (current_last _ W).
  set (st := Solve.final o A b mx vars) in *.
  fold (current st).
  assert (Hco : consistent (length A)
                  (map (@length float) (tableau (initialTableau o A b mx vars)))
                  (length (nonBasicVariables (initialTableau o A b mx vars)))
                  (current st))
    by (unfold current; apply Forall_deref; [exact Hall|lia]).
  pose proof Hco as (L & _ & Ho & Hr & Hb & _).
  split; [|split].
  - unfold SimplexSolver.extractSolution. cbv zeta.
    cbn [ExtractedSolution.optimalValue].
    rewrite (consistent_rhs _ _ _ _ _ Hco)
      by (rewrite Hr, length_map; lia).
    rewrite Hr, length_map, L, Ho.
    replace (length A + 1 - 1) with (length A) by lia. reflexivity.
  - intros v Hv _ Hnb. apply extractSolution_zero; assumption.
  - intros v i Hv _ Hi Hlast.
    assert (Hil : i < length (basicVariables (current st)))
      by (apply nth_error_Some; congruence).
    rewrite <- (consistent_rhs _ _ _ _ i Hco) by lia.
    unfold SimplexSolver.extractSolution. cbv zeta.
    cbn [ExtractedSolution.optimalSolution].
    destruct (zeros_spec vars [] (NoDup_nil _)) as (Z1 & Z2 & Z3 & Z4).
    set (sol0 := fold_left (fun o v => SimplexSolver.assign v 0%float o) vars []) in *.
    assert (Hkeys : forall v, In v (map fst sol0) <-> In v vars).
    { intros w. rewrite Z2. simpl. tauto. }
    destruct (basics_spec vars (rhsColumn (current st))
                (basicVariables (current st)) sol0 Hkeys) as (_ & _ & Hin).
    apply Hin; assumption.
Qed.

(** ** The actions in the log *)

(** The actions one round logs, by the way it takes through the body. *)
Lemma logged_actions st :
  Loop.currentTableau st < length (Loop.store st) ->
  map SimplexStep.action (logged st) =
  match way_of (current st) with
  | Stop_optimal => []
  | Stop_unbounded _ => unboundedActions
  | Pivot col row =>
      pivotActions ++
      (if SimplexSolver.isOptimal
            (set_iteration (Loop.iterationCount st + 1)
               (SimplexSolver.pivotOperation (current st) row col))
       then ["optimal"%string] else [])
  end.
Proof.
  intros Hcur. unfold logged, unlogged, Solve.body, way_of, current. cbv zeta. simpl.
  set (t := Store.deref (Loop.store st) (Loop.currentTableau st)).
  set (e := SimplexSolver.findEnteringVariable t).
  destruct (e =? -1)%Z eqn:E; [reflexivity|].
  rewrite !update_update.
  rewrite !deref_update_eq by (rewrite ?update_length; auto).
  fold t.
  change (SimplexSolver.findLeavingVariable
            (set_pivotColumn (Some (Z.to_nat e))
               (set_enteringVariable (nth_error (nonBasicVariables t) (Z.to_nat e)) t))
            (Z.to_nat e))
    with (SimplexSolver.findLeavingVariable t (Z.to_nat e)).
  set (l := SimplexSolver.findLeavingVariable t (Z.to_nat e)).
  destruct (l =? -1)%Z eqn:L; [reflexivity|].
  unfold Store.alloc. rewrite !update_length.
  set (h1 := Store.update _ _ (Loop.store st)).
  assert (Hl : length h1 = length (Loop.store st)) by apply update_length.
  rewrite <- Hl, update_app_last, deref_app_last.
  assert (Hd : SimplexSolver.pivotOperation (Store.deref h1 (Loop.currentTableau st))
                 (Z.to_nat l) (Z.to_nat e)
               = SimplexSolver.pivotOperation t (Z.to_nat l) (Z.to_nat e)).
  { subst h1. rewrite deref_update_eq by exact Hcur. reflexivity. }
  rewrite Hd.
  destruct (SimplexSolver.isOptimal _); reflexivity.
Qed.

Lemma concat_repeat_snoc {X} (l : list X) n :
  concat (repeat l n) ++ l = concat (repeat l (S n)).
Proof.
  induction n as [|n IH]; simpl; [rewrite app_nil_r; reflexivity|].
  rewrite <- app_assoc, IH. reflexivity.
Qed.

Lemma log_grammar_init o A b mx vars : log_grammar (Solve.init o A b mx vars).
Proof. reflexivity. Qed.

Lemma log_grammar_step st :
  at_head st -> log_grammar st ->
  Solve.guard st = true -> snd (Solve.body st) = false ->
  log_grammar (fst (Solve.body st)).
Proof.
  intros (W & Hlen & Hcnt & Hunb & Hit) L G B.
  assert (Hc : Loop.currentTableau st < length (Loop.store st))
    by (pose proof (wf_cur _ W); lia).
  pose proof (body_store st Hc) as Hs.
  pose proof (body_rest st) as (Hn & Hr).
  pose proof (logged_actions st Hc) as Hl.
  pose proof (guard_flags _ G) as [Gopt Gunb].
  assert (Hk : 1 <= length (Loop.iterations st))
    by (rewrite (wf_iterations _ W), length_seq; lia).
  destruct (way_of (current st)) as [|col|col row];
    try (destruct Hr as (_ & _ & Hr); congruence).
  destruct Hr as (Hi & Hcur' & _).
  unfold log_grammar in *. rewrite Gopt in L.
  rewrite body_steps, map_app, L, Hl, Hi, length_app. simpl length.
  replace (length (Loop.iterations st) + 1 - 1)
    with (S (length (Loop.iterations st) - 1)) by lia.
  unfold current at 2. rewrite Hs, Hcur'.
  rewrite <- (update_length (Loop.currentTableau st)
                (fun x => noteLeaving row (noteEntering col x)) (Loop.store st)).
  rewrite deref_app_last.
  unfold finishNew, logOf.
  rewrite <- concat_repeat_snoc, app_nil_r, <- !app_assoc.
  destruct (SimplexSolver.isOptimal _); reflexivity.
Qed.

(** X21: the actions of the log, in order.  The log opens with
    [convert_standard] and [initial_tableau]; every pivot adds
    [entering_variable], [leaving_variable] and [pivot]; and the log ends
    there, or on one more step [optimal], which is only logged when the
    result of the last pivot passes the test of [isOptimal], or on
    [entering_variable] and [unbounded], which are logged exactly when the
    solution is flagged unbounded.  An optimum found by the entering rule
    is flagged without a step. *)
Theorem solve_log_grammar
    (o : list float) (A : list (list float)) (b : list float) (mx : bool)
    (vars : list string) :
  let s := fst (solve o A b mx vars) in
  let actions := map SimplexStep.action (SimplexSolution.steps s) in
  let pivots := length (SimplexSolution.iterations s) - 1 in
  exists ending,
    actions = logOf pivots ending /\
    (ending = [] \/ ending = ["optimal"%string] \/ ending = unboundedActions) /\
    (ending = ["optimal"%string] -> SimplexSolution.isOptimal s = true) /\
    (ending = unboundedActions <-> SimplexSolution.isUnbounded s = true) /\
    length actions <= 154.
Proof.
  cbv zeta. unfold solve. cbn [fst].
  unfold Solve.finish.
  cbn [SimplexSolution.steps SimplexSolution.iterations SimplexSolution.isOptimal
       SimplexSolution.isUnbounded].
  assert (H :
    (fun st =>
       at_exit st /\
       exists ending,
         map SimplexStep.action (Loop.steps st)
         = logOf (length (Loop.iterations st) - 1) ending /\
         (ending = [] \/ ending = ["optimal"%string] \/ ending = unboundedActions) /\
         (ending = ["optimal"%string] -> isOptimal (current st) = true) /\
         (ending = unboundedActions <-> isUnbounded (current st) = true))
      (Solve.final o A b mx vars)).
  { unfold Solve.final.
    apply loop_rule with (I := fun st => at_head st /\ log_grammar st).
    - (* the guard fails *)
      intros st (Hh & L) G. split; [apply at_exit_guard; auto|].
      destruct Hh as (_ & _ & _ & Hunb & _).
      exists (if isOptimal (current st) then ["optimal"%string] else []).
      split; [exact L|].
      destruct (isOptimal (current st)).
      + split; [right; left; reflexivity|]. split; [reflexivity|].
        rewrite Hunb. split; discriminate.
      + split; [left; reflexivity|]. split; [discriminate|].
        rewrite Hunb. split; discriminate.
    - (* break *)
      intros st (Hh & L) G B. split; [apply at_exit_break; auto|].
      destruct Hh as (W & Hlen & Hcnt & Hunb & Hit).
      assert (Hc : Loop.currentTableau st < length (Loop.store st))
        by (pose proof (wf_cur _ W); lia).
      pose proof (body_store st Hc) as Hs.
      pose proof (body_rest st) as (Hn & Hr).
      pose proof (logged_actions st Hc) as Hl.
      pose proof (guard_flags _ G) as [Gopt Gunb].
      unfold log_grammar in L. rewrite Gopt in L.
      destruct (way_of (current st)) as [|col|col row];
        try (destruct Hr as (_ & _ & Hr); congruence);
        destruct Hr as (Hi & Hcur' & _);
        unfold current; rewrite body_steps, map_app, L, Hl, Hi, Hs, Hcur',
          deref_update_eq by exact Hc; fold (current st).
      + exists []. rewrite app_nil_r. split; [reflexivity|].
        split; [left; reflexivity|]. split; [discriminate|].
        simpl. rewrite Gunb. split; discriminate.
      + exists unboundedActions. unfold logOf. rewrite app_nil_r, <- !app_assoc.
        split; [reflexivity|]. split; [right; right; reflexivity|].
        split; [discriminate|]. simpl. split; reflexivity.
    - intros st (Hh & L) G B.
      split; [apply at_head_step|apply log_grammar_step]; auto.
    - split; [apply at_head_init|apply log_grammar_init].
    - lia. }
  destruct H as ((W & Hl & Hcnt & _) & ending & H1 & H2 & H3 & H4).
  fold (Solve.final o A b mx vars) in *.
  fold (current (Solve.final o A b mx vars)).
  exists ending. repeat (split; [assumption|]).
  rewrite H1. unfold logOf. rewrite !length_app.
  assert (Hp : length (concat (repeat pivotActions
                 (length (Loop.iterations (Solve.final o A b mx vars)) - 1)))
               = 3 * (length (Loop.iterations (Solve.final o A b mx vars)) - 1)).
  { generalize (length (Loop.iterations (Solve.final o A b mx vars)) - 1).
    induction n as [|n IH]; simpl; [reflexivity|].
    simpl in IH. rewrite IH. lia. }
  rewrite Hp, (wf_iterations _ W), length_seq.
  unfold SimplexSolver.maxIterations in *.
  assert (length ending <= 2)
    by (destruct H2 as [-> | [-> | ->]]; simpl; lia).
  simpl. lia.
Qed.

(** ** What the last tableau records *)

Lemma untouched_init o A b mx vars : untouched (Solve.init o A b mx vars).
Proof. repeat split. Qed.

Lemma untouched_step st :
  at_head st -> Solve.guard st = true -> snd (Solve.body st) = false ->
  untouched (fst (Solve.body st)).
Proof.
  intros (W & Hlen & _) G B.
  assert (Hc : Loop.currentTableau st < length (Loop.store st))
    by (pose proof (wf_cur _ W); lia).
  pose proof (wf_cur _ W) as Wc.
  pose proof (body_store st Hc) as Hs.
  pose proof (body_rest st) as (Hn & Hr).
  destruct (way_of (current st)) as [|col|col row];
    try (destruct Hr as (_ & _ & Hr); congruence).
  destruct Hr as (Hi & Hcur' & _).
  unfold untouched, previous, current. rewrite Hs, Hcur'.
  set (h1 := Store.update _ _ (Loop.store st)).
  assert (Hl1 : length h1 = length (Loop.store st)) by apply update_length.
  rewrite <- Hl1, deref_app_last.
  destruct (length h1) as [|k] eqn:Hk; [lia|].
  rewrite deref_app_l by lia.
  replace k with (Loop.currentTableau st) by lia.
  subst h1. rewrite deref_update_eq by exact Hc.
  unfold finishNew. destruct (SimplexSolver.isOptimal _); repeat split.
Qed.

Lemma nth_error_deref (h : Store.t) r :
  r < length h -> nth_error h r = Some (Store.deref h r).
Proof. intros H. apply nth_error_nth'. exact H. Qed.

Lemma beforeLast_store st :
  wf st -> beforeLast (Loop.store st) = previous st.
Proof.
  intros W. pose proof (wf_cur _ W) as Hc.
  unfold beforeLast, previous.
  destruct (Loop.currentTableau st) as [|r].
  - replace (length (Loop.store st)) with 1 by lia. reflexivity.
  - replace (length (Loop.store st)) with (S (S r)) by lia.
    apply nth_error_deref. lia.
Qed.

(** X22: what the last tableau of the history records.  It never names a
    leaving variable; its pivot row is the one [pivotOperation] gave it,
    the row of the pivot that made it (none for the initial tableau); and
    unless the solution is unbounded it names no entering variable and its
    pivot column is the column of the pivot that made it.  When the
    solution is unbounded it records the column the entering rule chose
    on it and the name of that column. *)
Theorem history_last_annotation
    (o : list float) (A : list (list float)) (b : list float) (mx : bool)
    (vars : list string) :
  let s := fst (solve o A b mx vars) in
  let h := snd (solve o A b mx vars) in
  let t := last (history s h) dummy in
  let prev := beforeLast (history s h) in
  leavingVariable t = None /\
  pivotRow t = fst (inherited prev) /\
  (SimplexSolution.isUnbounded s = false ->
   enteringVariable t = None /\ pivotColumn t = snd (inherited prev)) /\
  (SimplexSolution.isUnbounded s = true ->
   exists col,
     SimplexSolver.findEnteringVariable t = Z.of_nat col /\
     pivotColumn t = Some col /\
     enteringVariable t = nth_error (nonBasicVariables t) col).
Proof.
  cbv zeta. rewrite solve_history.
  pose proof (at_exit_final o A b mx vars) as (W & _).
  rewrite (beforeLast_store _ W).
  unfold solve. cbn [fst]. unfold Solve.finish. cbn [SimplexSolution.isUnbounded].
  assert (Hlast : last (Loop.store (Solve.final o A b mx vars)) dummy
                  = current (Solve.final o A b mx vars))
    by (rewrite (current_last _ W), (history_store _ W); reflexivity).
  rewrite Hlast. fold (current (Solve.final o A b mx vars)).
  clear W Hlast.
  assert (H :
    (fun st =>
       leavingVariable (current st) = None /\
       pivotRow (current st) = fst (inherited (previous st)) /\
       (isUnbounded (current st) = false ->
        enteringVariable (current st) = None /\
        pivotColumn (current st) = snd (inherited (previous st))) /\
       (isUnbounded (current st) = true ->
        exists col,
          SimplexSolver.findEnteringVariable (current st) = Z.of_nat col /\
          pivotColumn (current st) = Some col /\
          enteringVariable (current st) = nth_error (nonBasicVariables (current st)) col))
      (Solve.final o A b mx vars)).
  { unfold Solve.final.
    apply loop_rule with (I := fun st => at_head st /\ untouched st).
    - intros st ((_ & _ & _ & Hunb & _) & (U1 & U2 & U3)) G.
      split; [exact U2|]. split; [rewrite <- U3; reflexivity|]. split.
      + intros _. split; [exact U1|rewrite <- U3; reflexivity].
      + intros H. congruence.
    - intros st (Hh & (U1 & U2 & U3)) G B.
      destruct Hh as (W & Hlen & Hcnt & Hunb & Hit).
      assert (Hc : Loop.currentTableau st < length (Loop.store st))
        by (pose proof (wf_cur _ W); lia).
      pose proof (body_store st Hc) as Hs.
      pose proof (body_rest st) as (Hn & Hr).
      destruct (way_of (current st)) as [|col|col row] eqn:Wy;
        try (destruct Hr as (_ & _ & Hr); congruence);
        destruct Hr as (Hi & Hcur' & _).
      + assert (E : fst (Solve.body st)
                    = Loop.make (Store.update (Loop.currentTableau st)
                                   (set_isOptimal true) (Loop.store st))
                        (Loop.iterations (fst (Solve.body st)))
                        (Loop.steps (fst (Solve.body st)))
                        (Loop.currentTableau st) (Loop.iterationCount st + 1)).
        { rewrite <- Hs, <- Hcur', <- Hn. destruct (fst (Solve.body st)); reflexivity. }
        assert (Hp : previous (fst (Solve.body st)) = previous st).
        { rewrite E. unfold previous. simpl.
          destruct (Loop.currentTableau st) as [|r]; [reflexivity|].
          rewrite deref_update_neq by lia. reflexivity. }
        rewrite Hp. unfold current. rewrite Hs, Hcur', deref_update_eq by exact Hc.
        fold (current st). simpl.
        split; [exact U2|]. split; [rewrite <- U3; reflexivity|]. split.
        * intros _. split; [exact U1|rewrite <- U3; reflexivity].
        * intros H. congruence.
      + assert (Hp : previous (fst (Solve.body st)) = previous st).
        { unfold previous. rewrite Hcur', Hs.
          destruct (Loop.currentTableau st) as [|r]; [reflexivity|].
          rewrite deref_update_neq by lia. reflexivity. }
        rewrite Hp. unfold current. rewrite Hs, Hcur', deref_update_eq by exact Hc.
        fold (current st). simpl.
        split; [exact U2|]. split; [rewrite <- U3; reflexivity|]. split.
        * intros H. discriminate.
        * intros _. exists col.
          apply way_of_unbounded in Wy. destruct Wy as (He & _ & _).
          split; [exact He|]. split; reflexivity.
    - intros st (Hh & U) G B.
      split; [apply at_head_step|apply untouched_step]; auto.
    - split; [apply at_head_init|apply untouched_init].
    - lia. }
  exact H.
Qed.

(** ** The run on the example *)

(** The problem of [examples/simplex-example.ts] takes two pivots: on
    (row 2, column 2) and on (row 3, column 1), counted from 1.  The last
    tableau still records the second of them. *)
Example example_run :
  let r := solve example_objective example_matrix example_rhs true
             example_variables in
  let hist := history (fst r) (snd r) in
  map iteration hist = [0; 1; 2] /\
  map (fun t => (pivotRow t, pivotColumn t)) hist
  = [(Some 1, Some 1); (Some 2, Some 0); (Some 2, Some 0)] /\
  map (fun t => (enteringVariable t, leavingVariable t)) hist
  = [(Some "x2", Some "s2"); (Some "x1", Some "s3"); (None, None)]%string /\
  map basicVariables hist
  = [["s1"; "s2"; "s3"]; ["s1"; "x2"; "s3"]; ["s1"; "x2"; "x1"]]%string /\
  map rhsColumn hist
  = [[4; 12; 18; 0]; [4; 6; 6; 30]; [2; 6; 2; 36]]%float /\
  map SimplexStep.action (SimplexSolution.steps (fst r))
  = logOf 2 ["optimal"%string] /\
  SimplexSolution.optimalSolution (fst r) = [("x1", 2); ("x2", 6)]%string%float /\
  SimplexSolution.optimalValue (fst r) = 36%float.
Proof. vm_compute. repeat split. Qed.

(** Minimizing 2x + 3y: no coefficient is negative, and [solve] returns the
    origin with the value negative zero after its first round. *)
Example example_minimize :
  let r := solve [2; 3]%float [[1; 1]; [1; 3]]%float [4; 6]%float false
             ["x"; "y"]%string in
  length (history (fst r) (snd r)) = 1 /\
  SimplexSolution.isOptimal (fst r) = true /\
  SimplexSolution.optimalSolution (fst r) = [("x", 0); ("y", 0)]%string%float /\
  SimplexSolution.optimalValue (fst r) = (- 0)%float.
Proof. vm_compute. repeat split. Qed.

(** ** How many points the graphical method looks at *)

Lemma flat_map_length_le {X Y} (f : X -> list Y) (k : nat) l :
  (forall x, length (f x) <= k) -> length (flat_map f l) <= k * length l.
Proof.
  intros Hf. induction l as [|x l IH]; simpl; [lia|].
  rewrite length_app. specialize (Hf x). lia.
Qed.

Lemma intercepts_length c : length (Graph.intercepts c) <= 2.
Proof.
  unfold Graph.intercepts. cbv zeta. rewrite length_app.
  destruct (negb _), (negb _); simpl; lia.
Qed.

Lemma pairwise_length cs :
  2 * length (Graph.pairwise cs) <= length cs * (length cs - 1).
Proof.
  induction cs as [|c cs IH]; simpl; [lia|].
  rewrite length_app.
  assert (H : length (flat_map (fun c' => match Graph.intersection c c' with
                                          | Some p => [p]
                                          | None => []
                                          end) cs) <= 1 * length cs).
  { apply flat_map_length_le. intros c'. destruct (Graph.intersection c c'); simpl; lia. }
  rewrite Nat.sub_0_r. destruct (length cs) as [|k]; simpl in *; nia.
Qed.

Lemma filter_length {X} (f : X -> bool) l : length (filter f l) <= length l.
Proof. induction l as [|x l IH]; simpl; [lia|]. destruct (f x); simpl; lia. Qed.

Lemma dedupe_length l : length (Graph.dedupe l) <= length l.
Proof.
  induction l as [|p l IH] using rev_ind; [simpl; lia|].
  rewrite dedupe_snoc, length_app. simpl.
  destruct (existsb _ _); rewrite ?length_app; simpl; lia.
Qed.

(** X23: the work of [computeGraphData] is bounded by the number [m] of
    constraints: it tries the origin, at most two intercepts per constraint
    and at most one intersection per pair of constraints, and the feasible
    points it keeps are not more than the points it tried. *)
Theorem candidates_bound (pr : Graph.problem) :
  let cs := Graph.constraints pr in
  let m := length cs in
  2 * length (Graph.candidates cs) <= 2 + 4 * m + m * (m - 1) /\
  length (Graph.feasiblePoints (Graph.computeGraphData pr))
  <= length (Graph.candidates cs).
Proof.
  cbv zeta. split.
  - unfold Graph.candidates. simpl length. rewrite length_app.
    pose proof (flat_map_length_le Graph.intercepts 2 (Graph.constraints pr)
                  intercepts_length).
    pose proof (pairwise_length (Graph.constraints pr)). lia.
  - unfold Graph.computeGraphData. cbv zeta.
    destruct (fold_left _ _ _) as [op ov]. cbn [Graph.feasiblePoints].
    etransitivity; [apply dedupe_length|apply filter_length].
Qed.

(** ** Which points the graphical method looks at *)

(** The recursion of [Graph.pairwise] visits the pairs [i < j] of the two
    nested loops. *)
Lemma pairwise_In (cs : list Graph.constraint) (d : Graph.constraint) p :
  In p (Graph.pairwise cs) <->
  exists i j, i < j /\ j < length cs /\
    Graph.intersection (nth i cs d) (nth j cs d) = Some p.
Proof.
  induction cs as [|c cs IH]; simpl.
  - split; [tauto|]. intros (i & j & _ & H & _). lia.
  - rewrite in_app_iff, in_flat_map, IH. split.
    + intros [(c' & Hc' & Hp) | (i & j & Hij & Hj & Hp)].
      * destruct (In_nth _ _ d Hc') as (k & Hk & <-).
        exists 0, (S k). split; [lia|]. split; [lia|].
        destruct (Graph.intersection c (nth k cs d)) as [q|]; [|destruct Hp].
        destruct Hp as [-> | []]. reflexivity.
      * exists (S i), (S j). split; [lia|]. split; [lia|exact Hp].
    + intros (i & j & Hij & Hj & Hp).
      destruct i as [|i].
      * destruct j as [|j]; [lia|]. left. exists (nth j cs d).
        split; [apply nth_In; lia|]. rewrite Hp. left. reflexivity.
      * destruct j as [|j]; [lia|]. right. exists i, j.
        split; [lia|]. split; [lia|exact Hp].
Qed.

(** X24: the points [computeGraphData] tries are the origin, for every
    constraint its intercept with the x-axis when the first coefficient is
    not 0 and its intercept with the y-axis when the second is not 0, and
    for every pair of constraints [i < j] their intersection when
    [intersection] returns one; it tries no other point. *)
Theorem candidates_membership (cs : list Graph.constraint) (d : Graph.constraint)
    (p : Graph.Point) :
  In p (Graph.candidates cs) <->
  p = Graph.makePoint 0 0 \/
  (exists c, In c cs /\
     let a := JS.get (Graph.coefficients c) 0 in
     let b := JS.get (Graph.coefficients c) 1 in
     ((a =? 0)%float = false /\ p = Graph.makePoint (Graph.rhs c / a) 0) \/
     ((b =? 0)%float = false /\ p = Graph.makePoint 0 (Graph.rhs c / b))) \/
  (exists i j, i < j /\ j < length cs /\
     Graph.intersection (nth i cs d) (nth j cs d) = Some p).
Proof.
  unfold Graph.candidates. simpl In. rewrite in_app_iff, in_flat_map.
  rewrite (pairwise_In cs d p).
  split.
  - intros [H | [(c & Hc & Hp) | H]]; [left; auto| |right; right; exact H].
    right. left. exists c. split; [exact Hc|]. cbv zeta.
    unfold Graph.intercepts in Hp. cbv zeta in Hp.
    apply in_app_or in Hp. destruct Hp as [Hp | Hp].
    + destruct (JS.get (Graph.coefficients c) 0 =? 0)%float; simpl in Hp;
        [destruct Hp|]. destruct Hp as [<- | []]. left. split; reflexivity.
    + destruct (JS.get (Graph.coefficients c) 1 =? 0)%float; simpl in Hp;
        [destruct Hp|]. destruct Hp as [<- | []]. right. split; reflexivity.
  - intros [H | [(c & Hc & Hp) | H]]; [left; auto| |right; right; exact H].
    right. left. exists c. split; [exact Hc|]. cbv zeta in Hp.
    unfold Graph.intercepts. cbv zeta. apply in_or_app.
    destruct Hp as [(Ha & ->) | (Hb & ->)].
    + left. rewrite Ha. left. reflexivity.
    + right. rewrite Hb. left. reflexivity.
Qed.
